(** * A shallow embedding of the client-side data layer

    These JavaScript classes are embedded here:
    - [CacheManager]    (js/utils/cache.js): the two-tier cache,
    - [ErrorHandler]    (js/utils/errors.js): what makes an error critical,
    - [SupabaseService] (js/services/supabase-service.js): the read-through
      and retry orchestrator with its read methods and its write queue,
    - [StateService]    (state service): the observable state store and its
      helpers,
    - [ProductsManager] (products manager): the pagination,
    - [UIService]       (UI service): the stack of open modals.

    JavaScript values are embedded as [value]; objects that the program
    shares and mutates live in an explicit [heap], so that aliasing is
    visible.  [Date.now()] is an explicit argument or a clock field. *)

From Stdlib Require Import ZArith Ascii String DecimalString List Bool Lia.
From stdpp Require Import base list strings relations.
Import ListNotations.
Open Scope string_scope.
Open Scope list_scope.
Open Scope Z_scope.

(** ** JavaScript values *)

(** Objects, arrays and dates are references into a heap; every other value
    is immediate.  [VNaN] is kept apart from [VNum] because [===] treats it
    specially. *)
Inductive value : Type :=
| VUndefined
| VNull
| VBool (b : bool)
| VNum (n : Z)
| VNaN
| VStr (s : string)
| VRef (l : nat).

(** ToBoolean: what [if (v)], [!v] and [a && b] look at. *)
Definition truthy (v : value) : bool :=
  match v with
  | VUndefined | VNull | VNaN => false
  | VBool b => b
  | VNum n => negb (n =? 0)
  | VStr s => negb (String.eqb s EmptyString)
  | VRef _ => true
  end.

(** [a === b]. *)
Definition strict_eq (a b : value) : bool :=
  match a, b with
  | VUndefined, VUndefined => true
  | VNull, VNull => true
  | VBool x, VBool y => Bool.eqb x y
  | VNum x, VNum y => x =? y
  | VStr x, VStr y => String.eqb x y
  | VRef x, VRef y => Nat.eqb x y
  | _, _ => false
  end.

(** [a !== b]. *)
Definition strict_neq (a b : value) : bool := negb (strict_eq a b).

(** The last [n] elements of [l]. *)
Definition lastn {A : Type} (n : nat) (l : list A) : list A := skipn (List.length l - n) l.

(** ** Insertion-ordered string-keyed maps

    A JavaScript [Map] (and the own properties of a plain object) iterate in
    insertion order; assigning to a key that is present keeps its place.
    A key is bound once; [delete] leaves no binding of its key. *)
Module JsMap.
Section Ops.
Context {V : Type}.

Fixpoint get (k : string) (m : list (string * V)) : option V :=
  match m with
  | [] => None
  | (k', v) :: m' => if String.eqb k' k then Some v else get k m'
  end.

Fixpoint set (k : string) (v : V) (m : list (string * V)) : list (string * V) :=
  match m with
  | [] => [(k, v)]
  | (k', v') :: m' =>
      if String.eqb k' k then (k, v) :: m' else (k', v') :: set k v m'
  end.

Fixpoint delete (k : string) (m : list (string * V)) : list (string * V) :=
  match m with
  | [] => []
  | (k', v') :: m' =>
      if String.eqb k' k then delete k m' else (k', v') :: delete k m'
  end.

Definition keys (m : list (string * V)) : list string := map fst m.

(** [m.keys().next().value] *)
Definition first_key (m : list (string * V)) : option string :=
  match m with
  | [] => None
  | (k, _) :: _ => Some k
  end.

Definition size (m : list (string * V)) : nat := List.length m.
End Ops.
End JsMap.

(** ** js/utils/cache.js *)
Module Cache.

(** The object literal [{ value, timestamp, ttl }] kept per key. *)
Record item : Type := Item {
  item_value : value;
  timestamp : Z;
  ttl : Z
}.

(** The fields of a [CacheManager].  [db] is [None] while IndexedDB is
    missing or failed to open. *)
Record CacheManager : Type := Mk {
  memoryCache : list (string * item);
  maxMemorySize : nat;
  db : option (list (string * item))
}.

(** [new CacheManager()] once [initDB] has settled; [idb] tells whether the
    object store could be opened. *)
Definition create (idb : bool) : CacheManager :=
  {| memoryCache := [];
     maxMemorySize := 50;
     db := if idb then Some [] else None |}.

Definition with_memory (c : CacheManager) (m : list (string * item)) : CacheManager :=
  {| memoryCache := m; maxMemorySize := maxMemorySize c; db := db c |}.

Definition with_db (c : CacheManager) (d : option (list (string * item))) : CacheManager :=
  {| memoryCache := memoryCache c; maxMemorySize := maxMemorySize c; db := d |}.

(** [Date.now() - item.timestamp > item.ttl] *)
Definition expired (now : Z) (it : item) : bool := ttl it <? now - timestamp it.

(** [setMemory(key, value, ttl = 300000)] at time [now]. *)
Definition setMemory (key : string) (v : value) (ttl_arg : option Z) (now : Z)
    (c : CacheManager) : CacheManager :=
  let t := default 300000 ttl_arg in
  let m := memoryCache c in
  let m1 :=
    if (maxMemorySize c <=? JsMap.size m)%nat then
      match JsMap.first_key m with
      | Some firstKey => JsMap.delete firstKey m
      | None => m
      end
    else m in
  with_memory c (JsMap.set key {| item_value := v; timestamp := now; ttl := t |} m1).

(** [getMemory(key)] at time [now]: the returned value and the manager
    afterwards. *)
Definition getMemory (key : string) (now : Z) (c : CacheManager) : value * CacheManager :=
  match JsMap.get key (memoryCache c) with
  | None => (VNull, c)
  | Some it =>
      if expired now it
      then (VNull, with_memory c (JsMap.delete key (memoryCache c)))
      else (item_value it, c)
  end.

(** [setDB(key, value, ttl = 3600000)]: [store.put] replaces the record
    stored under [key]. *)
Definition setDB (key : string) (v : value) (ttl_arg : option Z) (now : Z)
    (c : CacheManager) : bool * CacheManager :=
  match db c with
  | None => (false, c)
  | Some d =>
      let t := default 3600000 ttl_arg in
      (true, with_db c (Some (JsMap.set key {| item_value := v; timestamp := now; ttl := t |} d)))
  end.

Definition deleteDB (key : string) (c : CacheManager) : CacheManager :=
  match db c with
  | None => c
  | Some d => with_db c (Some (JsMap.delete key d))
  end.

Definition getDB (key : string) (now : Z) (c : CacheManager) : value * CacheManager :=
  match db c with
  | None => (VNull, c)
  | Some d =>
      match JsMap.get key d with
      | None => (VNull, c)
      | Some it =>
          if expired now it then (VNull, deleteDB key c) else (item_value it, c)
      end
  end.

(** [set(key, value, { useDB = false, ttl })] *)
Definition set (key : string) (v : value) (useDB : bool) (ttl_arg : option Z) (now : Z)
    (c : CacheManager) : bool * CacheManager :=
  if useDB then setDB key v ttl_arg now c
  else (true, setMemory key v ttl_arg now c).

(** [get(key, { useDB = false })] *)
Definition get (key : string) (useDB : bool) (now : Z) (c : CacheManager)
    : value * CacheManager :=
  if useDB then getDB key now c else getMemory key now c.

(** [clear()] *)
Definition clear (c : CacheManager) : CacheManager :=
  {| memoryCache := [];
     maxMemorySize := maxMemorySize c;
     db := match db c with Some _ => Some [] | None => None end |}.

(** [cleanup()]: expired entries leave the memory tier; records of the
    durable tier whose timestamp is at most [now - 86400000] are deleted. *)
Definition cleanup (now : Z) (c : CacheManager) : CacheManager :=
  {| memoryCache := List.filter (fun kv => negb (expired now (snd kv))) (memoryCache c);
     maxMemorySize := maxMemorySize c;
     db := match db c with
           | Some d => Some (List.filter (fun kv => negb (timestamp (snd kv) <=? now - 86400000)) d)
           | None => None
           end |}.

(** The entry the selected tier holds under [key], expired or not. *)
Definition held (key : string) (useDB : bool) (c : CacheManager) : option item :=
  if useDB then
    match db c with
    | Some d => JsMap.get key d
    | None => None
    end
  else JsMap.get key (memoryCache c).

(** An entry is valid at [now] when [now - timestamp <= ttl]. *)
Definition valid (now : Z) (it : item) : Prop := now - timestamp it <= ttl it.

(** A use of the fast tier by a caller: a write or a read. *)
Inductive access : Type :=
| Put (key : string) (v : value) (ttl_arg : option Z)
| Read (key : string).

(** One access made at time [fst a]. *)
Definition access_step (c : CacheManager) (a : Z * access) : CacheManager :=
  match snd a with
  | Put key v t => setMemory key v t (fst a) c
  | Read key => snd (getMemory key (fst a) c)
  end.

Definition run (l : list (Z * access)) (c : CacheManager) : CacheManager :=
  fold_left access_step l c.

(** The bindings written by a sequence of accesses, in the order written. *)
Definition puts (l : list (Z * access)) : list (string * item) :=
  flat_map (fun a => match snd a with
                     | Put key v t =>
                         [(key, {| item_value := v; timestamp := fst a;
                                   ttl := default 300000 t |})]
                     | Read _ => []
                     end) l.

(** Every read of [l] is made while every binding written in [l] is valid:
    no read finds an expired entry. *)
Definition reads_find_valid (l : list (Z * access)) : Prop :=
  forall now key, In (now, Read key) l ->
                  Forall (fun kv => valid now (snd kv)) (puts l).

End Cache.

(** ** js/utils/errors.js *)
Module Errors.

(** What a [catch] clause can receive, as far as this program looks at it:
    the program reads [error.message], tests values for truthiness and
    calls [toLowerCase] on them. *)
Inductive thrown : Type :=
| Err (message : string)      (* an Error or other object; its [message], empty if it has none *)
| Nullish                     (* null or undefined *)
| ThrownStr (s : string)      (* a string thrown as it is *)
| ThrownNum (n : Z).          (* a number thrown as it is *)

(** A computation that either completes or throws. *)
Inductive completion (A : Type) : Type :=
| Normal (a : A)
| Throw (e : thrown).
Arguments Normal {A} a.
Arguments Throw {A} e.

(** [error.message]: a property read, which throws a TypeError on null and
    undefined and yields undefined on the other primitives. *)
Definition message_of (e : thrown) : completion value :=
  match e with
  | Err m => Normal (VStr m)
  | Nullish => Throw (Err "Cannot read properties of null (reading 'message')")
  | ThrownStr _ | ThrownNum _ => Normal VUndefined
  end.

(** A caught value whose [message] can be read. *)
Definition readable (e : thrown) : Prop := e <> Nullish.

(** ASCII part of [String.prototype.toLowerCase]. *)
Definition lower_ascii (c : ascii) : ascii :=
  let n := nat_of_ascii c in
  if ((65 <=? n) && (n <=? 90))%nat then ascii_of_nat (n + 32) else c.

Fixpoint toLowerCase (s : string) : string :=
  match s with
  | EmptyString => EmptyString
  | String c s' => String (lower_ascii c) (toLowerCase s')
  end.

(** [s.includes(keyword)] *)
Fixpoint includes (keyword s : string) : bool :=
  String.prefix keyword s ||
  match s with
  | EmptyString => false
  | String _ s' => includes keyword s'
  end.

Definition criticalKeywords : list string := ["network"; "database"; "auth"; "payment"].

(** [isCriticalError(error)]:
    [(error?.message || error || '').toLowerCase()] is a string method, so
    the call throws a TypeError when the operand of [||] that is selected
    is not a string. *)
Definition isCriticalError (e : thrown) : completion bool :=
  let some_keyword (m : string) :=
    existsb (fun keyword => includes keyword (toLowerCase m)) criticalKeywords in
  let not_a_function := Err "(intermediate value).toLowerCase is not a function" in
  match e with
  | Err m => if String.eqb m EmptyString then Throw not_a_function else Normal (some_keyword m)
  | Nullish => Normal (some_keyword EmptyString)
  | ThrownStr s => Normal (some_keyword s)
  | ThrownNum n => if n =? 0 then Normal (some_keyword EmptyString) else Throw not_a_function
  end.

(** [error?.message || error]: the message when there is a non-empty one,
    the thrown value itself otherwise. *)
Definition message_or_self (e : thrown) : thrown :=
  match e with
  | Err m => if String.eqb m EmptyString then e else ThrownStr m
  | _ => e
  end.

(** The fields [message] and [type] of [errorInfo]; the others are the
    context passed in, the time, the user agent and the URL. *)
Record errorInfo : Type := {
  info_message : thrown;
  info_type : string
}.

(** [handleError(error, type, context)].  The listeners are callbacks whose
    own exceptions are caught; they run before [isCriticalError], whose
    exception is not caught.  [reportToCrashlytics] only writes to the
    console. *)
Definition handleError (e : thrown) (type : string) : completion errorInfo :=
  match isCriticalError e with
  | Throw t => Throw t
  | Normal _ => Normal {| info_message := message_or_self e; info_type := type |}
  end.

End Errors.

(** ** js/services/supabase-service.js: [execute] *)
Module Service.
Import Errors.

(** The object a query resolves to, [{ data, error, ... }].  [error] is
    [None] when the field is falsy and otherwise holds what
    [new Error(result.error.message)] takes as its message (empty when the
    error has no message); [rest] holds the object's other own
    properties. *)
Record response : Type := {
  data : value;
  error : option string;
  rest : list (string * value)
}.

(** How one call of [queryFn] ends. *)
Inductive outcome : Type :=
| Resolves (r : response)
| ResolvesNullish          (* resolves to null or undefined *)
| Rejects (e : thrown).    (* throws, or returns a promise that rejects *)

(** One call of [queryFn]: the time it takes and how it ends.  A query is
    given by its calls, numbered from 1. *)
Record call : Type := { took : Z; ends : outcome }.
Definition query : Type := nat -> call.

Inductive event : Type :=
| Called (attempt : nat)             (* queryFn() *)
| Delayed (ms : Z)                   (* await this.delay(ms) *)
| Reported (e : thrown).             (* errorHandler.handleError(e, 'supabase', ...) *)

(** The singletons the service works on, and the page's clock. *)
Record world : Type := {
  cache : Cache.CacheManager;
  clock : Z;
  trace : list event
}.

Definition emit (e : event) (w : world) : world :=
  {| cache := cache w; clock := clock w; trace := trace w ++ [e] |}.

Definition elapse (ms : Z) (w : world) : world :=
  {| cache := cache w; clock := clock w + ms; trace := trace w |}.

Definition with_cache (w : world) (c : Cache.CacheManager) : world :=
  {| cache := c; clock := clock w; trace := trace w |}.

(** [this.retryAttempts] and [this.retryDelay], set by the constructor. *)
Record SupabaseService : Type := {
  retryAttempts : nat;
  retryDelay : Z
}.

Definition create : SupabaseService := {| retryAttempts := 3; retryDelay := 1000 |}.

(** The [options] argument; [None] is an absent property. *)
Record options : Type := {
  opt_useCache : option bool;
  opt_cacheTTL : option Z;
  opt_useDB : option bool;
  opt_retries : option nat
}.


(** What [execute] returns. *)
Inductive result : Type :=
| FromCache (cached : value)          (* { data: cached, error: null, fromCache: true } *)
| Fetched (r : response)              (* the object the query resolved to, as it is *)
| Failed (lastError : thrown) (info : errorInfo).
                                      (* { data: null, error: lastError, errorInfo } *)

(** [result.data] and [result.fromCache] of what [execute] returned. *)
Definition result_data (r : result) : value :=
  match r with
  | FromCache v => v
  | Fetched q => data q
  | Failed _ _ => VNull
  end.

Definition result_fromCache (r : result) : value :=
  match r with
  | FromCache _ => VBool true
  | Fetched q => default VUndefined (JsMap.get "fromCache" (rest q))
  | Failed _ _ => VUndefined
  end.

(** [useCache && cacheKey]; the empty string is falsy. *)
Definition cache_enabled (useCache : bool) (cacheKey : option string) : option string :=
  match cacheKey with
  | Some k => if useCache && negb (String.eqb k EmptyString) then Some k else None
  | None => None
  end.

(** [delay(ms)] *)
Definition delay (ms : Z) (w : world) : world := emit (Delayed ms) (elapse ms w).

(** The body of the [try] block once [queryFn()] has settled with [o]. *)
Definition try_body (o : outcome) (key : option string) (useDB : bool) (cacheTTL : Z)
    (w : world) : world * completion response :=
  match o with
  | Rejects e => (w, Throw e)
  | ResolvesNullish =>
      (w, Throw (Err "Cannot read properties of undefined (reading 'error')"))
  | Resolves r =>
      match error r with
      | Some m => (w, Throw (Err m))
      | None =>
          match key with
          | Some k =>
              if truthy (data r)
              then (with_cache w (snd (Cache.set k (data r) useDB (Some cacheTTL) (clock w) (cache w))),
                    Normal r)
              else (w, Normal r)
          | None => (w, Normal r)
          end
      end
  end.

(** How the [for] loop is left. *)
Inductive loop_exit : Type :=
| Returned (r : response)
| Exhausted (lastError : thrown).

(** The loop [for (let attempt = 1; attempt <= retries; attempt++)], entered
    with [remaining = retries + 1 - attempt] iterations to go. *)
Fixpoint retry_loop (svc : SupabaseService) (queryFn : query) (key : option string)
    (useDB : bool) (cacheTTL : Z) (retries remaining attempt : nat)
    (lastError : thrown) (w : world) : world * completion loop_exit :=
  match remaining with
  | O => (w, Normal (Exhausted lastError))
  | S remaining' =>
      let c := queryFn attempt in
      let w1 := elapse (took c) (emit (Called attempt) w) in
      match try_body (ends c) key useDB cacheTTL w1 with
      | (w2, Normal r) => (w2, Normal (Returned r))
      | (w2, Throw e) =>
          (* catch (error): console.warn(..., error.message) *)
          match message_of e with
          | Throw t => (w2, Throw t)
          | Normal _ =>
              let w3 := if (attempt <? retries)%nat
                        then delay (retryDelay svc * Z.of_nat attempt) w2
                        else w2 in
              retry_loop svc queryFn key useDB cacheTTL retries remaining' (S attempt) e w3
          end
      end
  end.

(** [execute(queryFn, cacheKey = null, options = {})] *)
Definition execute (svc : SupabaseService) (queryFn : query) (cacheKey : option string)
    (o : options) (w : world) : world * completion result :=
  let useCache := default true (opt_useCache o) in
  let cacheTTL := default 300000 (opt_cacheTTL o) in
  let useDB := default false (opt_useDB o) in
  let retries := default (retryAttempts svc) (opt_retries o) in
  let key := cache_enabled useCache cacheKey in
  let run (w0 : world) :=
    match retry_loop svc queryFn key useDB cacheTTL retries retries 1 Nullish w0 with
    | (w1, Throw t) => (w1, Throw t)
    | (w1, Normal (Returned r)) => (w1, Normal (Fetched r))
    | (w1, Normal (Exhausted lastError)) =>
        let w2 := emit (Reported lastError) w1 in
        match handleError lastError "supabase" with
        | Throw t => (w2, Throw t)
        | Normal info => (w2, Normal (Failed lastError info))
        end
    end in
  match key with
  | Some k =>
      let (cached, c1) := Cache.get k useDB (clock w) (cache w) in
      if truthy cached then (with_cache w c1, Normal (FromCache cached))
      else run (with_cache w c1)
  | None => run w
  end.

(** What a successful attempt that ends in world [w] leaves in the cache. *)
Definition stored (key : option string) (useDB : bool) (cacheTTL : Z) (r : response)
    (w : world) : Cache.CacheManager :=
  match key with
  | Some k =>
      if truthy (data r)
      then snd (Cache.set k (data r) useDB (Some cacheTTL) (clock w) (cache w))
      else cache w
  | None => cache w
  end.

(** What a settled call makes the [try] block throw, if anything. *)
Definition failure (o : outcome) : option thrown :=
  match o with
  | Rejects e => Some e
  | ResolvesNullish => Some (Err "Cannot read properties of undefined (reading 'error')")
  | Resolves r => option_map Err (error r)
  end.

(** The calls and delays of [n] failed attempts from [attempt] on. *)
Definition failed_attempts (svc : SupabaseService) (retries attempt n : nat) : list event :=
  flat_map (fun i => Called i ::
                     if (i <? retries)%nat then [Delayed (retryDelay svc * Z.of_nat i)] else [])
           (seq attempt n).

(** The durations of the delays in a trace, in order. *)
Definition delays (l : list event) : list Z :=
  flat_map (fun e => match e with Delayed ms => [ms] | _ => [] end) l.

(** The attempts made in a trace, in order. *)
Definition attempts (l : list event) : list nat :=
  flat_map (fun e => match e with Called i => [i] | _ => [] end) l.

(** [invalidateCache(pattern)] at time [now]. *)
Definition invalidateCache (pattern : string) (now : Z) (c : Cache.CacheManager)
    : Cache.CacheManager :=
  if String.eqb pattern "products" then
    let c1 := snd (Cache.get "products_all" false now c) in
    let keys := List.filter (String.prefix "product_") (JsMap.keys (Cache.memoryCache c1)) in
    Cache.with_memory c1
      (fold_left (fun m key => JsMap.delete key m) keys (Cache.memoryCache c1))
  else if String.eqb pattern "categories" then
    snd (Cache.get "categories_all" false now c)
  else if String.eqb pattern "settings" then
    snd (Cache.get "store_settings" false now c)
  else c.

End Service.

(** ** js/services/supabase-service.js: the request queue

    [queueRequest] and [processQueue] run on one thread and are interleaved
    only where [processQueue] awaits.  The embedding is a transition system
    whose state holds the two fields of the service and the point at which
    the drain loop is suspended. *)
Module Queue.

Inductive qevent : Type :=
| Submitted (id : nat)                  (* queueRequest(requestFn) pushed the request *)
| Started (id : nat)                    (* requestFn() was called *)
| Settled (id : nat) (fulfilled : bool) (* resolve(result) or reject(error) *)
| Waited (ms : Z).                      (* await this.delay(ms) returned *)

(** Where the one activation of [processQueue] that got past its guard is
    suspended. *)
Inductive drain : Type :=
| NotRunning
| AwaitingRequest (id : nat)   (* at [await requestFn()] *)
| AwaitingDelay.               (* at [await this.delay(100)] *)

Record state : Type := {
  requestQueue : list nat;
  processing : bool;
  suspended : drain;
  log : list qevent
}.

Definition init : state :=
  {| requestQueue := []; processing := false; suspended := NotRunning; log := [] |}.

(** The head of [while (this.requestQueue.length > 0)]: either [shift()] a
    request and call it, or leave the loop and clear [processing]. *)
Definition loop_head (s : state) : state :=
  match requestQueue s with
  | id :: q =>
      {| requestQueue := q; processing := processing s;
         suspended := AwaitingRequest id; log := log s ++ [Started id] |}
  | [] =>
      {| requestQueue := []; processing := false;
         suspended := NotRunning; log := log s |}
  end.

(** [processQueue()] up to its first [await]. *)
Definition processQueue (s : state) : state :=
  if processing s || (List.length (requestQueue s) =? 0)%nat then s
  else loop_head {| requestQueue := requestQueue s; processing := true;
                    suspended := suspended s; log := log s |}.

(** [queueRequest(requestFn)]: the promise executor runs at once. *)
Definition queueRequest (id : nat) (s : state) : state :=
  processQueue {| requestQueue := requestQueue s ++ [id]; processing := processing s;
                  suspended := suspended s; log := log s ++ [Submitted id] |}.

(** The awaited request settles; the loop resolves or rejects the caller's
    promise and starts the delay. *)
Definition request_settles (fulfilled : bool) (s : state) : option state :=
  match suspended s with
  | AwaitingRequest id =>
      Some {| requestQueue := requestQueue s; processing := processing s;
              suspended := AwaitingDelay; log := log s ++ [Settled id fulfilled] |}
  | _ => None
  end.

(** The timer of [this.delay(100)] fires; the loop goes back to its head. *)
Definition delay_elapses (s : state) : option state :=
  match suspended s with
  | AwaitingDelay =>
      Some (loop_head {| requestQueue := requestQueue s; processing := processing s;
                         suspended := suspended s; log := log s ++ [Waited 100] |})
  | _ => None
  end.

Inductive step : state -> state -> Prop :=
| step_submit id s : step s (queueRequest id s)
| step_settle fulfilled s s' : request_settles fulfilled s = Some s' -> step s s'
| step_timer s s' : delay_elapses s = Some s' -> step s s'.

Definition reachable (s : state) : Prop := rtc step init s.

(** Projections of the log. *)
Definition submitted (l : list qevent) : list nat :=
  flat_map (fun e => match e with Submitted id => [id] | _ => [] end) l.
Definition started (l : list qevent) : list nat :=
  flat_map (fun e => match e with Started id => [id] | _ => [] end) l.
Definition settled (l : list qevent) : list nat :=
  flat_map (fun e => match e with Settled id _ => [id] | _ => [] end) l.
(** What the drain loop did, without the submissions in between. *)
Definition drained (l : list qevent) : list qevent :=
  List.filter (fun e => match e with Submitted _ => false | _ => true end) l.


(** What the drain loop logs for requests it is done with: each one is
    started, settled, and followed by the delay. *)
Definition cycles (done : list (nat * bool)) : list qevent :=
  flat_map (fun r => [Started (fst r); Settled (fst r) (snd r); Waited 100]) done.

(** What the drain loop has logged for the request it is busy with. *)
Definition current (d : drain) (cur : list qevent) (inflight : list nat) : Prop :=
  match d with
  | NotRunning => cur = [] /\ inflight = []
  | AwaitingRequest id => cur = [Started id] /\ inflight = [id]
  | AwaitingDelay => exists id ok, cur = [Started id; Settled id ok] /\ inflight = [id]
  end.

(** The invariant of the queue: the loop has gone through a prefix [done] of
    the submitted requests in order, is busy with at most the next one, and
    the rest waits in [requestQueue]; [processing] is set exactly while the
    loop is suspended. *)
Definition invariant (s : state) : Prop :=
  exists done cur inflight,
    drained (log s) = cycles done ++ cur /\
    submitted (log s) = map fst done ++ inflight ++ requestQueue s /\
    current (suspended s) cur inflight /\
    processing s = match suspended s with NotRunning => false | _ => true end /\
    (suspended s = NotRunning -> requestQueue s = []).

End Queue.

(** ** The state service *)
Module State.

(** What a reference points to. *)
Inductive object : Type :=
| Plain (props : list (string * value))   (* own properties, in insertion order *)
| Array (items : list value)
| Date (time : Z).

(** The heap: an address is an index, allocation appends. *)
Definition alloc (o : object) (h : list object) : value * list object :=
  (VRef (List.length h), h ++ [o]).

(** A heap value read as a tree, down to [depth] nested objects; [None]
    when the structure is deeper than that (or cyclic). *)
#[local] Unset Elimination Schemes.
Inductive tree : Type :=
| Leaf (v : value)
| TPlain (props : list (string * tree))
| TArray (items : list tree)
| TDate (time : Z).
#[local] Set Elimination Schemes.

Section Traversals.
Context {A B : Type}.

Fixpoint snap_items (f : A -> option B) (items : list A) : option (list B) :=
  match items with
  | [] => Some []
  | v :: vs =>
      match f v, snap_items f vs with
      | Some t, Some ts => Some (t :: ts)
      | _, _ => None
      end
  end.

Fixpoint snap_props (f : A -> option B) (props : list (string * A))
    : option (list (string * B)) :=
  match props with
  | [] => Some []
  | (k, v) :: ps =>
      match f v, snap_props f ps with
      | Some t, Some ts => Some ((k, t) :: ts)
      | _, _ => None
      end
  end.

(** [items.map(item => f(item))] for an [f] that allocates. *)
Fixpoint clone_items (f : A -> list object -> option (B * list object))
    (items : list A) (h : list object) : option (list B * list object) :=
  match items with
  | [] => Some ([], h)
  | v :: vs =>
      match f v h with
      | Some (v', h1) =>
          match clone_items f vs h1 with
          | Some (vs', h2) => Some (v' :: vs', h2)
          | None => None
          end
      | None => None
      end
  end.

(** [Object.keys(obj).forEach(key => { copy[key] = f(obj[key]) })] *)
Fixpoint clone_props (f : A -> list object -> option (B * list object))
    (props : list (string * A)) (h : list object)
    : option (list (string * B) * list object) :=
  match props with
  | [] => Some ([], h)
  | (k, v) :: ps =>
      match f v h with
      | Some (v', h1) =>
          match clone_props f ps h1 with
          | Some (ps', h2) => Some ((k, v') :: ps', h2)
          | None => None
          end
      | None => None
      end
  end.
End Traversals.

Fixpoint snapshot (depth : nat) (h : list object) (v : value) : option tree :=
  match v with
  | VRef l =>
      match depth with
      | O => None
      | S d =>
          match h !! l with
          | Some (Plain props) => option_map TPlain (snap_props (snapshot d h) props)
          | Some (Array items) => option_map TArray (snap_items (snapshot d h) items)
          | Some (Date t) => Some (TDate t)
          | None => None
          end
      end
  | _ => Some (Leaf v)
  end.

(** [deepClone(obj)].  The recursion is as deep as the structure; [depth]
    is the number of nested objects the call stack can take, and [None] is
    the RangeError of a deeper (or cyclic) structure.  The copy enters the
    heap when its contents are cloned; its address is not observable. *)
Fixpoint deepClone (depth : nat) (v : value) (h : list object)
    : option (value * list object) :=
  match v with
  | VRef l =>
      match depth with
      | O => None
      | S d =>
          match h !! l with
          | Some (Date t) => Some (alloc (Date t) h)
          | Some (Array items) =>
              match clone_items (deepClone d) items h with
              | Some (items', h1) => Some (alloc (Array items') h1)
              | None => None
              end
          | Some (Plain props) =>
              match clone_props (deepClone d) props h with
              | Some (props', h1) => Some (alloc (Plain props') h1)
              | None => None
              end
          | None => None
          end
      end
  | _ => Some (v, h)
  end.

(** [h'] has every object of [h], at the same address and unchanged. *)
Definition extends (h h' : list object) : Prop :=
  forall l o, h !! l = Some o -> h' !! l = Some o.

(** The values an object holds. *)
Definition refs_of (o : object) : list value :=
  match o with
  | Plain props => map snd props
  | Array items => items
  | Date _ => []
  end.

(** [v] is not a reference to an address below [n]. *)
Definition above (n : nat) (v : value) : Prop :=
  match v with
  | VRef r => (n <= r)%nat
  | _ => True
  end.

(** The addresses a caller who holds [v] can get at. *)
Inductive reach (h : list object) : value -> nat -> Prop :=
| reach_root l : reach h (VRef l) l
| reach_field l o v l' :
    h !! l = Some o -> In v (refs_of o) -> reach h v l' -> reach h (VRef l) l'.

(** The own properties of the plain object [v] refers to. *)
Definition props_of (h : list object) (v : value) : option (list (string * value)) :=
  match v with
  | VRef l => match h !! l with Some (Plain props) => Some props | _ => None end
  | _ => None
  end.

(** [obj[key]] on own properties; [undefined] when there is none. *)
Definition prop (props : list (string * value)) (key : string) : value :=
  default VUndefined (JsMap.get key props).

(** [target[key] = v] where [target] is the plain object at [l]. *)
Definition assign (l : nat) (key : string) (v : value) (h : list object) : list object :=
  match h !! l with
  | Some (Plain props) => <[l := Plain (JsMap.set key v props)]> h
  | _ => h
  end.

(** An element of [this.history]. *)
Record entry : Type := {
  entry_timestamp : Z;
  oldState : value;
  newState : value;
  entry_source : string
}.

(** [changes[key] = { old, new }] *)
Record change : Type := { old : value; new : value }.

(** Calls of the callbacks handed to [subscribe] and [addMiddleware].  They
    are code of the caller: a callback is named by a number and its calls
    are recorded in order. *)
Inductive call : Type :=
| Notified (key : string) (callback : nat) (newValue oldValue : value)
| Middleware (mw : nat) (changes : list (string * change)) (source : string).

(** The calls of subscribers among [l]. *)
Definition notified (l : list call) : list call :=
  List.filter (fun c => match c with Notified _ _ _ _ => true | _ => false end) l.

(** The fields of a [StateService], with the heap its objects live in and
    the calls it has made.  [state] always refers to a plain object. *)
Record StateService : Type := {
  heap : list object;
  state : value;
  subscribers : list (string * list nat);
  middleware : list nat;
  history : list entry;
  maxHistorySize : nat;
  calls : list call
}.

(** [new StateService()] *)
Definition create : StateService :=
  {| heap :=
       [ Array [];                                     (* 0: products *)
         Array [];                                     (* 1: categories *)
         Array [];                                     (* 2: shippingStates *)
         Array [];                                     (* 3: cart *)
         Plain [("category", VStr EmptyString); ("price", VStr EmptyString);
                ("search", VStr EmptyString); ("sort", VStr "newest")];   (* 4: filters *)
         Plain [];                                     (* 5: ui.modals *)
         Array [];                                     (* 6: ui.notifications *)
         Plain [("loading", VBool false); ("modals", VRef 5);
                ("notifications", VRef 6)];            (* 7: ui *)
         Plain [("products", VRef 0); ("categories", VRef 1);
                ("storeSettings", VNull); ("shippingStates", VRef 2);
                ("currentUser", VNull); ("cart", VRef 3);
                ("filters", VRef 4); ("ui", VRef 7)] ];          (* 8: state *)
     state := VRef 8;
     subscribers := [];
     middleware := [];
     history := [];
     maxHistorySize := 50;
     calls := [] |}.

Definition with_heap (s : StateService) (h : list object) : StateService :=
  {| heap := h; state := state s; subscribers := subscribers s;
     middleware := middleware s; history := history s;
     maxHistorySize := maxHistorySize s; calls := calls s |}.

Definition with_calls (s : StateService) (c : list call) : StateService :=
  {| heap := heap s; state := state s; subscribers := subscribers s;
     middleware := middleware s; history := history s;
     maxHistorySize := maxHistorySize s; calls := c |}.

Definition with_history (s : StateService) (hs : list entry) : StateService :=
  {| heap := heap s; state := state s; subscribers := subscribers s;
     middleware := middleware s; history := hs;
     maxHistorySize := maxHistorySize s; calls := calls s |}.

(** [subscribe(key, callback)] *)
Definition subscribe (key : string) (callback : nat) (s : StateService) : StateService :=
  let cbs := default [] (JsMap.get key (subscribers s)) in
  {| heap := heap s; state := state s;
     subscribers := JsMap.set key (cbs ++ [callback]) (subscribers s);
     middleware := middleware s; history := history s;
     maxHistorySize := maxHistorySize s; calls := calls s |}.

(** [addMiddleware(middleware)] *)
Definition addMiddleware (mw : nat) (s : StateService) : StateService :=
  {| heap := heap s; state := state s; subscribers := subscribers s;
     middleware := middleware s ++ [mw]; history := history s;
     maxHistorySize := maxHistorySize s; calls := calls s |}.

(** The calls made by [notify(key, newValue, oldValue)]. *)
Definition notify (subs : list (string * list nat)) (key : string) (newValue oldValue : value)
    : list call :=
  map (fun callback => Notified key callback newValue oldValue)
      (default [] (JsMap.get key subs)).

(** The first [forEach] of [setState], run over [Object.entries(updates)]
    on the properties of [this.state]. *)
Fixpoint apply_updates (updates : list (string * value))
    (props : list (string * value)) (changes : list (string * change))
    : list (string * value) * list (string * change) :=
  match updates with
  | [] => (props, changes)
  | (key, v) :: rest =>
      if strict_neq (prop props key) v
      then apply_updates rest (JsMap.set key v props)
             (JsMap.set key {| old := prop props key; new := v |} changes)
      else apply_updates rest props changes
  end.

Section Depth.
(** The depth of nesting the call stack admits in [deepClone]. *)
Variable depth : nat.

(** [saveToHistory(oldState, newState, source)] at time [now]. *)
Definition saveToHistory (oldS newS : value) (source : string) (now : Z)
    (s : StateService) : option StateService :=
  match deepClone depth oldS (heap s) with
  | Some (o, h1) =>
      match deepClone depth newS h1 with
      | Some (n, h2) =>
          let hs := history s ++
             [{| entry_timestamp := now; oldState := o; newState := n;
                 entry_source := source |}] in
          let hs' := if (maxHistorySize s <? List.length hs)%nat then tl hs else hs in
          Some (with_history (with_heap s h2) hs')
      | None => None
      end
  | None => None
  end.

(** [setState(updates, source = 'unknown')] at time [now]; [updates] is
    given by its entries.  The properties of [this.state] are read when the
    first [forEach] begins and written back when it ends; nothing else is
    assigned to in between.  [None] is an exception leaving the call. *)
Definition setState (updates : list (string * value)) (source : string) (now : Z)
    (s : StateService) : option (value * StateService) :=
  match deepClone depth (state s) (heap s) with
  | Some (oldS, h1) =>
      match state s, props_of h1 (state s) with
      | VRef l, Some props =>
          let (props', changes) := apply_updates updates props [] in
          let h2 := <[l := Plain props']> h1 in
          let ran := map (fun mw => Middleware mw changes source) (middleware s) in
          let told := flat_map (fun kc => notify (subscribers s) (fst kc)
                                            (new (snd kc)) (old (snd kc))) changes in
          let s1 := with_calls (with_heap s h2) (calls s ++ ran ++ told) in
          match saveToHistory oldS (state s) source now s1 with
          | Some s2 => Some (state s2, s2)
          | None => None
          end
      | _, _ => None
      end
  | None => None
  end.

(** [getState(key = null)] *)
Definition getState (key : option string) (s : StateService)
    : option (value * StateService) :=
  match key with
  | Some k =>
      if negb (String.eqb k EmptyString) then
        match props_of (heap s) (state s) with
        | Some props => Some (prop props k, s)
        | None => None
        end
      else
        match deepClone depth (state s) (heap s) with
        | Some (v, h1) => Some (v, with_heap s h1)
        | None => None
        end
  | None =>
      match deepClone depth (state s) (heap s) with
      | Some (v, h1) => Some (v, with_heap s h1)
      | None => None
      end
  end.

(** [undo()] *)
Definition undo (s : StateService) : option (bool * StateService) :=
  if (List.length (history s) <? 2)%nat then Some (false, s)
  else
    match nth_error (history s) (List.length (history s) - 2) with
    | Some previous =>
        match deepClone depth (newState previous) (heap s) with
        | Some (st, h1) =>
            match props_of h1 st, props_of h1 (oldState previous) with
            | Some props, Some oldProps =>
                let told := flat_map (fun kv => notify (subscribers s) (fst kv)
                                                 (snd kv) (prop oldProps (fst kv))) props in
                Some (true,
                      {| heap := h1; state := st; subscribers := subscribers s;
                         middleware := middleware s;
                         history := removelast (history s);
                         maxHistorySize := maxHistorySize s;
                         calls := calls s ++ told |})
            | _, _ => None
            end
        | None => None
        end
    | None => None
    end.
End Depth.

End State.

(** ** js/utils/cache.js: the public interface in use *)
Module CacheUse.
Import Cache.

(** A call of the public interface of the cache manager. *)
Inductive action : Type :=
| DoSet (key : string) (v : value) (useDB : bool) (ttl_arg : option Z)
| DoGet (key : string) (useDB : bool)
| DoCleanup
| DoClear.

(** One call made at time [fst a]. *)
Definition act (c : CacheManager) (a : Z * action) : CacheManager :=
  match snd a with
  | DoSet key v useDB t => snd (Cache.set key v useDB t (fst a) c)
  | DoGet key useDB => snd (Cache.get key useDB (fst a) c)
  | DoCleanup => cleanup (fst a) c
  | DoClear => clear c
  end.

Definition acts (l : list (Z * action)) (c : CacheManager) : CacheManager :=
  fold_left act l c.

(** The fast tier is within its capacity, and each tier binds a key once. *)
Definition well_formed (c : CacheManager) : Prop :=
  (List.length (memoryCache c) <= maxMemorySize c)%nat /\
  List.NoDup (JsMap.keys (memoryCache c)) /\
  match db c with
  | Some d => List.NoDup (JsMap.keys d)
  | None => True
  end.

End CacheUse.

(** ** js/services/supabase-service.js: the queries built on [execute] *)
Module ServiceApi.
Import Errors Service.

(** A property of the [options] argument of a query method: absent,
    present with the value [undefined], or present with a value. *)
Inductive field (A : Type) : Type :=
| Absent
| Undefined
| Given (a : A).
Arguments Absent {A}.
Arguments Undefined {A}.
Arguments Given {A} a.

Record arguments : Type := {
  arg_useCache : field bool;
  arg_cacheTTL : field Z;
  arg_useDB : field bool;
  arg_retries : field nat
}.

(** [getProducts()] and the like, called without [options]. *)
Definition no_arguments : arguments :=
  {| arg_useCache := Absent; arg_cacheTTL := Absent; arg_useDB := Absent;
     arg_retries := Absent |}.

(** A property the literal sets and the spread may override: an absent
    property leaves the literal's value, a present one replaces it, and
    [undefined] then falls back to the default of [execute]. *)
Definition overridden {A : Type} (literal : A) (f : field A) : option A :=
  match f with
  | Absent => Some literal
  | Undefined => None
  | Given a => Some a
  end.

(** A property the literal does not set. *)
Definition passed {A : Type} (f : field A) : option A :=
  match f with
  | Given a => Some a
  | _ => None
  end.

(** [{ useCache: true, cacheTTL: ttl, ...options }] *)
Definition read_options (ttl : Z) (a : arguments) : options :=
  {| opt_useCache := overridden true (arg_useCache a);
     opt_cacheTTL := overridden ttl (arg_cacheTTL a);
     opt_useDB := passed (arg_useDB a);
     opt_retries := passed (arg_retries a) |}.

(** The shape of the eight read methods:
    [this.execute(() => supabase.from(...)..., key, { useCache: true, cacheTTL: ttl, ...options })];
    [remote] is what the query to Supabase does. *)
Definition read (svc : SupabaseService) (remote : query) (key : string) (ttl : Z)
    (a : arguments) (w : world) : world * completion result :=
  execute svc remote (Some key) (read_options ttl a) w.

Definition getProducts svc remote a w := read svc remote "products_all" 600000 a w.

(** [id] is the text the template literal makes of the argument. *)
Definition getProduct svc remote (id : string) a w :=
  read svc remote (String.append "product_" id) 300000 a w.

Definition getCategories svc remote a w := read svc remote "categories_all" 1800000 a w.
Definition getStoreSettings svc remote a w := read svc remote "store_settings" 900000 a w.
Definition getShippingStates svc remote a w := read svc remote "shipping_states" 1800000 a w.
Definition getLandingPage svc remote (id : string) a w :=
  read svc remote (String.append "landing_page_" id) 300000 a w.
Definition getLandingPages svc remote a w := read svc remote "landing_pages_all" 600000 a w.
Definition getPixelData svc remote (pixelId : string) a w :=
  read svc remote (String.append "pixel_" pixelId) 1800000 a w.

(** [createOrder(orderData)] *)
Definition createOrder (svc : SupabaseService) (remote : query) (w : world)
    : world * completion result :=
  execute svc remote None
    {| opt_useCache := Some false; opt_cacheTTL := None; opt_useDB := None;
       opt_retries := Some 5%nat |} w.

(** [updateProduct(id, updates)]: after a result with a truthy [data], the
    two keys are read from the fast tier. *)
Definition updateProduct (svc : SupabaseService) (remote : query) (id : string) (w : world)
    : world * completion result :=
  match execute svc remote None
          {| opt_useCache := Some false; opt_cacheTTL := None; opt_useDB := None;
             opt_retries := None |} w with
  | (w1, Normal res) =>
      if truthy (result_data res) then
        let c1 := snd (Cache.get (String.append "product_" id) false (clock w1) (cache w1)) in
        let c2 := snd (Cache.get "products_all" false (clock w1) c1) in
        (with_cache w1 c2, Normal res)
      else (w1, Normal res)
  | (w1, Throw t) => (w1, Throw t)
  end.

(** The ttl a read method stores a result with: its own, unless the caller's
    [options] have a [cacheTTL] property; if that is [undefined], the
    default of [execute]. *)
Definition effective_ttl (ttl : Z) (a : arguments) : Z :=
  match arg_cacheTTL a with
  | Absent => ttl
  | Undefined => 300000
  | Given t => t
  end.

(** The events [execute] adds to the trace of [w]. *)
Definition added (w w' : world) : list event := skipn (List.length (trace w)) (trace w').

End ServiceApi.

(** ** The state service: unsubscribing, the helpers, and runs of calls *)
Module StateUse.
Import State.

(** [arr.indexOf(x)] and, when the index is not [-1], [arr.splice(index, 1)]. *)
Fixpoint remove_first (x : nat) (l : list nat) : list nat :=
  match l with
  | [] => []
  | y :: l' => if Nat.eqb y x then l' else y :: remove_first x l'
  end.

(** The function [subscribe(key, callback)] returned, called on [s].
    [None] is the TypeError of [this.subscribers[key]] being [undefined]. *)
Definition unsubscribe (key : string) (callback : nat) (s : StateService)
    : option StateService :=
  match JsMap.get key (subscribers s) with
  | Some cbs =>
      Some {| heap := heap s; state := state s;
              subscribers := JsMap.set key (remove_first callback cbs) (subscribers s);
              middleware := middleware s; history := history s;
              maxHistorySize := maxHistorySize s; calls := calls s |}
  | None => None
  end.

(** The function [addMiddleware(middleware)] returned, called on [s]. *)
Definition removeMiddleware (mw : nat) (s : StateService) : StateService :=
  {| heap := heap s; state := state s; subscribers := subscribers s;
     middleware := remove_first mw (middleware s); history := history s;
     maxHistorySize := maxHistorySize s; calls := calls s |}.

(** [cleanup()] *)
Definition cleanup (s : StateService) : StateService :=
  {| heap := heap s; state := state s; subscribers := [];
     middleware := []; history := [];
     maxHistorySize := maxHistorySize s; calls := calls s |}.

(** The key of the element at index [i]. *)
Definition index_key (i : nat) : string := NilEmpty.string_of_uint (Nat.to_uint i).

Definition indexed (items : list value) : list (string * value) :=
  combine (map index_key (seq 0 (List.length items))) items.

Definition characters (s : string) : list value :=
  map (fun c => VStr (String c EmptyString)) (list_ascii_of_string s).

(** What [{ ...v }] copies: the own enumerable properties of [v]. *)
Definition own_enumerable (h : list object) (v : value) : list (string * value) :=
  match v with
  | VRef l =>
      match h !! l with
      | Some (Plain props) => props
      | Some (Array items) => indexed items
      | _ => []
      end
  | VStr s => indexed (characters s)
  | _ => []
  end.

(** What [[...v]] iterates over; [None] is the TypeError of a value that is
    not iterable. *)
Definition iterate (h : list object) (v : value) : option (list value) :=
  match v with
  | VRef l =>
      match h !! l with
      | Some (Array items) => Some items
      | _ => None
      end
  | VStr s => Some (characters s)
  | _ => None
  end.

(** [item.id]; [None] is the TypeError of reading it from [null] or
    [undefined]. *)
Definition id_of (h : list object) (item : value) : option value :=
  match item with
  | VUndefined | VNull => None
  | VRef l =>
      match h !! l with
      | Some (Plain props) => Some (prop props "id")
      | _ => Some VUndefined
      end
  | _ => Some VUndefined
  end.

(** [items.filter(item => item.id !== id)] *)
Fixpoint without_id (h : list object) (id : value) (items : list value)
    : option (list value) :=
  match items with
  | [] => Some []
  | item :: rest =>
      match id_of h item with
      | Some i =>
          match without_id h id rest with
          | Some kept => Some (if strict_neq i id then item :: kept else kept)
          | None => None
          end
      | None => None
      end
  end.

(** [v.filter(...)] is there for arrays only. *)
Definition filter_out (h : list object) (v : value) (id : value) : option (list value) :=
  match v with
  | VRef l =>
      match h !! l with
      | Some (Array items) => without_id h id items
      | _ => None
      end
  | _ => None
  end.



(** The history after [saveToHistory] pushed [e]. *)
Definition pushed (maxH : nat) (hs : list entry) (e : entry) : list entry :=
  if (maxH <? List.length (hs ++ [e]))%nat then tl (hs ++ [e]) else hs ++ [e].

Section Depth.
Variable depth : nat.

(** [this.setState({ key: <a new object> }, source)], the value discarded. *)
Definition set_fresh (key : string) (o : object) (source : string) (now : Z)
    (s : StateService) : option StateService :=
  let (r, h1) := alloc o (heap s) in
  option_map snd (setState depth [(key, r)] source now (with_heap s h1)).

(** [addProduct(product)] *)
Definition addProduct (product : value) (now : Z) (s : StateService)
    : option StateService :=
  match props_of (heap s) (state s) with
  | Some props =>
      match iterate (heap s) (prop props "products") with
      | Some items => set_fresh "products" (Array (items ++ [product])) "add-product" now s
      | None => None
      end
  | None => None
  end.

(** [removeProduct(id)] *)
Definition removeProduct (id : value) (now : Z) (s : StateService)
    : option StateService :=
  match props_of (heap s) (state s) with
  | Some props =>
      match filter_out (heap s) (prop props "products") id with
      | Some items => set_fresh "products" (Array items) "remove-product" now s
      | None => None
      end
  | None => None
  end.

(** [setFilter(key, value)] *)
Definition setFilter (key : string) (v : value) (now : Z) (s : StateService)
    : option StateService :=
  match props_of (heap s) (state s) with
  | Some props =>
      set_fresh "filters"
        (Plain (JsMap.set key v (own_enumerable (heap s) (prop props "filters"))))
        "set-filter" now s
  | None => None
  end.

(** [clearFilters()] *)
Definition clearFilters (now : Z) (s : StateService) : option StateService :=
  set_fresh "filters"
    (Plain [("category", VStr EmptyString); ("price", VStr EmptyString);
            ("search", VStr EmptyString); ("sort", VStr "newest")])
    "clear-filters" now s.

(** [removeFromCart(id)] *)
Definition removeFromCart (id : value) (now : Z) (s : StateService)
    : option StateService :=
  match props_of (heap s) (state s) with
  | Some props =>
      match filter_out (heap s) (prop props "cart") id with
      | Some items => set_fresh "cart" (Array items) "remove-from-cart" now s
      | None => None
      end
  | None => None
  end.

(** [clearCart()] *)
Definition clearCart (now : Z) (s : StateService) : option StateService :=
  set_fresh "cart" (Array []) "clear-cart" now s.

(** What the page does with the service, one call after the other.  The
    page also makes objects of its own and assigns to objects it holds. *)
Inductive action : Type :=
| SetState (updates : list (string * value)) (source : string) (now : Z)
| GetState (key : option string)
| Undo
| Subscribe (key : string) (callback : nat)
| Unsubscribe (key : string) (callback : nat)
| AddMiddleware (mw : nat)
| RemoveMiddleware (mw : nat)
| Cleanup
| AddProduct (product : value) (now : Z)
| RemoveProduct (id : value) (now : Z)
| SetFilter (key : string) (v : value) (now : Z)
| ClearFilters (now : Z)
| RemoveFromCart (id : value) (now : Z)
| ClearCart (now : Z)
| Allocate (o : object)
| Assign (l : nat) (key : string) (v : value).

(** One call; [None] when it throws. *)
Definition act (s : StateService) (a : action) : option StateService :=
  match a with
  | SetState updates source now => option_map snd (setState depth updates source now s)
  | GetState key => option_map snd (getState depth key s)
  | Undo => option_map snd (undo depth s)
  | Subscribe key callback => Some (subscribe key callback s)
  | Unsubscribe key callback => unsubscribe key callback s
  | AddMiddleware mw => Some (addMiddleware mw s)
  | RemoveMiddleware mw => Some (removeMiddleware mw s)
  | Cleanup => Some (cleanup s)
  | AddProduct product now => addProduct product now s
  | RemoveProduct id now => removeProduct id now s
  | SetFilter key v now => setFilter key v now s
  | ClearFilters now => clearFilters now s
  | RemoveFromCart id now => removeFromCart id now s
  | ClearCart now => clearCart now s
  | Allocate o => Some (with_heap s (snd (alloc o (heap s))))
  | Assign l key v => Some (with_heap s (assign l key v (heap s)))
  end.

(** The calls of [l] in order, as long as none throws. *)
Fixpoint acts (l : list action) (s : StateService) : option StateService :=
  match l with
  | [] => Some s
  | a :: l' =>
      match act s a with
      | Some s1 => acts l' s1
      | None => None
      end
  end.
End Depth.

End StateUse.

(** ** The products manager: pagination

    [filteredProducts] is what the search, category, price and sort steps of
    [applyFilters] leave; the pagination fields hold integers. *)
Module Products.

Record pagination : Type := {
  currentPage : Z;
  itemsPerPage : Z;
  totalItems : Z;
  totalPages : Z
}.

(** [this.pagination] as the constructor sets it. *)
Definition initial : pagination :=
  {| currentPage := 1; itemsPerPage := 12; totalItems := 0; totalPages := 0 |}.

(** [Math.ceil(a / b)] on integers, for a positive [b]. *)
Definition ceil_div (a b : Z) : Z := - ((- a) / b).

(** [arr.slice(start, end)] *)
Definition slice {A : Type} (start stop : Z) (l : list A) : list A :=
  let len := Z.of_nat (List.length l) in
  let k := if start <? 0 then Z.max (len + start) 0 else Z.min start len in
  let final := if stop <? 0 then Z.max (len + stop) 0 else Z.min stop len in
  firstn (Z.to_nat (final - k)) (skipn (Z.to_nat k) l).

(** The pagination update of [applyFilters], with [n] products left. *)
Definition paginate (n : nat) (p : pagination) : pagination :=
  let total := ceil_div (Z.of_nat n) (itemsPerPage p) in
  {| currentPage := if total <? currentPage p then Z.max 1 total else currentPage p;
     itemsPerPage := itemsPerPage p;
     totalItems := Z.of_nat n;
     totalPages := total |}.

(** [pageProducts] in [renderProducts(products)]. *)
Definition pageProducts {A : Type} (p : pagination) (products : list A) : list A :=
  let startIndex := (currentPage p - 1) * itemsPerPage p in
  let endIndex := startIndex + itemsPerPage p in
  slice startIndex endIndex products.

(** What [goToPage(pageNumber)] does to the pagination. *)
Definition goToPage (pageNumber : Z) (p : pagination) : pagination :=
  if (pageNumber <? 1) || (totalPages p <? pageNumber) then p
  else {| currentPage := pageNumber; itemsPerPage := itemsPerPage p;
          totalItems := totalItems p; totalPages := totalPages p |}.

(** What [handleProductsChange(products)] does to the pagination before it
    calls [applyFilters]. *)
Definition handleProductsChange (n : nat) (p : pagination) : pagination :=
  {| currentPage := 1; itemsPerPage := itemsPerPage p;
     totalItems := Z.of_nat n;
     totalPages := ceil_div (Z.of_nat n) (itemsPerPage p) |}.

(** [for (let i = a; i <= b; i++)] *)
Definition range (a b : Z) : list Z :=
  map (fun k => a + Z.of_nat k) (seq 0 (Z.to_nat (b - a + 1))).

(** A link written by [renderPagination], with the page its [onclick]
    passes to [goToPage]. *)
Inductive link : Type :=
| Previous (target : Z)
| Page (target : Z) (active : bool)
| Next (target : Z).

Definition target_of (k : link) : Z :=
  match k with
  | Previous t | Page t _ | Next t => t
  end.

(** The links [renderPagination()] writes into the container. *)
Definition renderPagination (p : pagination) : list link :=
  if totalPages p <=? 1 then []
  else
    let startPage := Z.max 1 (currentPage p - 2) in
    let endPage := Z.min (totalPages p) (currentPage p + 2) in
    (if 1 <? currentPage p then [Previous (currentPage p - 1)] else [])
    ++ map (fun i => Page i (i =? currentPage p)) (range startPage endPage)
    ++ (if currentPage p <? totalPages p then [Next (currentPage p + 1)] else []).

(** What happens to the pagination between two renderings. *)
Inductive event : Type :=
| ProductsChanged (n : nat)   (* the subscriber of [products] ran, with [n] products *)
| FiltersApplied (n : nat)    (* [applyFilters] got as far as the pagination, with [n] left *)
| WentTo (pageNumber : Z).    (* [goToPage(pageNumber)] *)

Definition on (p : pagination) (e : event) : pagination :=
  match e with
  | ProductsChanged n => handleProductsChange n p
  | FiltersApplied n => paginate n p
  | WentTo pageNumber => goToPage pageNumber p
  end.

Definition after (l : list event) : pagination := fold_left on l initial.

End Products.

(** ** The UI service: the stack of open modals

    Of the document, the embedding keeps what these methods read and write:
    which elements exist, which are displayed, the [modal-open] class of the
    body, the [keydown] listeners on the document, and the [keyHandler]
    data attribute. *)
Module UI.

Record UIService : Type := {
  elements : list string;      (* ids for which [getElementById] finds an element *)
  modalStack : list string;    (* the [id] of each entry, first pushed first *)
  displayed : list string;     (* elements with [display: flex] and class [show] *)
  modal_open : bool;           (* class [modal-open] on the body *)
  listeners : list string;     (* the Escape handlers registered, by the modal they close *)
  flagged : list string        (* elements with [data-key-handler] *)
}.

Definition mem (id : string) (l : list string) : bool := existsb (String.eqb id) l.

Definition add (id : string) (l : list string) : list string :=
  if mem id l then l else l ++ [id].

Definition drop (id : string) (l : list string) : list string :=
  List.filter (fun x => negb (String.eqb id x)) l.

(** [arr.findIndex(m => m.id === id)] and [arr.splice(index, 1)]. *)
Fixpoint remove_first (id : string) (l : list string) : list string :=
  match l with
  | [] => []
  | x :: l' => if String.eqb x id then l' else x :: remove_first id l'
  end.

(** [showModal(modalId, options)]; [keyboard] is the option, [true] when
    absent.  The backdrop handler is a property of the element and is not
    kept. *)
Definition showModal (modalId : string) (keyboard : bool) (s : UIService) : UIService :=
  if negb (mem modalId (elements s)) then s
  else
    {| elements := elements s;
       modalStack := modalStack s ++ [modalId];
       displayed := add modalId (displayed s);
       modal_open := true;
       listeners := if keyboard then listeners s ++ [modalId] else listeners s;
       flagged := if keyboard then add modalId (flagged s) else flagged s |}.

(** [hideModal(modalId)].  [this.keyHandler] is never assigned, so
    [removeEventListener('keydown', undefined)] removes nothing. *)
Definition hideModal (modalId : string) (s : UIService) : UIService :=
  if negb (mem modalId (modalStack s)) then s
  else
    let stack := remove_first modalId (modalStack s) in
    {| elements := elements s;
       modalStack := stack;
       displayed := drop modalId (displayed s);
       modal_open := match stack with [] => false | _ => modal_open s end;
       listeners := listeners s;
       flagged := drop modalId (flagged s) |}.

(** [this.modalStack.forEach(modal => this.hideModal(modal.id))] from index
    [k] on, for [count] more indexes: [forEach] goes through the indexes the
    array had when it started, and reads the array as it is at each one. *)
Fixpoint hide_each (count k : nat) (s : UIService) : UIService :=
  match count with
  | O => s
  | S count' =>
      hide_each count' (S k)
        match nth_error (modalStack s) k with
        | Some id => hideModal id s
        | None => s
        end
  end.

(** The last step of [cleanup()]. *)
Definition cleanup (s : UIService) : UIService :=
  hide_each (List.length (modalStack s)) 0 s.

(** A call made on the service. *)
Inductive call : Type :=
| Show (modalId : string) (keyboard : bool)
| Hide (modalId : string)
| Cleanup.

Definition perform (s : UIService) (c : call) : UIService :=
  match c with
  | Show modalId keyboard => showModal modalId keyboard s
  | Hide modalId => hideModal modalId s
  | Cleanup => cleanup s
  end.

(** The modals for which the calls [l] register an Escape handler, given
    the elements of the document. *)
Definition registered (els : list string) (l : list call) : list string :=
  flat_map (fun c => match c with
                     | Show modalId true => if mem modalId els then [modalId] else []
                     | _ => []
                     end) l.

(** Every second element, from the second on. *)
Fixpoint every_other (l : list string) : list string :=
  match l with
  | _ :: y :: l' => y :: every_other l'
  | _ => []
  end.

End UI.

(** * Properties *)

(** ** Insertion-ordered maps *)
Section JsMapFacts.
Context {V : Type}.
Implicit Types (m : list (string * V)) (k : string) (v : V).

Lemma jsmap_get_set_eq m k v : JsMap.get k (JsMap.set k v m) = Some v.
Proof.
  induction m as [|[k' v'] m IH]; simpl.
  - now rewrite String.eqb_refl.
  - destruct (String.eqb k' k) eqn:E; simpl.
    + now rewrite String.eqb_refl.
    + now rewrite E.
Qed.

Lemma jsmap_get_set_ne m k k' v :
  k <> k' -> JsMap.get k' (JsMap.set k v m) = JsMap.get k' m.
Proof.
  intros Hne. induction m as [|[k0 v0] m IH]; simpl.
  - destruct (String.eqb_spec k k'); [contradiction | reflexivity].
  - destruct (String.eqb_spec k0 k) as [->|Hk0]; simpl.
    + destruct (String.eqb_spec k k'); [contradiction | reflexivity].
    + destruct (String.eqb_spec k0 k'); [reflexivity | apply IH].
Qed.

Lemma jsmap_get_delete_eq m k : JsMap.get k (JsMap.delete k m) = None.
Proof.
  induction m as [|[k' v'] m IH]; simpl; [reflexivity|].
  destruct (String.eqb k' k) eqn:E; simpl; [exact IH | now rewrite E].
Qed.

Lemma jsmap_get_delete_ne m k k' :
  k <> k' -> JsMap.get k' (JsMap.delete k m) = JsMap.get k' m.
Proof.
  intros Hne. induction m as [|[k0 v0] m IH]; simpl; [reflexivity|].
  destruct (String.eqb_spec k0 k) as [->|Hk0]; simpl.
  - destruct (String.eqb_spec k k'); [contradiction | exact IH].
  - destruct (String.eqb_spec k0 k'); [reflexivity | exact IH].
Qed.

Lemma jsmap_get_None_keys m k : JsMap.get k m = None <-> ~ In k (JsMap.keys m).
Proof.
  induction m as [|[k' v'] m IH]; simpl; [tauto|].
  destruct (String.eqb_spec k' k) as [->|Hne].
  - split; [discriminate | tauto].
  - rewrite IH. tauto.
Qed.

Lemma jsmap_delete_absent m k : ~ In k (JsMap.keys m) -> JsMap.delete k m = m.
Proof.
  induction m as [|[k' v'] m IH]; simpl; [reflexivity|].
  intros Hn. destruct (String.eqb_spec k' k) as [->|Hne]; [tauto|].
  f_equal. apply IH. tauto.
Qed.

Lemma jsmap_set_absent m k v : ~ In k (JsMap.keys m) -> JsMap.set k v m = m ++ [(k, v)].
Proof.
  induction m as [|[k' v'] m IH]; simpl; [reflexivity|].
  intros Hn. destruct (String.eqb_spec k' k) as [->|Hne]; [tauto|].
  f_equal. apply IH. tauto.
Qed.
End JsMapFacts.

(** ** The fast tier: expiry *)
Section CacheExpiry.
Import Cache.

Lemma setMemory_binds key v t now c :
  JsMap.get key (memoryCache (setMemory key v t now c))
  = Some {| item_value := v; timestamp := now; ttl := default 300000 t |}.
Proof. unfold setMemory, with_memory; simpl. apply jsmap_get_set_eq. Qed.

Lemma getMemory_fresh key now c it :
  JsMap.get key (memoryCache c) = Some it ->
  now - timestamp it <= ttl it ->
  getMemory key now c = (item_value it, c).
Proof.
  intros Hget Hle. unfold getMemory, expired. rewrite Hget.
  destruct (Z.ltb_spec (ttl it) (now - timestamp it)); [lia | reflexivity].
Qed.

Lemma getMemory_stale key now c it :
  JsMap.get key (memoryCache c) = Some it ->
  now - timestamp it > ttl it ->
  getMemory key now c = (VNull, with_memory c (JsMap.delete key (memoryCache c))).
Proof.
  intros Hget Hgt. unfold getMemory, expired. rewrite Hget.
  destruct (Z.ltb_spec (ttl it) (now - timestamp it)); [reflexivity | lia].
Qed.

(** A read that returns a value other than [null] changes nothing, the
    order of the tier included. *)
Lemma getMemory_hit_unchanged key now c v :
  getMemory key now c = (v, snd (getMemory key now c)) ->
  v <> VNull -> snd (getMemory key now c) = c.
Proof.
  unfold getMemory. destruct (JsMap.get key (memoryCache c)) as [it|]; [|reflexivity].
  destruct (expired now it); simpl; [|reflexivity].
  intros H Hv. inversion H. congruence.
Qed.

(** C2, as the code has it: an entry written with ttl [T] at time [t0] is
    returned by every read at a time [now] with [now - t0 <= T], the tier
    being left as it is; a read with [now - t0 > T] returns [null] and
    leaves the tier without the entry.  The test is made by each read. *)
Theorem C2_ttl_expiry (c : CacheManager) (k : string) (v : value) (T t0 now : Z) :
  let c1 := snd (Cache.set k v false (Some T) t0 c) in
  (now - t0 <= T -> Cache.get k false now c1 = (v, c1)) /\
  (now - t0 > T ->
     fst (Cache.get k false now c1) = VNull /\
     JsMap.get k (memoryCache (snd (Cache.get k false now c1))) = None).
Proof.
  unfold Cache.set, Cache.get; cbn [snd].
  pose proof (setMemory_binds k v (Some T) t0 c) as Hb.
  split; intros Hnow.
  - rewrite (getMemory_fresh _ _ _ _ Hb); cbn; [reflexivity | lia].
  - rewrite (getMemory_stale _ _ _ _ Hb); cbn; [|lia].
    split; [reflexivity | apply jsmap_get_delete_eq].
Qed.

(** The amended C2 at [T = 10], read at the boundary and one past it. *)
Lemma C2_ttl_expiry_witness :
  let c1 := snd (Cache.set "k" (VNum 7) false (Some 10) 0 (Cache.create false)) in
  Cache.get "k" false 10 c1 = (VNum 7, c1) /\
  fst (Cache.get "k" false 11 c1) = VNull /\
  JsMap.get "k" (memoryCache (snd (Cache.get "k" false 11 c1))) = None.
Proof.
  pose proof (C2_ttl_expiry (Cache.create false) "k" (VNum 7) 10 0 10) as [H10 _].
  pose proof (C2_ttl_expiry (Cache.create false) "k" (VNum 7) 10 0 11) as [_ H11].
  split; [apply H10; lia | apply H11; lia].
Defined.

(** C2 as stated fails at [now - createdAt = T]: the entry is still
    returned and stays in the tier. *)
Lemma C2_counterexample :
  ~ (forall (c : CacheManager) (k : string) (v : value) (T t0 now : Z),
       let c1 := snd (Cache.set k v false (Some T) t0 c) in
       (now - t0 < T -> fst (Cache.get k false now c1) = v) /\
       (now - t0 >= T ->
          fst (Cache.get k false now c1) = VNull /\
          JsMap.get k (memoryCache (snd (Cache.get k false now c1))) = None)).
Proof.
  intros H.
  destruct (H (Cache.create false) "k" (VNum 7) 10 0 10) as [_ Hge].
  destruct Hge as [Hnull _]; [lia | vm_compute in Hnull; discriminate].
Qed.
End CacheExpiry.

(** ** The fast tier: eviction *)
Section CacheEviction.
Import Cache.

Lemma jsmap_get_Some_In {V} (m : list (string * V)) k v :
  JsMap.get k m = Some v -> In (k, v) m.
Proof.
  induction m as [|[k' v'] m IH]; simpl; [discriminate|].
  destruct (String.eqb_spec k' k) as [->|Hne].
  - intros [= ->]. now left.
  - intros H. right. now apply IH.
Qed.

Lemma run_snoc l a c : run (l ++ [a]) c = access_step (run l c) a.
Proof. unfold run. now rewrite fold_left_app. Qed.

Lemma puts_snoc l a : puts (l ++ [a]) = puts l ++ puts [a].
Proof. unfold puts. now rewrite flat_map_app. Qed.

Lemma run_maxMemorySize l c : maxMemorySize (run l c) = maxMemorySize c.
Proof.
  revert c. induction l as [|[now a] l IH]; intros c; [reflexivity|].
  unfold run in *; simpl. rewrite IH. unfold access_step; simpl.
  destruct a as [k v t|k]; [reflexivity|].
  unfold getMemory. destruct (JsMap.get k (memoryCache c)) as [it|]; [|reflexivity].
  now destruct (expired now it).
Qed.

(** Starting from an empty tier, writes under distinct keys and reads in
    between leave the last [maxMemorySize] written bindings, in the order
    written, as long as nothing expires. *)
Lemma run_keeps_last l c :
  memoryCache c = [] -> (1 <= maxMemorySize c)%nat ->
  List.NoDup (JsMap.keys (puts l)) -> reads_find_valid l ->
  memoryCache (run l c) = lastn (maxMemorySize c) (puts l).
Proof.
  intros Hempty Hcap. induction l as [|[now a] l IH] using rev_ind; intros Hnd Hin.
  - exact Hempty.
  - rewrite puts_snoc in Hnd. unfold JsMap.keys in Hnd. rewrite map_app in Hnd.
    assert (Hndl : List.NoDup (JsMap.keys (puts l))) by (eapply List.NoDup_app_remove_r; exact Hnd).
    assert (Hinl : reads_find_valid l).
    { intros now' key' Hr. specialize (Hin now' key' (in_or_app _ _ _ (or_introl Hr))).
      rewrite puts_snoc in Hin. now apply Forall_app in Hin as [Hin _]. }
    specialize (IH Hndl Hinl).
    rewrite run_snoc, puts_snoc. unfold access_step; simpl fst; simpl snd.
    destruct a as [k v t|k].
    + (* a write *)
      simpl in Hnd.
      change (puts [(now, Put k v t)])
        with [(k, {| item_value := v; timestamp := now; ttl := default 300000 t |})].
      assert (Hk : ~ In k (JsMap.keys (puts l))).
      { apply List.NoDup_remove_2 in Hnd. now rewrite app_nil_r in Hnd. }
      unfold setMemory, with_memory; simpl. rewrite run_maxMemorySize, IH.
      set (C := maxMemorySize c) in *. set (P := puts l) in *.
      unfold JsMap.size, lastn. rewrite length_skipn, length_app; simpl.
      destruct (Nat.leb_spec C (List.length P - (List.length P - C))) as [Hfull|Hroom].
      * assert (HCP : (C <= List.length P)%nat) by lia.
        replace (List.length P + 1 - C)%nat with (S (List.length P - C)) by lia.
        rewrite skipn_app.
        replace (S (List.length P - C) - List.length P)%nat with 0%nat by lia.
        rewrite skipn_O.
        destruct (skipn (List.length P - C) P) as [|[k0 it0] m'] eqn:Hskip.
        { apply (f_equal (@List.length _)) in Hskip. rewrite length_skipn in Hskip.
          simpl in Hskip. lia. }
        assert (Hsk : skipn (S (List.length P - C)) P = m').
        { change (S (List.length P - C)) with (1 + (List.length P - C))%nat.
          rewrite <- skipn_skipn, Hskip. reflexivity. }
        rewrite Hsk. cbn [JsMap.first_key JsMap.delete]. rewrite String.eqb_refl.
        assert (Hndm : List.NoDup (JsMap.keys ((k0, it0) :: m'))).
        { rewrite <- Hskip. unfold JsMap.keys in Hndl |- *. rewrite <- skipn_map.
          rewrite <- (firstn_skipn (List.length P - C) (map fst P)) in Hndl.
          eapply List.NoDup_app_remove_l; exact Hndl. }
        simpl in Hndm. apply List.NoDup_cons_iff in Hndm as [Hk0 _].
        rewrite jsmap_delete_absent by exact Hk0.
        apply jsmap_set_absent. intros Hin'. apply Hk.
        unfold JsMap.keys in *. rewrite <- (firstn_skipn (S (List.length P - C)) P).
        rewrite map_app, in_app_iff. right. now rewrite Hsk.
      * assert (HCP : (List.length P < C)%nat) by lia.
        replace (List.length P - C)%nat with 0%nat by lia.
        replace (List.length P + 1 - C)%nat with 0%nat by lia. simpl skipn.
        now apply jsmap_set_absent.
    + (* a read *)
      change (puts [(now, Read k)]) with (@nil (string * item)). rewrite app_nil_r.
      unfold getMemory. destruct (JsMap.get k (memoryCache (run l c))) as [it|] eqn:Hget;
        [|exact IH].
      assert (Hfresh : expired now it = false).
      { apply jsmap_get_Some_In in Hget. rewrite IH in Hget. unfold lastn in Hget.
        assert (Hmem : In (k, it) (puts l)).
        { rewrite <- (firstn_skipn (List.length (puts l) - maxMemorySize c) (puts l)).
          apply in_or_app. now right. }
        assert (Hread : In (now, Read k) (l ++ [(now, Read k)]))
          by (apply in_or_app; right; now left).
        specialize (Hin now k Hread).
        rewrite puts_snoc in Hin. apply Forall_app in Hin as [Hall _].
        rewrite List.Forall_forall in Hall. specialize (Hall _ Hmem). simpl in Hall.
        unfold expired. apply Z.ltb_ge. exact Hall. }
      rewrite Hfresh. exact IH.
Qed.

Lemma jsmap_In_get {V} (m : list (string * V)) k v :
  List.NoDup (JsMap.keys m) -> In (k, v) m -> JsMap.get k m = Some v.
Proof.
  induction m as [|[k' v'] m IH]; simpl; [tauto|].
  intros Hnd [Heq|Hin].
  - inversion Heq; subst. now rewrite String.eqb_refl.
  - apply List.NoDup_cons_iff in Hnd as [Hk' Hnd].
    destruct (String.eqb_spec k' k) as [->|Hne]; [|now apply IH].
    exfalso. apply Hk'. unfold JsMap.keys. now apply (in_map fst _ (k, v)).
Qed.

(** C6: [maxMemorySize + 1] writes under distinct keys into the empty fast
    tier, with any reads in between, leave exactly the bindings written
    after the first, in the order and with the values written: the first
    one written is the one evicted, whatever was read since.  (A read that
    finds an expired entry deletes it; such reads are left out.) *)
Theorem C6_fifo_eviction (l : list (Z * access)) (c : CacheManager)
    (first : string * item) (rest : list (string * item)) :
  memoryCache c = [] -> (1 <= maxMemorySize c)%nat ->
  List.NoDup (JsMap.keys (puts l)) -> reads_find_valid l ->
  puts l = first :: rest -> List.length rest = maxMemorySize c ->
  memoryCache (run l c) = rest /\
  JsMap.get (fst first) (memoryCache (run l c)) = None /\
  (forall k it, In (k, it) rest -> JsMap.get k (memoryCache (run l c)) = Some it).
Proof.
  intros Hempty Hcap Hnd Hin Hputs Hlen.
  assert (Hrun : memoryCache (run l c) = rest).
  { rewrite (run_keeps_last l c Hempty Hcap Hnd Hin). unfold lastn.
    rewrite Hputs; simpl List.length. rewrite Hlen.
    replace (S (maxMemorySize c) - maxMemorySize c)%nat with 1%nat by lia.
    reflexivity. }
  rewrite Hrun, Hputs in *. simpl in Hnd. apply List.NoDup_cons_iff in Hnd as [Hfirst Hnd].
  split; [reflexivity|]. split.
  - now apply jsmap_get_None_keys.
  - intros k it Hkin. now apply jsmap_In_get.
Qed.

(** Capacity 2: [a], [b] and [c] are written and [a] is read before [c] is
    written; [a] is evicted all the same. *)
Lemma C6_fifo_eviction_witness :
  let c := {| memoryCache := []; maxMemorySize := 2; db := None |} in
  let l := [(0, Put "a" (VNum 1) None); (1, Put "b" (VNum 2) None);
            (2, Read "a"); (3, Put "c" (VNum 3) None)] in
  memoryCache (run l c)
    = [("b", {| item_value := VNum 2; timestamp := 1; ttl := 300000 |});
       ("c", {| item_value := VNum 3; timestamp := 3; ttl := 300000 |})] /\
  JsMap.get "a" (memoryCache (run l c)) = None.
Proof.
  intros c l.
  destruct (C6_fifo_eviction l c
              ("a", {| item_value := VNum 1; timestamp := 0; ttl := 300000 |})
              [("b", {| item_value := VNum 2; timestamp := 1; ttl := 300000 |});
               ("c", {| item_value := VNum 3; timestamp := 3; ttl := 300000 |})])
    as (Hrest & Hfirst & _).
  - reflexivity.
  - simpl; lia.
  - simpl. repeat (constructor; [simpl; intuition discriminate|]). constructor.
  - intros now key [H|[H|[H|[H|[]]]]]; inversion H; subst.
    repeat (constructor; [unfold valid; simpl; lia|]). constructor.
  - reflexivity.
  - reflexivity.
  - split; [exact Hrest | exact Hfirst].
Defined.
End CacheEviction.

(** ** [invalidateCache] *)
Section Invalidate.
Import Cache Service.

Lemma fold_delete_get {V} (ks : list string) (m : list (string * V)) (k : string) :
  JsMap.get k (fold_left (fun m key => JsMap.delete key m) ks m)
  = if existsb (String.eqb k) ks then None else JsMap.get k m.
Proof.
  revert m. induction ks as [|k0 ks IH]; intros m; simpl; [reflexivity|].
  rewrite IH. destruct (String.eqb_spec k k0) as [->|Hne]; simpl.
  - destruct (existsb (String.eqb k0) ks); [reflexivity | apply jsmap_get_delete_eq].
  - destruct (existsb (String.eqb k) ks); [reflexivity|].
    apply jsmap_get_delete_ne. congruence.
Qed.

Lemma invalidate_products_unfold (now : Z) (c : CacheManager) :
  invalidateCache "products" now c
  = with_memory (snd (Cache.get "products_all" false now c))
      (fold_left (fun m key => JsMap.delete key m)
         (List.filter (String.prefix "product_")
            (JsMap.keys (memoryCache (snd (Cache.get "products_all" false now c)))))
         (memoryCache (snd (Cache.get "products_all" false now c)))).
Proof. reflexivity. Qed.

(** The part of [invalidateCache('products')] that deletes: no key that
    starts with [product_] is bound afterwards. *)
Lemma invalidate_products_family (now : Z) (c : CacheManager) (k : string) :
  String.prefix "product_" k = true ->
  JsMap.get k (memoryCache (invalidateCache "products" now c)) = None.
Proof.
  intros Hpre. rewrite invalidate_products_unfold.
  generalize (snd (Cache.get "products_all" false now c)). intros c1.
  unfold with_memory; cbn [memoryCache]. rewrite fold_delete_get.
  destruct (existsb (String.eqb k)
              (List.filter (String.prefix "product_") (JsMap.keys (memoryCache c1))))
    eqn:Hex; [reflexivity|].
  apply jsmap_get_None_keys. intros Hin.
  assert (Ht : existsb (String.eqb k)
                 (List.filter (String.prefix "product_") (JsMap.keys (memoryCache c1))) = true).
  { apply existsb_exists. exists k. split; [|apply String.eqb_refl].
    apply filter_In. split; assumption. }
  congruence.
Qed.

(** C3, where the code departs from it: for each recognized pattern the
    exact key of the family is read, not deleted, so an entry under it that
    has not expired is still bound after [invalidateCache], and a later read
    finds it. *)
Theorem C3_invalidate_keeps_exact_key (pattern key : string) (now : Z) (c : CacheManager)
    (it : item) :
  In (pattern, key) [("products", "products_all"); ("categories", "categories_all");
                     ("settings", "store_settings")] ->
  JsMap.get key (memoryCache c) = Some it ->
  now - timestamp it <= ttl it ->
  JsMap.get key (memoryCache (invalidateCache pattern now c)) = Some it.
Proof.
  intros Hin Hget Hfresh.
  assert (Hread : snd (Cache.get key false now c) = c).
  { unfold Cache.get. now rewrite (getMemory_fresh _ _ _ _ Hget Hfresh). }
  simpl in Hin. destruct Hin as [H|[H|[H|[]]]]; inversion H; subst; clear H.
  - rewrite invalidate_products_unfold, Hread.
    unfold with_memory; cbn [memoryCache]. rewrite fold_delete_get.
    destruct (existsb (String.eqb "products_all")
                (List.filter (String.prefix "product_") (JsMap.keys (memoryCache c))))
      eqn:Hex; [|exact Hget].
    apply existsb_exists in Hex as (k & Hk & Heq).
    apply String.eqb_eq in Heq; subst k. apply filter_In in Hk as [_ Hpre].
    vm_compute in Hpre. discriminate.
  - change (invalidateCache "categories" now c)
      with (snd (Cache.get "categories_all" false now c)).
    now rewrite Hread.
  - change (invalidateCache "settings" now c)
      with (snd (Cache.get "store_settings" false now c)).
    now rewrite Hread.
Qed.

(** With [products_all], [categories_all], [store_settings] and [product_7]
    cached at time 0, each call of [invalidateCache] at time 1 leaves the
    exact key of its family cached, and a read at time 2 returns the cached
    value; only [product_7] is deleted. *)
Lemma C3_invalidate_keeps_exact_key_witness :
  let c0 := setMemory "product_7" (VStr "p7") (Some 300000) 0
              (setMemory "store_settings" (VStr "s") (Some 900000) 0
                 (setMemory "categories_all" (VStr "cs") (Some 1800000) 0
                    (setMemory "products_all" (VStr "ps") (Some 600000) 0
                       (Cache.create false)))) in
  JsMap.get "products_all" (memoryCache (invalidateCache "products" 1 c0))
    = Some {| item_value := VStr "ps"; timestamp := 0; ttl := 600000 |} /\
  JsMap.get "categories_all" (memoryCache (invalidateCache "categories" 1 c0))
    = Some {| item_value := VStr "cs"; timestamp := 0; ttl := 1800000 |} /\
  JsMap.get "store_settings" (memoryCache (invalidateCache "settings" 1 c0))
    = Some {| item_value := VStr "s"; timestamp := 0; ttl := 900000 |} /\
  fst (Cache.get "products_all" false 2 (invalidateCache "products" 1 c0)) = VStr "ps" /\
  fst (Cache.get "product_7" false 2 (invalidateCache "products" 1 c0)) = VNull.
Proof.
  intros c0.
  split; [|split; [|split; [|split]]].
  - apply C3_invalidate_keeps_exact_key; [simpl; tauto | reflexivity | simpl; lia].
  - apply C3_invalidate_keeps_exact_key; [simpl; tauto | reflexivity | simpl; lia].
  - apply C3_invalidate_keeps_exact_key; [simpl; tauto | reflexivity | simpl; lia].
  - vm_compute. reflexivity.
  - vm_compute. reflexivity.
Defined.
End Invalidate.

(** ** [execute]: the retry loop *)
Section RetryLoop.
Import Errors Service.

Variable svc : SupabaseService.
Variable queryFn : query.
Variable key : option string.
Variable useDB : bool.
Variable cacheTTL : Z.
Variable retries : nat.

Lemma try_body_failure o w e :
  failure o = Some e -> try_body o key useDB cacheTTL w = (w, Throw e).
Proof.
  destruct o as [r| |e']; simpl; try (intros [= <-]; reflexivity).
  destruct (error r); simpl; [intros [= <-]; reflexivity | discriminate].
Qed.

Lemma try_body_success r w :
  error r = None ->
  exists w', try_body (Resolves r) key useDB cacheTTL w = (w', Normal r) /\
             trace w' = trace w /\ clock w' = clock w /\ cache w' = stored key useDB cacheTTL r w.
Proof.
  intros Herr. unfold try_body, stored. rewrite Herr.
  destruct key as [k|]; [destruct (truthy (data r))|]; eexists; repeat split.
Qed.

Lemma message_of_readable e : readable e -> exists v, message_of e = Normal v.
Proof. destruct e; simpl; intros H; try (eexists; reflexivity). now elim H. Qed.

(** One failed attempt: the loop goes on with the next attempt, after a
    delay of [retryDelay * attempt] unless it was the last one. *)
Lemma retry_loop_step remaining attempt lastError w e :
  failure (ends (queryFn attempt)) = Some e -> readable e ->
  exists w1,
    retry_loop svc queryFn key useDB cacheTTL retries (S remaining) attempt lastError w
    = retry_loop svc queryFn key useDB cacheTTL retries remaining (S attempt) e w1 /\
    trace w1 = trace w ++ failed_attempts svc retries attempt 1 /\
    cache w1 = cache w.
Proof.
  intros Hfail Hread. cbn [retry_loop].
  rewrite (try_body_failure _ _ _ Hfail).
  destruct (message_of_readable e Hread) as [v ->].
  eexists. split; [reflexivity|].
  unfold failed_attempts; simpl. rewrite app_nil_r.
  destruct (attempt <? retries)%nat; simpl; [rewrite <- app_assoc|]; split; reflexivity.
Qed.

Lemma failed_attempts_S attempt n :
  failed_attempts svc retries attempt (S n)
  = failed_attempts svc retries attempt 1 ++ failed_attempts svc retries (S attempt) n.
Proof. unfold failed_attempts. simpl. now rewrite app_nil_r. Qed.

(** [j] failed attempts, then a successful one. *)
Lemma retry_loop_succeeds (j : nat) (r : response) :
  forall (attempt remaining : nat) (lastError : thrown) (w : world),
    (forall i : nat, (attempt <= i < attempt + j)%nat ->
               exists e, failure (ends (queryFn i)) = Some e /\ readable e) ->
    ends (queryFn (attempt + j)%nat) = Resolves r -> error r = None ->
    (j < remaining)%nat ->
    exists w',
      retry_loop svc queryFn key useDB cacheTTL retries remaining attempt lastError w
      = (w', Normal (Returned r)) /\
      trace w' = trace w ++ failed_attempts svc retries attempt j ++ [Called (attempt + j)] /\
      cache w' = stored key useDB cacheTTL r (with_cache w' (cache w)).
Proof.
  induction j as [|j IH]; intros attempt remaining lastError w Hfail Hok Herr Hrem.
  - destruct remaining as [|remaining]; [lia|]. cbn [retry_loop].
    rewrite Nat.add_0_r in Hok. rewrite Hok.
    destruct (try_body_success r (elapse (took (queryFn attempt)) (emit (Called attempt) w)) Herr)
      as (w' & -> & Htr & Hclk & Hcache).
    exists w'. split; [reflexivity|]. split.
    + rewrite Htr. simpl. now rewrite Nat.add_0_r.
    + rewrite Hcache. unfold stored. simpl. now rewrite Hclk.
  - destruct remaining as [|remaining]; [lia|].
    destruct (Hfail attempt ltac:(lia)) as (e & He & Hread).
    destruct (retry_loop_step remaining attempt lastError w e He Hread)
      as (w1 & -> & Htr1 & Hc1).
    destruct (IH (S attempt) remaining e w1) as (w' & Hloop & Htr & Hcache).
    + intros i Hi. apply Hfail. lia.
    + now rewrite Nat.add_succ_comm.
    + exact Herr.
    + lia.
    + exists w'. split; [exact Hloop|]. split; [|now rewrite Hcache, Hc1].
      rewrite Htr, Htr1, (failed_attempts_S attempt j), Nat.add_succ_comm, <- !app_assoc.
      reflexivity.
Qed.

(** Every remaining attempt fails. *)
Lemma retry_loop_exhausts :
  forall (remaining attempt : nat) (lastError : thrown) (w : world),
    (forall i : nat, (attempt <= i < attempt + remaining)%nat ->
               exists e, failure (ends (queryFn i)) = Some e /\ readable e) ->
    exists w' e,
      retry_loop svc queryFn key useDB cacheTTL retries remaining attempt lastError w
      = (w', Normal (Exhausted e)) /\
      trace w' = trace w ++ failed_attempts svc retries attempt remaining /\
      cache w' = cache w /\
      (remaining = 0%nat -> e = lastError) /\
      ((0 < remaining)%nat ->
       failure (ends (queryFn (attempt + remaining - 1)%nat)) = Some e).
Proof.
  induction remaining as [|remaining IH]; intros attempt lastError w Hfail.
  - exists w, lastError. simpl. rewrite app_nil_r. repeat split. lia.
  - destruct (Hfail attempt ltac:(lia)) as (e & He & Hread).
    destruct (retry_loop_step remaining attempt lastError w e He Hread)
      as (w1 & -> & Htr1 & Hc1).
    destruct (IH (S attempt) e w1) as (w' & e' & Hloop & Htr & Hcache & Hzero & Hlast).
    { intros i Hi. apply Hfail. lia. }
    exists w', e'. split; [exact Hloop|]. split; [|split; [congruence|split; [lia|]]].
    + rewrite Htr, Htr1, (failed_attempts_S attempt remaining), <- app_assoc. reflexivity.
    + intros _. destruct remaining as [|remaining'].
      * rewrite (Hzero eq_refl). replace (attempt + 1 - 1)%nat with attempt by lia. exact He.
      * replace (attempt + S (S remaining') - 1)%nat
          with (S attempt + S remaining' - 1)%nat by lia.
        apply Hlast. lia.
Qed.

(** The delays of failed attempts that are all followed by another one are
    [retryDelay * attempt], one per attempt. *)
Lemma delays_failed_attempts attempt n :
  (attempt + n <= retries)%nat ->
  delays (failed_attempts svc retries attempt n)
  = map (fun i => retryDelay svc * Z.of_nat i) (seq attempt n).
Proof.
  revert attempt. induction n as [|n IH]; intros attempt Hle; [reflexivity|].
  rewrite failed_attempts_S. unfold delays in *. rewrite flat_map_app, IH by lia.
  unfold failed_attempts. simpl.
  destruct (Nat.ltb_spec attempt retries); [reflexivity | lia].
Qed.

Lemma attempts_failed_attempts attempt n :
  attempts (failed_attempts svc retries attempt n) = seq attempt n.
Proof.
  revert attempt. induction n as [|n IH]; intros attempt; [reflexivity|].
  rewrite failed_attempts_S. unfold attempts in *. rewrite flat_map_app, IH.
  unfold failed_attempts. simpl. now destruct (attempt <? retries)%nat.
Qed.

(** The last failed attempt is not followed by a delay. *)
Lemma delays_failed_attempts_all attempt n :
  (attempt + n = S retries)%nat ->
  delays (failed_attempts svc retries attempt n)
  = map (fun i => retryDelay svc * Z.of_nat i) (seq attempt (n - 1)).
Proof.
  revert attempt. induction n as [|n IH]; intros attempt Hle; [reflexivity|].
  rewrite failed_attempts_S. unfold delays in *. rewrite flat_map_app.
  destruct n as [|n].
  - unfold failed_attempts. simpl.
    destruct (Nat.ltb_spec attempt retries); [lia | reflexivity].
  - rewrite IH by lia. unfold failed_attempts. simpl.
    destruct (Nat.ltb_spec attempt retries); [|lia].
    simpl. now rewrite Nat.sub_0_r.
Qed.
End RetryLoop.

(** ** [execute] *)
Section Execute.
Import Errors Service.

Lemma get_valid key useDB now c it :
  Cache.held key useDB c = Some it -> Cache.valid now it ->
  Cache.get key useDB now c = (Cache.item_value it, c).
Proof.
  unfold Cache.held, Cache.valid, Cache.get. intros Hheld Hvalid. destruct useDB.
  - unfold Cache.getDB. destruct (Cache.db c) as [d|]; [|discriminate]. rewrite Hheld.
    unfold Cache.expired.
    destruct (Z.ltb_spec (Cache.ttl it) (now - Cache.timestamp it)); [lia | reflexivity].
  - now apply getMemory_fresh.
Qed.

Lemma with_cache_id w : with_cache w (cache w) = w.
Proof. now destruct w. Qed.

Lemma cache_enabled_Some useCache k :
  useCache = true -> k <> EmptyString -> cache_enabled useCache (Some k) = Some k.
Proof.
  intros -> Hk. unfold cache_enabled. simpl.
  destruct (String.eqb_spec k EmptyString); [contradiction | reflexivity].
Qed.

(** A truthy value read from the cache is returned at once; the world is
    left as the read left it, so the query is not called. *)
Lemma execute_hit svc queryFn k o w v c1 :
  cache_enabled (default true (opt_useCache o)) (Some k) = Some k ->
  Cache.get k (default false (opt_useDB o)) (clock w) (cache w) = (v, c1) ->
  truthy v = true ->
  execute svc queryFn (Some k) o w = (with_cache w c1, Normal (FromCache v)).
Proof.
  intros Hkey Hget Htruthy. unfold execute. rewrite Hkey, Hget, Htruthy. reflexivity.
Qed.

(** A falsy value read from the cache lets [execute] go on to the loop. *)
Lemma execute_miss svc queryFn k o w v c1 :
  cache_enabled (default true (opt_useCache o)) (Some k) = Some k ->
  Cache.get k (default false (opt_useDB o)) (clock w) (cache w) = (v, c1) ->
  truthy v = false ->
  execute svc queryFn (Some k) o w =
  match retry_loop svc queryFn (Some k) (default false (opt_useDB o))
          (default 300000 (opt_cacheTTL o))
          (default (retryAttempts svc) (opt_retries o))
          (default (retryAttempts svc) (opt_retries o)) 1 Nullish (with_cache w c1) with
  | (w1, Throw t) => (w1, Throw t)
  | (w1, Normal (Returned r)) => (w1, Normal (Fetched r))
  | (w1, Normal (Exhausted lastError)) =>
      match handleError lastError "supabase" with
      | Throw t => (emit (Reported lastError) w1, Throw t)
      | Normal info => (emit (Reported lastError) w1, Normal (Failed lastError info))
      end
  end.
Proof.
  intros Hkey Hget Hfalsy. unfold execute. rewrite Hkey, Hget, Hfalsy. reflexivity.
Qed.

(** Without a usable cache key, [execute] is the loop. *)
Lemma execute_uncached svc queryFn cacheKey o w :
  cache_enabled (default true (opt_useCache o)) cacheKey = None ->
  execute svc queryFn cacheKey o w =
  match retry_loop svc queryFn None (default false (opt_useDB o))
          (default 300000 (opt_cacheTTL o))
          (default (retryAttempts svc) (opt_retries o))
          (default (retryAttempts svc) (opt_retries o)) 1 Nullish w with
  | (w1, Throw t) => (w1, Throw t)
  | (w1, Normal (Returned r)) => (w1, Normal (Fetched r))
  | (w1, Normal (Exhausted lastError)) =>
      match handleError lastError "supabase" with
      | Throw t => (emit (Reported lastError) w1, Throw t)
      | Normal info => (emit (Reported lastError) w1, Normal (Failed lastError info))
      end
  end.
Proof. intros Hkey. unfold execute. rewrite Hkey. reflexivity. Qed.

(** Retry with linear backoff, for writes and for reads that bypass the
    cache: after [k - 1] failed attempts and a successful [k]-th one,
    [execute] returns the object the query resolved to, having called the
    query [k] times and waited [retryDelay * 1, ..., retryDelay * (k - 1)]. *)
Lemma execute_retry_success svc queryFn cacheKey o w (k : nat) (r : response) :
  cache_enabled (default true (opt_useCache o)) cacheKey = None ->
  (1 <= k <= default (retryAttempts svc) (opt_retries o))%nat ->
  (forall i : nat, (1 <= i < k)%nat ->
      exists e, failure (ends (queryFn i)) = Some e /\ readable e) ->
  ends (queryFn k) = Resolves r -> error r = None ->
  exists w',
    execute svc queryFn cacheKey o w = (w', Normal (Fetched r)) /\
    attempts (skipn (List.length (trace w)) (trace w')) = seq 1 k /\
    delays (skipn (List.length (trace w)) (trace w'))
      = map (fun i => retryDelay svc * Z.of_nat i) (seq 1 (k - 1)) /\
    cache w' = cache w.
Proof.
  intros Hkey Hk Hfail Hok Herr. rewrite (execute_uncached _ _ _ _ _ Hkey).
  set (retries := default (retryAttempts svc) (opt_retries o)) in *.
  destruct (retry_loop_succeeds svc queryFn None (default false (opt_useDB o))
              (default 300000 (opt_cacheTTL o)) retries (k - 1) r 1 retries Nullish w)
    as (w' & -> & Htr & Hcache).
  - intros i Hi. apply Hfail. lia.
  - now replace (1 + (k - 1))%nat with k by lia.
  - exact Herr.
  - lia.
  - exists w'. split; [reflexivity|].
    rewrite Htr, skipn_app, Nat.sub_diag, skipn_all, app_nil_l, skipn_O.
    replace (1 + (k - 1))%nat with k by lia.
    unfold attempts, delays. rewrite !flat_map_app. simpl. rewrite app_nil_r.
    fold (delays (failed_attempts svc retries 1 (k - 1))).
    rewrite delays_failed_attempts by lia.
    fold (attempts (failed_attempts svc retries 1 (k - 1))).
    rewrite attempts_failed_attempts.
    split; [|split; [reflexivity | exact Hcache]].
    transitivity (seq 1 (S (k - 1))); [|f_equal; lia].
    rewrite seq_S. do 2 f_equal. lia.
Qed.

(** When every attempt fails and [handleError] takes the last error,
    [execute] returns [{ data: null, error, errorInfo }] after [retries]
    calls and the delays [retryDelay * 1, ..., retryDelay * (retries - 1)]. *)
Lemma execute_retry_exhausted svc queryFn cacheKey o w :
  let retries := default (retryAttempts svc) (opt_retries o) in
  cache_enabled (default true (opt_useCache o)) cacheKey = None ->
  (1 <= retries)%nat ->
  (forall i : nat, (1 <= i < 1 + retries)%nat ->
      exists e, failure (ends (queryFn i)) = Some e /\ readable e) ->
  (forall e, failure (ends (queryFn retries)) = Some e ->
      exists critical, isCriticalError e = Normal critical) ->
  exists w' e info,
    execute svc queryFn cacheKey o w = (w', Normal (Failed e info)) /\
    result_data (Failed e info) = VNull /\
    failure (ends (queryFn retries)) = Some e /\
    attempts (skipn (List.length (trace w)) (trace w')) = seq 1 retries /\
    delays (skipn (List.length (trace w)) (trace w'))
      = map (fun i => retryDelay svc * Z.of_nat i) (seq 1 (retries - 1)) /\
    cache w' = cache w.
Proof.
  intros retries Hkey Hretries Hfail Hreport. rewrite (execute_uncached _ _ _ _ _ Hkey).
  fold retries.
  destruct (retry_loop_exhausts svc queryFn None (default false (opt_useDB o))
              (default 300000 (opt_cacheTTL o)) retries retries 1 Nullish w Hfail)
    as (w' & e & -> & Htr & Hcache & _ & Hlast).
  specialize (Hlast Hretries). replace (1 + retries - 1)%nat with retries in Hlast by lia.
  destruct (Hreport e Hlast) as [critical Hcrit].
  unfold handleError. rewrite Hcrit.
  eexists _, e, _. split; [reflexivity|]. split; [reflexivity|]. split; [exact Hlast|].
  simpl trace. rewrite Htr, <- app_assoc, skipn_app, Nat.sub_diag, skipn_all, app_nil_l, skipn_O.
  unfold attempts, delays. rewrite !flat_map_app. simpl. rewrite !app_nil_r.
  fold (attempts (failed_attempts svc retries 1 retries)).
  fold (delays (failed_attempts svc retries 1 retries)).
  rewrite attempts_failed_attempts, delays_failed_attempts_all by lia.
  repeat split. exact Hcache.
Qed.

(** C4, where the code departs from it: when every attempt fails with an
    error whose message is empty ([new Error()], or a result whose [error]
    has no message), [execute] makes its [retries] calls and its
    [retries - 1] delays of [retryDelay * attempt], and then throws: the
    TypeError of [isCriticalError], called by [handleError] outside any
    [try], leaves [execute]. *)
Theorem C4_execute_raises svc (queryFn : query) (cacheKey : option string) (o : options)
    (w : world) :
  let retries := default (retryAttempts svc) (opt_retries o) in
  cache_enabled (default true (opt_useCache o)) cacheKey = None ->
  (1 <= retries)%nat ->
  (forall i : nat, (1 <= i < 1 + retries)%nat ->
      failure (ends (queryFn i)) = Some (Err EmptyString)) ->
  exists w',
    execute svc queryFn cacheKey o w
      = (w', Throw (Err "(intermediate value).toLowerCase is not a function")) /\
    attempts (skipn (List.length (trace w)) (trace w')) = seq 1 retries /\
    delays (skipn (List.length (trace w)) (trace w'))
      = map (fun i => retryDelay svc * Z.of_nat i) (seq 1 (retries - 1)).
Proof.
  intros retries Hkey Hretries Hfail. rewrite (execute_uncached _ _ _ _ _ Hkey).
  fold retries.
  destruct (retry_loop_exhausts svc queryFn None (default false (opt_useDB o))
              (default 300000 (opt_cacheTTL o)) retries retries 1 Nullish w)
    as (w' & e & -> & Htr & _ & _ & Hlast).
  { intros i Hi. exists (Err EmptyString). split; [now apply Hfail | discriminate]. }
  specialize (Hlast Hretries). replace (1 + retries - 1)%nat with retries in Hlast by lia.
  rewrite (Hfail retries) in Hlast by lia. injection Hlast as <-.
  eexists. split; [reflexivity|].
  simpl trace. rewrite Htr, <- app_assoc, skipn_app, Nat.sub_diag, skipn_all, app_nil_l, skipn_O.
  unfold attempts, delays. rewrite !flat_map_app. simpl. rewrite !app_nil_r.
  fold (attempts (failed_attempts svc retries 1 retries)).
  fold (delays (failed_attempts svc retries 1 retries)).
  rewrite attempts_failed_attempts, delays_failed_attempts_all by lia.
  split; reflexivity.
Qed.

(** A write whose query rejects with [new Error()] each time, under the
    default three attempts; and one whose query rejects with [undefined],
    where the [catch] block itself throws at the first attempt. *)
Lemma C4_execute_raises_witness :
  let w0 := {| cache := Cache.create false; clock := 0; trace := [] |} in
  let writes := {| opt_useCache := Some false; opt_cacheTTL := None;
                   opt_useDB := None; opt_retries := None |} in
  let bare := fun _ : nat => {| took := 20; ends := Rejects (Err EmptyString) |} in
  let nothing := fun _ : nat => {| took := 20; ends := Rejects Nullish |} in
  (exists w',
      execute create bare None writes w0
        = (w', Throw (Err "(intermediate value).toLowerCase is not a function")) /\
      attempts (trace w') = [1%nat; 2%nat; 3%nat] /\
      delays (trace w') = [1000; 2000]) /\
  execute create nothing None writes w0
    = ({| cache := Cache.create false; clock := 20; trace := [Called 1] |},
       Throw (Err "Cannot read properties of null (reading 'message')")).
Proof.
  intros w0 writes bare nothing. split.
  - destruct (C4_execute_raises create bare None writes w0) as (w' & Hexec & Hcalls & Hdelays).
    + reflexivity.
    + simpl; lia.
    + intros i _. reflexivity.
    + exists w'. split; [exact Hexec|]. split; [exact Hcalls | exact Hdelays].
  - vm_compute. reflexivity.
Defined.
End Execute.

(** ** [execute]: what reaches the cache *)
Section ExecuteCache.
Import Errors Service.

Lemma try_body_frame o key useDB cacheTTL w :
  trace (fst (try_body o key useDB cacheTTL w)) = trace w /\
  clock (fst (try_body o key useDB cacheTTL w)) = clock w /\
  (forall e, snd (try_body o key useDB cacheTTL w) = Throw e ->
             cache (fst (try_body o key useDB cacheTTL w)) = cache w) /\
  (forall r, snd (try_body o key useDB cacheTTL w) = Normal r ->
             cache (fst (try_body o key useDB cacheTTL w)) = stored key useDB cacheTTL r w).
Proof.
  unfold try_body, stored.
  destruct o as [r| |e]; simpl; try (repeat split; congruence).
  destruct (error r); simpl; [repeat split; congruence|].
  destruct key as [k|]; [destruct (truthy (data r)) eqn:Ht|]; simpl;
    repeat split; try congruence; intros r' [= <-]; try rewrite Ht; reflexivity.
Qed.

(** The loop only adds to the trace, and begins with a call of the query
    when there is an attempt to make. *)
Lemma retry_loop_trace svc queryFn key useDB cacheTTL retries :
  forall (remaining attempt : nat) (lastError : thrown) (w : world),
    exists rest,
      trace (fst (retry_loop svc queryFn key useDB cacheTTL retries remaining attempt
                    lastError w))
      = trace w ++ rest /\
      ((1 <= remaining)%nat -> exists rest', rest = Called attempt :: rest').
Proof.
  induction remaining as [|remaining IH]; intros attempt lastError w.
  - exists []. simpl. rewrite app_nil_r. split; [reflexivity | lia].
  - cbn [retry_loop].
    set (w1 := elapse (took (queryFn attempt)) (emit (Called attempt) w)).
    destruct (try_body_frame (ends (queryFn attempt)) key useDB cacheTTL w1)
      as (Htr & _ & _ & _).
    destruct (try_body (ends (queryFn attempt)) key useDB cacheTTL w1) as [w2 [r|e]];
      simpl in Htr.
    + exists [Called attempt]. simpl. rewrite Htr. split; [reflexivity | eauto].
    + destruct (message_of e) as [v|t].
      * set (w3 := if (attempt <? retries)%nat then _ else w2).
        destruct (IH (S attempt) e w3) as (rest & -> & _).
        assert (Hw3 : exists mid, trace w3 = (trace w ++ [Called attempt]) ++ mid).
        { subst w3. destruct (attempt <? retries)%nat; simpl; rewrite Htr; eauto.
          exists []. now rewrite app_nil_r. }
        destruct Hw3 as [mid ->]. exists (Called attempt :: mid ++ rest).
        rewrite <- !app_assoc. split; [reflexivity | eauto].
      * exists [Called attempt]. simpl. rewrite Htr. split; [reflexivity | eauto].
Qed.

(** The loop writes to the cache only on the attempt from which it
    returns, and then what [stored] says. *)
Lemma retry_loop_cache svc queryFn key useDB cacheTTL retries :
  forall (remaining attempt : nat) (lastError : thrown) (w w' : world) res,
    retry_loop svc queryFn key useDB cacheTTL retries remaining attempt lastError w
    = (w', res) ->
    match res with
    | Normal (Returned r) => cache w' = stored key useDB cacheTTL r (with_cache w' (cache w))
    | _ => cache w' = cache w
    end.
Proof.
  induction remaining as [|remaining IH]; intros attempt lastError w w' res.
  - simpl. intros [= <- <-]. reflexivity.
  - cbn [retry_loop].
    set (w1 := elapse (took (queryFn attempt)) (emit (Called attempt) w)).
    destruct (try_body_frame (ends (queryFn attempt)) key useDB cacheTTL w1)
      as (_ & Hclk & Hthrow & Hnormal).
    destruct (try_body (ends (queryFn attempt)) key useDB cacheTTL w1) as [w2 [r|e]];
      simpl in Hclk, Hthrow, Hnormal.
    + intros [= <- <-]. rewrite (Hnormal r eq_refl). unfold stored. simpl.
      now rewrite Hclk.
    + specialize (Hthrow e eq_refl). destruct (message_of e) as [v|t].
      * intros Hloop. apply IH in Hloop.
        assert (Hc : cache (if (attempt <? retries)%nat
                            then delay (retryDelay svc * Z.of_nat attempt) w2 else w2)
                     = cache w).
        { destruct (attempt <? retries)%nat; simpl; exact Hthrow. }
        rewrite Hc in Hloop. exact Hloop.
      * intros [= <- <-]. exact Hthrow.
Qed.

(** C5, as the code has it.  With the cache in use and a non-empty key:
    (1) when the selected tier holds a valid entry whose value is truthy,
    [execute] returns [{ data: cached, error: null, fromCache: true }] and
    leaves the world as it is, so the query is not called;
    (2) on a miss in the fast tier, a query that fails [j < retries] times
    and then resolves to an object [r] with a truthy [data] makes [execute]
    return [r] itself (its [fromCache] is whatever [r] has, [undefined] if
    nothing) after [j + 1] calls, the value is in the cache, and any
    [execute] with that key within [cacheTTL] returns it from the cache
    without calling its query. *)
Theorem C5_read_through svc (queryFn : query) (k : string) (o : options) (w : world) :
  let useDB := default false (opt_useDB o) in
  let cacheTTL := default 300000 (opt_cacheTTL o) in
  let retries := default (retryAttempts svc) (opt_retries o) in
  cache_enabled (default true (opt_useCache o)) (Some k) = Some k ->
  (forall it,
      Cache.held k useDB (cache w) = Some it -> Cache.valid (clock w) it ->
      truthy (Cache.item_value it) = true ->
      execute svc queryFn (Some k) o w = (w, Normal (FromCache (Cache.item_value it))) /\
      result_fromCache (FromCache (Cache.item_value it)) = VBool true) /\
  (forall (j : nat) (r : response),
      useDB = false ->
      truthy (fst (Cache.get k false (clock w) (cache w))) = false ->
      (j < retries)%nat ->
      (forall i : nat, (1 <= i < 1 + j)%nat ->
          exists e, failure (ends (queryFn i)) = Some e /\ readable e) ->
      ends (queryFn (1 + j)%nat) = Resolves r -> error r = None ->
      truthy (data r) = true ->
      exists w1,
        execute svc queryFn (Some k) o w = (w1, Normal (Fetched r)) /\
        result_fromCache (Fetched r) = default VUndefined (JsMap.get "fromCache" (rest r)) /\
        attempts (skipn (List.length (trace w)) (trace w1)) = seq 1 (1 + j) /\
        Cache.held k false (cache w1)
          = Some {| Cache.item_value := data r; Cache.timestamp := clock w1;
                    Cache.ttl := cacheTTL |} /\
        forall (queryFn' : query) (d : Z),
          0 <= d <= cacheTTL ->
          execute svc queryFn' (Some k) o (elapse d w1)
          = (elapse d w1, Normal (FromCache (data r)))).
Proof.
  intros useDB cacheTTL retries Hkey. split.
  - intros it Hheld Hvalid Htruthy. split; [|reflexivity].
    rewrite (execute_hit svc queryFn k o w _ _ Hkey (get_valid _ _ _ _ _ Hheld Hvalid) Htruthy).
    now rewrite with_cache_id.
  - intros j r HuseDB Hmiss Hj Hfail Hok Herr Htruthy.
    destruct (Cache.get k false (clock w) (cache w)) as [v c1] eqn:Hget. simpl in Hmiss.
    assert (Hget' : Cache.get k (default false (opt_useDB o)) (clock w) (cache w) = (v, c1))
      by (fold useDB; now rewrite HuseDB).
    rewrite (execute_miss svc queryFn k o w v c1 Hkey Hget' Hmiss).
    fold useDB cacheTTL retries. rewrite HuseDB.
    destruct (retry_loop_succeeds svc queryFn (Some k) false cacheTTL retries j r
                1 retries Nullish (with_cache w c1) Hfail Hok Herr Hj)
      as (w1 & -> & Htr & Hcache).
    unfold stored in Hcache. rewrite Htruthy in Hcache. simpl in Hcache, Htr.
    assert (Hheld : Cache.held k false (cache w1)
                    = Some {| Cache.item_value := data r; Cache.timestamp := clock w1;
                              Cache.ttl := cacheTTL |}).
    { rewrite Hcache. unfold Cache.held. apply setMemory_binds. }
    exists w1. split; [reflexivity|]. split; [reflexivity|]. split; [|split; [exact Hheld|]].
    + rewrite Htr, skipn_app, Nat.sub_diag, skipn_all, app_nil_l, skipn_O.
      unfold attempts. rewrite flat_map_app.
      fold (attempts (failed_attempts svc retries 1 j)).
      rewrite attempts_failed_attempts. simpl flat_map.
      change (1 + j)%nat with (S j). rewrite seq_S. reflexivity.
    + intros queryFn' d Hd.
      assert (Hvalid : Cache.valid (clock (elapse d w1))
                         {| Cache.item_value := data r; Cache.timestamp := clock w1;
                            Cache.ttl := cacheTTL |}).
      { unfold Cache.valid. simpl. lia. }
      assert (Hhit : Cache.get k (default false (opt_useDB o)) (clock (elapse d w1))
                       (cache (elapse d w1)) = (data r, cache (elapse d w1))).
      { fold useDB. rewrite HuseDB. exact (get_valid _ _ _ _ _ Hheld Hvalid). }
      rewrite (execute_hit svc queryFn' k o (elapse d w1) _ _ Hkey Hhit Htruthy).
      now rewrite with_cache_id.
Qed.


(** The amended C5 on the scenario of the specification: the query throws
    twice and then resolves to [{ data: 42 }], under [retries: 3]. *)
Lemma C5_read_through_witness :
  let w0 := {| cache := Cache.create false; clock := 0; trace := [] |} in
  let o := {| opt_useCache := None; opt_cacheTTL := None; opt_useDB := None;
              opt_retries := Some 3%nat |} in
  let r := {| data := VNum 42; error := None; rest := [] |} in
  let fetchFn := fun i : nat =>
    {| took := 20;
       ends := if (i <? 3)%nat then Rejects (Err "Failed to fetch") else Resolves r |} in
  let never := fun _ : nat => {| took := 0; ends := Rejects (Err "not called") |} in
  exists w1,
    execute create fetchFn (Some "k") o w0 = (w1, Normal (Fetched r)) /\
    result_fromCache (Fetched r) = VUndefined /\
    attempts (trace w1) = [1%nat; 2%nat; 3%nat] /\
    execute create never (Some "k") o (elapse 1000 w1)
    = (elapse 1000 w1, Normal (FromCache (VNum 42))) /\
    execute create never (Some "k") o w1 = (w1, Normal (FromCache (VNum 42))).
Proof.
  intros w0 o r fetchFn never.
  destruct (C5_read_through create fetchFn "k" o w0 eq_refl) as [_ Hmiss].
  destruct (Hmiss 2%nat r) as (w1 & Hexec & Hfrom & Hcalls & Hheld & Hagain).
  - reflexivity.
  - reflexivity.
  - simpl; lia.
  - intros i Hi. exists (Err "Failed to fetch").
    assert (Hi' : i = 1%nat \/ i = 2%nat) by lia.
    destruct Hi' as [-> | ->]; (split; [reflexivity | discriminate]).
  - reflexivity.
  - reflexivity.
  - reflexivity.
  - exists w1. split; [exact Hexec|]. split; [exact Hfrom|]. split; [exact Hcalls|].
    split; [apply Hagain; simpl; lia|].
    destruct (C5_read_through create never "k" o w1 eq_refl) as [Hhit _].
    apply (Hhit _ Hheld); [unfold Cache.valid; simpl; lia | reflexivity].
Defined.

(** C5 as stated fails.  A valid entry that holds [0], and a valid entry
    under the empty key, do not stop [execute] from calling the query.  In
    the scenario the result is the object the query resolved to, whose
    [fromCache] is [undefined], not [false]; and once [cacheTTL] has passed,
    a later [execute] with the same key calls its query again. *)
Lemma C5_counterexample :
  let zero := {| Cache.item_value := VNum 0; Cache.timestamp := 0; Cache.ttl := 300000 |} in
  let w := {| cache := Cache.setMemory EmptyString (VNum 42) None 0
                         (Cache.setMemory "k" (VNum 0) None 0 (Cache.create false));
              clock := 1; trace := [] |} in
  let q := fun _ : nat =>
    {| took := 20; ends := Resolves {| data := VNum 7; error := None; rest := [] |} |} in
  let w0 := {| cache := Cache.create false; clock := 0; trace := [] |} in
  let o := {| opt_useCache := Some true; opt_cacheTTL := None; opt_useDB := None;
              opt_retries := Some 3%nat |} in
  let fetchFn := fun i : nat =>
    {| took := 20;
       ends := if (i <? 3)%nat then Rejects (Err "Failed to fetch")
               else Resolves {| data := VNum 42; error := None; rest := [] |} |} in
  let w1 := fst (execute create fetchFn (Some "k") o w0) in
  (Cache.held "k" false (cache w) = Some zero /\ Cache.valid (clock w) zero /\
   attempts (trace (fst (execute create q (Some "k") o w))) = [1%nat] /\
   snd (execute create q (Some "k") o w)
     = Normal (Fetched {| data := VNum 7; error := None; rest := [] |})) /\
  (fst (Cache.get EmptyString false (clock w) (cache w)) = VNum 42 /\
   attempts (trace (fst (execute create q (Some EmptyString) o w))) = [1%nat]) /\
  (forall res, snd (execute create fetchFn (Some "k") o w0) = Normal res ->
               result_data res = VNum 42 /\ result_fromCache res <> VBool false) /\
  snd (execute create q (Some "k") o (elapse 300001 w1))
    = Normal (Fetched {| data := VNum 7; error := None; rest := [] |}).
Proof.
  split; [|split; [|split]].
  - split; [reflexivity|]. split; [unfold Cache.valid; simpl; lia|].
    split; vm_compute; reflexivity.
  - split; vm_compute; reflexivity.
  - intros res Hres. vm_compute in Hres. injection Hres as <-.
    split; [reflexivity | discriminate].
  - vm_compute. reflexivity.
Qed.

End ExecuteCache.

(** ** The request queue *)
Section QueueOrder.
Import Queue.

Lemma drained_snoc l e :
  drained (l ++ [e]) = drained l ++ match e with Submitted _ => [] | _ => [e] end.
Proof. unfold drained. rewrite List.filter_app. now destruct e. Qed.

Lemma submitted_snoc l e :
  submitted (l ++ [e]) = submitted l ++ match e with Submitted id => [id] | _ => [] end.
Proof. unfold submitted. rewrite flat_map_app. simpl. now rewrite app_nil_r. Qed.

Lemma cycles_snoc done id ok :
  cycles (done ++ [(id, ok)]) = cycles done ++ [Started id; Settled id ok; Waited 100].
Proof. unfold cycles. rewrite flat_map_app. reflexivity. Qed.

Lemma invariant_init : invariant init.
Proof. exists [], [], []. simpl. repeat split; reflexivity. Qed.

Local Ltac close_invariant :=
  repeat split; try assumption; try reflexivity; try discriminate;
  try (match goal with H : current _ _ _ |- _ => simpl in H; apply H end); eauto.

Lemma invariant_step s s' : invariant s -> step s s' -> invariant s'.
Proof.
  intros Hinv Hstep.
  destruct Hstep as [id s|ok s s' Hsettle|s s' Htimer];
    destruct Hinv as (done & cur & inflight & Hdr & Hsub & Hcur & Hproc & Hidle);
    destruct s as [queue proc susp lg]; simpl in *.
  - (* queueRequest *)
    unfold queueRequest, processQueue; simpl. subst proc.
    destruct susp as [|id0|]; simpl.
    + destruct Hcur as [-> ->]. rewrite (Hidle eq_refl) in *. simpl.
      exists done, [Started id], [id]. simpl.
      rewrite !drained_snoc, !submitted_snoc, Hdr, Hsub. simpl.
      rewrite !app_nil_r. close_invariant.
    + exists done, cur, inflight. simpl.
      rewrite drained_snoc, submitted_snoc, Hdr, Hsub, app_nil_r, <- !app_assoc.
      close_invariant.
    + exists done, cur, inflight. simpl.
      rewrite drained_snoc, submitted_snoc, Hdr, Hsub, app_nil_r, <- !app_assoc.
      close_invariant.
  - (* the request settles *)
    unfold request_settles in Hsettle; simpl in Hsettle.
    destruct susp as [|id0|]; try discriminate. injection Hsettle as <-.
    destruct Hcur as [-> ->].
    exists done, [Started id0; Settled id0 ok], [id0]. simpl.
    rewrite drained_snoc, submitted_snoc, Hdr, Hsub, app_nil_r, <- app_assoc.
    close_invariant.
  - (* the delay is over *)
    unfold delay_elapses in Htimer; simpl in Htimer.
    destruct susp as [|id0|]; try discriminate. injection Htimer as <-.
    destruct Hcur as (id & ok & -> & ->).
    unfold loop_head; simpl. destruct queue as [|next queue]; simpl.
    + exists (done ++ [(id, ok)]), [], []. simpl.
      rewrite drained_snoc, submitted_snoc, Hdr, Hsub, cycles_snoc, map_app. simpl.
      rewrite !app_nil_r, <- !app_assoc. close_invariant.
    + exists (done ++ [(id, ok)]), [Started next], [next]. simpl.
      rewrite !drained_snoc, !submitted_snoc, Hdr, Hsub, cycles_snoc, map_app. simpl.
      rewrite !app_nil_r, <- !app_assoc. close_invariant.
Qed.

Lemma reachable_invariant s : reachable s -> invariant s.
Proof.
  unfold reachable. revert s. apply rtc_ind_r.
  - exact invariant_init.
  - intros s1 s2 _ Hstep IH. exact (invariant_step _ _ IH Hstep).
Qed.

Lemma settled_app l1 l2 : settled (l1 ++ l2) = settled l1 ++ settled l2.
Proof. unfold settled. apply flat_map_app. Qed.

Lemma started_app l1 l2 : started (l1 ++ l2) = started l1 ++ started l2.
Proof. unfold started. apply flat_map_app. Qed.

Lemma settled_drained l : settled (drained l) = settled l.
Proof.
  induction l as [|e l IH]; [reflexivity|].
  destruct e; simpl; unfold settled in *; simpl; now rewrite IH.
Qed.

Lemma started_drained l : started (drained l) = started l.
Proof.
  induction l as [|e l IH]; [reflexivity|].
  destruct e; simpl; unfold started in *; simpl; now rewrite IH.
Qed.

Lemma settled_cycles done : settled (cycles done) = map fst done.
Proof.
  induction done as [|[id ok] done IH]; [reflexivity|].
  unfold settled, cycles in *. simpl. now rewrite IH.
Qed.

Lemma started_cycles done : started (cycles done) = map fst done.
Proof.
  induction done as [|[id ok] done IH]; [reflexivity|].
  unfold started, cycles in *. simpl. now rewrite IH.
Qed.

(** C7: in every state the queue can reach, whatever the order in which
    requests are submitted and awaited promises settle,
    (1) the requests settled so far are, in order, a prefix of the requests
    submitted;
    (2) every request started has settled, except at most the last one;
    (3) the drain loop has done nothing but start a request, settle it and
    then wait 100 ms, over and over, so that a request is started only
    after the one before it has settled and the delay has passed. *)
Theorem C7_fifo_settlement (s : state) :
  reachable s ->
  (exists pending, submitted (log s) = settled (log s) ++ pending) /\
  (exists inflight, started (log s) = settled (log s) ++ inflight /\
                    (List.length inflight <= 1)%nat) /\
  (exists done cur,
      drained (log s) = cycles done ++ cur /\
      (cur = [] \/ (exists id, cur = [Started id]) \/
       (exists id ok, cur = [Started id; Settled id ok]))).
Proof.
  intros Hreach.
  destruct (reachable_invariant s Hreach)
    as (done & cur & inflight & Hdr & Hsub & Hcur & _ & _).
  pose proof (settled_drained (log s)) as Hset. rewrite Hdr, settled_app, settled_cycles in Hset.
  pose proof (started_drained (log s)) as Hsta. rewrite Hdr, started_app, started_cycles in Hsta.
  split; [|split].
  - destruct (suspended s) as [|id|]; simpl in Hcur.
    + destruct Hcur as [-> ->]. simpl in *. rewrite app_nil_r in Hset.
      exists (requestQueue s). congruence.
    + destruct Hcur as [-> ->]. simpl in *. rewrite app_nil_r in Hset.
      exists (id :: requestQueue s). congruence.
    + destruct Hcur as (id & ok & -> & ->). simpl in *.
      exists (requestQueue s). rewrite Hsub, <- Hset, <- app_assoc. reflexivity.
  - destruct (suspended s) as [|id|]; simpl in Hcur.
    + destruct Hcur as [-> ->]. simpl in *. rewrite app_nil_r in Hset, Hsta.
      exists []. rewrite app_nil_r. split; [congruence | simpl; lia].
    + destruct Hcur as [-> ->]. simpl in *. rewrite app_nil_r in Hset.
      exists [id]. split; [congruence | simpl; lia].
    + destruct Hcur as (id & ok & -> & ->). simpl in *.
      exists []. rewrite app_nil_r. split; [congruence | simpl; lia].
  - exists done, cur. split; [exact Hdr|].
    destruct (suspended s) as [|id|]; simpl in Hcur.
    + left. apply Hcur.
    + right; left. exists id. apply Hcur.
    + right; right. destruct Hcur as (id & ok & -> & _). eauto.
Qed.

(** Three writes submitted before the first one settles: they settle in the
    order submitted, the second one rejected, each started only after the
    delay that follows the one before. *)
Lemma C7_fifo_settlement_witness :
  let s := {| requestQueue := []; processing := true; suspended := AwaitingDelay;
              log := [Submitted 1; Started 1; Submitted 2; Submitted 3;
                      Settled 1 true; Waited 100; Started 2; Settled 2 false;
                      Waited 100; Started 3; Settled 3 true] |} in
  reachable s /\
  settled (log s) = [1%nat; 2%nat; 3%nat] /\
  (exists pending, submitted (log s) = settled (log s) ++ pending) /\
  (exists inflight, started (log s) = settled (log s) ++ inflight /\
                    (List.length inflight <= 1)%nat).
Proof.
  intros s.
  assert (Hreach : reachable s).
  { unfold reachable.
    eapply rtc_l; [apply (step_submit 1%nat)|].
    eapply rtc_l; [apply (step_submit 2%nat)|].
    eapply rtc_l; [apply (step_submit 3%nat)|].
    eapply rtc_l; [apply (step_settle true); reflexivity|].
    eapply rtc_l; [apply step_timer; reflexivity|].
    eapply rtc_l; [apply (step_settle false); reflexivity|].
    eapply rtc_l; [apply step_timer; reflexivity|].
    eapply rtc_l; [apply (step_settle true); reflexivity|].
    apply rtc_refl. }
  destruct (C7_fifo_settlement s Hreach) as (Hfifo & Hone & _).
  split; [exact Hreach|]. split; [reflexivity|]. split; [exact Hfifo | exact Hone].
Defined.
End QueueOrder.

(** ** [deepClone] *)
Section DeepClone.
Import State.

Lemma extends_refl h : extends h h.
Proof. intros l o H. exact H. Qed.

Lemma extends_trans h1 h2 h3 : extends h1 h2 -> extends h2 h3 -> extends h1 h3.
Proof. intros H12 H23 l o H. apply H23, H12, H. Qed.

Lemma extends_alloc h o : extends h (snd (alloc o h)).
Proof. intros l o' H. simpl. now apply lookup_app_l_Some. Qed.

Lemma lookup_alloc h o : snd (alloc o h) !! List.length h = Some o.
Proof. simpl. apply list_lookup_middle. reflexivity. Qed.

Lemma snap_items_ext {A B} (f g : A -> option B) items ts :
  (forall v t, f v = Some t -> g v = Some t) ->
  snap_items f items = Some ts -> snap_items g items = Some ts.
Proof.
  intros Hfg. revert ts. induction items as [|v vs IH]; intros ts; simpl; [trivial|].
  destruct (f v) as [t|] eqn:Hv; [|discriminate].
  destruct (snap_items f vs) as [ts'|]; [|discriminate].
  intros [= <-]. now rewrite (Hfg _ _ Hv), (IH _ eq_refl).
Qed.

Lemma snap_props_ext {A B} (f g : A -> option B) props ts :
  (forall v t, f v = Some t -> g v = Some t) ->
  snap_props f props = Some ts -> snap_props g props = Some ts.
Proof.
  intros Hfg. revert ts. induction props as [|[k v] ps IH]; intros ts; simpl; [trivial|].
  destruct (f v) as [t|] eqn:Hv; [|discriminate].
  destruct (snap_props f ps) as [ts'|]; [|discriminate].
  intros [= <-]. now rewrite (Hfg _ _ Hv), (IH _ eq_refl).
Qed.

(** Reading a value as a tree looks only at the objects that are there. *)
Lemma snapshot_ext depth h h' v t :
  extends h h' -> snapshot depth h v = Some t -> snapshot depth h' v = Some t.
Proof.
  intros Hext. revert v t. induction depth as [|d IH]; intros v t;
    destruct v; simpl; try trivial.
  destruct (h !! l) as [o|] eqn:Hl; [|discriminate]. rewrite (Hext _ _ Hl).
  destruct o as [props|items|time]; [| |trivial].
  - destruct (snap_props (snapshot d h) props) as [ts|] eqn:Hps; [|discriminate].
    now rewrite (snap_props_ext _ _ _ _ IH Hps).
  - destruct (snap_items (snapshot d h) items) as [ts|] eqn:Hps; [|discriminate].
    now rewrite (snap_items_ext _ _ _ _ IH Hps).
Qed.

Section Step.
Variable d : nat.
Hypothesis IHd : forall h v t,
  snapshot d h v = Some t ->
  exists v' h', deepClone d v h = Some (v', h') /\ extends h h' /\
                snapshot d h' v' = Some t.

Lemma clone_items_correct items : forall h ts,
  snap_items (snapshot d h) items = Some ts ->
  exists items' h', clone_items (deepClone d) items h = Some (items', h') /\
                    extends h h' /\ snap_items (snapshot d h') items' = Some ts.
Proof.
  induction items as [|v vs IH]; intros h ts; simpl.
  - intros [= <-]. exists [], h. repeat split. apply extends_refl.
  - destruct (snapshot d h v) as [t|] eqn:Hv; [|discriminate].
    destruct (snap_items (snapshot d h) vs) as [ts'|] eqn:Hvs; [|discriminate].
    intros [= <-].
    destruct (IHd h v t Hv) as (v' & h1 & -> & Hext1 & Hv').
    destruct (IH h1 ts') as (vs' & h2 & -> & Hext2 & Hvs').
    { eapply snap_items_ext; [|exact Hvs]. intros; now apply (snapshot_ext d h h1). }
    exists (v' :: vs'), h2. split; [reflexivity|]. split; [eapply extends_trans; eauto|].
    simpl. now rewrite (snapshot_ext d h1 h2 v' t Hext2 Hv'), Hvs'.
Qed.

Lemma clone_props_correct props : forall h ts,
  snap_props (snapshot d h) props = Some ts ->
  exists props' h', clone_props (deepClone d) props h = Some (props', h') /\
                    extends h h' /\ snap_props (snapshot d h') props' = Some ts /\
                    map fst props' = map fst props.
Proof.
  induction props as [|[k v] ps IH]; intros h ts; simpl.
  - intros [= <-]. exists [], h. repeat split. apply extends_refl.
  - destruct (snapshot d h v) as [t|] eqn:Hv; [|discriminate].
    destruct (snap_props (snapshot d h) ps) as [ts'|] eqn:Hps; [|discriminate].
    intros [= <-].
    destruct (IHd h v t Hv) as (v' & h1 & -> & Hext1 & Hv').
    destruct (IH h1 ts') as (ps' & h2 & -> & Hext2 & Hps' & Hkeys).
    { eapply snap_props_ext; [|exact Hps]. intros; now apply (snapshot_ext d h h1). }
    exists ((k, v') :: ps'), h2. split; [reflexivity|]. split; [eapply extends_trans; eauto|].
    simpl. rewrite (snapshot_ext d h1 h2 v' t Hext2 Hv'), Hps', Hkeys. now split.
Qed.
End Step.

(** A value that reads as a tree within [depth] is cloned: the copy reads
    as the same tree, and every object that was in the heap is still there
    unchanged. *)
Lemma deepClone_correct depth : forall h v t,
  snapshot depth h v = Some t ->
  exists v' h', deepClone depth v h = Some (v', h') /\ extends h h' /\
                snapshot depth h' v' = Some t.
Proof.
  induction depth as [|d IH]; intros h v t Hsnap.
  - destruct v; simpl in *; try discriminate;
      (eexists _, h; split; [reflexivity|]; split; [apply extends_refl | exact Hsnap]).
  - destruct v; simpl in Hsnap |- *;
      try (eexists _, h; split; [reflexivity|]; split; [apply extends_refl | exact Hsnap]).
    destruct (h !! l) as [[props|items|time]|] eqn:Hl; [| | |discriminate].
    + destruct (snap_props (snapshot d h) props) as [ts|] eqn:Hps; [|discriminate].
      injection Hsnap as <-.
      destruct (clone_props_correct d IH props h ts Hps) as (ps' & h1 & -> & Hext & Hps' & _).
      eexists _, _. split; [reflexivity|]. split.
      * eapply extends_trans; [exact Hext | apply extends_alloc].
      * simpl. rewrite list_lookup_middle by reflexivity.
        rewrite (snap_props_ext _ (snapshot d (h1 ++ [Plain ps'])) _ _
                   (fun v t => snapshot_ext d h1 _ v t (extends_alloc h1 (Plain ps'))) Hps').
        reflexivity.
    + destruct (snap_items (snapshot d h) items) as [ts|] eqn:Hps; [|discriminate].
      injection Hsnap as <-.
      destruct (clone_items_correct d IH items h ts Hps) as (is' & h1 & -> & Hext & Hps').
      eexists _, _. split; [reflexivity|]. split.
      * eapply extends_trans; [exact Hext | apply extends_alloc].
      * simpl. rewrite list_lookup_middle by reflexivity.
        rewrite (snap_items_ext _ (snapshot d (h1 ++ [Array is'])) _ _
                   (fun v t => snapshot_ext d h1 _ v t (extends_alloc h1 (Array is'))) Hps').
        reflexivity.
    + injection Hsnap as <-. eexists _, _. split; [reflexivity|]. split.
      * apply extends_alloc.
      * simpl. now rewrite list_lookup_middle by reflexivity.
Qed.

Lemma above_le n m v : (n <= m)%nat -> above m v -> above n v.
Proof. destruct v; simpl; trivial. lia. Qed.

Section FreshStep.
Variable d : nat.
Hypothesis IHd : forall h v v' h',
  deepClone d v h = Some (v', h') ->
  exists ext, h' = h ++ ext /\ above (List.length h) v' /\
              Forall (fun o => Forall (above (List.length h)) (refs_of o)) ext.

Lemma clone_items_fresh items : forall h items' h',
  clone_items (deepClone d) items h = Some (items', h') ->
  exists ext, h' = h ++ ext /\ Forall (above (List.length h)) items' /\
              Forall (fun o => Forall (above (List.length h)) (refs_of o)) ext.
Proof.
  induction items as [|v vs IH]; intros h items' h'; simpl.
  - intros [= <- <-]. exists []. rewrite app_nil_r. repeat constructor.
  - destruct (deepClone d v h) as [[v' h1]|] eqn:Hv; [|discriminate].
    destruct (clone_items (deepClone d) vs h1) as [[vs' h2]|] eqn:Hvs; [|discriminate].
    intros [= <- <-].
    destruct (IHd _ _ _ _ Hv) as (e1 & -> & Hv' & He1).
    destruct (IH _ _ _ Hvs) as (e2 & -> & Hvs' & He2).
    rewrite length_app in Hvs', He2.
    exists (e1 ++ e2). rewrite app_assoc. split; [reflexivity|]. split.
    + constructor; [exact Hv'|].
      eapply Forall_impl; [exact Hvs' | intros u Hu; eapply above_le; [|exact Hu]; lia].
    + apply Forall_app. split; [exact He1|].
      eapply Forall_impl; [exact He2|]. intros o Ho.
      eapply Forall_impl; [exact Ho | intros u Hu; eapply above_le; [|exact Hu]; lia].
Qed.

Lemma clone_props_fresh props : forall h props' h',
  clone_props (deepClone d) props h = Some (props', h') ->
  exists ext, h' = h ++ ext /\ Forall (above (List.length h)) (map snd props') /\
              Forall (fun o => Forall (above (List.length h)) (refs_of o)) ext.
Proof.
  induction props as [|[k v] ps IH]; intros h props' h'; simpl.
  - intros [= <- <-]. exists []. rewrite app_nil_r. repeat constructor.
  - destruct (deepClone d v h) as [[v' h1]|] eqn:Hv; [|discriminate].
    destruct (clone_props (deepClone d) ps h1) as [[ps' h2]|] eqn:Hps; [|discriminate].
    intros [= <- <-].
    destruct (IHd _ _ _ _ Hv) as (e1 & -> & Hv' & He1).
    destruct (IH _ _ _ Hps) as (e2 & -> & Hps' & He2).
    rewrite length_app in Hps', He2.
    exists (e1 ++ e2). rewrite app_assoc. split; [reflexivity|]. split.
    + simpl. constructor; [exact Hv'|].
      eapply Forall_impl; [exact Hps' | intros u Hu; eapply above_le; [|exact Hu]; lia].
    + apply Forall_app. split; [exact He1|].
      eapply Forall_impl; [exact He2|]. intros o Ho.
      eapply Forall_impl; [exact Ho | intros u Hu; eapply above_le; [|exact Hu]; lia].
Qed.
End FreshStep.

(** [deepClone] only allocates, and what it allocates refers to nothing that
    was in the heap before: the copy shares no object with the original. *)
Lemma deepClone_fresh depth : forall h v v' h',
  deepClone depth v h = Some (v', h') ->
  exists ext, h' = h ++ ext /\ above (List.length h) v' /\
              Forall (fun o => Forall (above (List.length h)) (refs_of o)) ext.
Proof.
  induction depth as [|d IH]; intros h v v' h' Hc.
  - destruct v; simpl in Hc; try discriminate; injection Hc as <- <-;
      exists []; rewrite app_nil_r; repeat constructor.
  - destruct v; simpl in Hc;
      try (injection Hc as <- <-; exists []; rewrite app_nil_r; repeat constructor).
    destruct (h !! l) as [[props|items|time]|]; [| | |discriminate].
    + destruct (clone_props (deepClone d) props h) as [[ps' h1]|] eqn:Hps; [|discriminate].
      injection Hc as <- <-.
      destruct (clone_props_fresh d IH _ _ _ _ Hps) as (e & -> & Hps' & He).
      exists (e ++ [Plain ps']). rewrite app_assoc. split; [reflexivity|]. split.
      * simpl. rewrite length_app. lia.
      * apply Forall_app. split; [exact He|]. constructor; [exact Hps' | constructor].
    + destruct (clone_items (deepClone d) items h) as [[is' h1]|] eqn:Hps; [|discriminate].
      injection Hc as <- <-.
      destruct (clone_items_fresh d IH _ _ _ _ Hps) as (e & -> & Hps' & He).
      exists (e ++ [Array is']). rewrite app_assoc. split; [reflexivity|]. split.
      * simpl. rewrite length_app. lia.
      * apply Forall_app. split; [exact He|]. constructor; [exact Hps' | constructor].
    + injection Hc as <- <-. exists [Date time]. split; [reflexivity|]. split.
      * simpl. lia.
      * repeat constructor.
Qed.

(** From a value that is not a reference below [n], in a heap whose objects
    from [n] on refer to nothing below [n], no address below [n] is reached. *)
Lemma reach_above n h v l :
  (forall l' o, h !! l' = Some o -> (n <= l')%nat -> Forall (above n) (refs_of o)) ->
  above n v -> reach h v l -> (n <= l)%nat.
Proof.
  intros Hclosed Hv Hreach. induction Hreach as [l|l o v l' Hl Hin _ IH].
  - exact Hv.
  - apply IH. specialize (Hclosed l o Hl Hv).
    rewrite List.Forall_forall in Hclosed. now apply Hclosed.
Qed.
End DeepClone.

(** ** The state service *)
Section StateFacts.
Import State.
Variable depth : nat.

Lemma snap_props_keys {A B} (f : A -> option B) props ts :
  snap_props f props = Some ts -> map fst ts = map fst props.
Proof.
  revert ts. induction props as [|[k v] ps IH]; intros ts; simpl.
  - now intros [= <-].
  - destruct (f v); [|discriminate]. destruct (snap_props f ps); [|discriminate].
    intros [= <-]. simpl. now rewrite (IH _ eq_refl).
Qed.

(** What reads as a plain object is one, with the same keys. *)
Lemma snapshot_plain h v ts :
  snapshot depth h v = Some (TPlain ts) ->
  exists props, props_of h v = Some props /\ map fst props = map fst ts.
Proof.
  destruct v, depth as [|d]; simpl; try discriminate.
  destruct (h !! l) as [[props|items|time]|]; try discriminate.
  - destruct (snap_props (snapshot d h) props) as [ts'|] eqn:Hps; [|discriminate].
    intros [= <-]. exists props. split; [reflexivity|].
    symmetry. exact (snap_props_keys _ _ _ Hps).
  - now destruct (snap_items (snapshot d h) items).
Qed.

Lemma props_of_ext h h' v props :
  extends h h' -> props_of h v = Some props -> props_of h' v = Some props.
Proof.
  intros Hext. destruct v; simpl; try discriminate.
  destruct (h !! l) as [[ps|items|time]|] eqn:Hl; try discriminate.
  intros [= <-]. now rewrite (Hext _ _ Hl).
Qed.

Lemma strict_eq_refl v : v <> VNaN -> strict_eq v v = true.
Proof.
  destruct v; simpl; intros Hv; try reflexivity.
  - now destruct b.
  - apply Z.eqb_refl.
  - now elim Hv.
  - apply String.eqb_refl.
  - apply Nat.eqb_refl.
Qed.

Lemma notified_app l1 l2 : notified (l1 ++ l2) = notified l1 ++ notified l2.
Proof. unfold notified. apply List.filter_app. Qed.

Lemma notified_middleware (mws : list nat) changes source :
  notified (map (fun mw => Middleware mw changes source) mws) = [].
Proof. induction mws as [|mw mws IH]; [reflexivity | exact IH]. Qed.

(** With a key, [getState] hands out the value of the slot itself, and
    allocates nothing. *)
Lemma getState_key_is_slot s k props :
  k <> EmptyString -> props_of (heap s) (state s) = Some props ->
  getState depth (Some k) s = Some (prop props k, s).
Proof.
  intros Hk Hprops. unfold getState.
  destruct (String.eqb_spec k EmptyString); [contradiction|]. simpl. now rewrite Hprops.
Qed.

(** C1, where the code departs from it: with a non-empty key, [getState]
    returns the value of the slot as it is and allocates nothing.  When the
    slot holds a reference to a plain object, the caller holds that very
    object: an assignment made through the returned reference is an
    assignment to the object the state document refers to. *)
Theorem C1_getState_key_aliases (s : StateService) (k : string)
    (props : list (string * value)) (l : nat) (slot : list (string * value)) :
  k <> EmptyString ->
  props_of (heap s) (state s) = Some props ->
  prop props k = VRef l ->
  props_of (heap s) (VRef l) = Some slot ->
  getState depth (Some k) s = Some (VRef l, s) /\
  forall field v,
    props_of (assign l field v (heap s)) (prop props k) = Some (JsMap.set field v slot).
Proof.
  intros Hk Hprops Hslot Hobj. split.
  - rewrite (getState_key_is_slot s k props Hk Hprops). now rewrite Hslot.
  - intros field v. rewrite Hslot. unfold assign. simpl in Hobj |- *.
    destruct (heap s !! l) as [[ps| |]|] eqn:Hl; try discriminate.
    injection Hobj as ->.
    rewrite list_lookup_insert_eq by (eapply lookup_lt_Some; exact Hl). reflexivity.
Qed.

(** Without a key, [getState] hands out a copy that reads as the state
    document does.  No object the caller can get at through the copy was in
    the heap before, and whatever the caller does to objects that were not,
    the state document reads the same. *)
Lemma getState_whole_clones s t :
  snapshot depth (heap s) (state s) = Some t ->
  exists v s', getState depth None s = Some (v, s') /\
               snapshot depth (heap s') v = Some t /\
               state s' = state s /\
               (forall l, reach (heap s') v l -> (List.length (heap s) <= l)%nat) /\
               (forall h'' : list object,
                   (forall l, (l < List.length (heap s))%nat -> h'' !! l = heap s' !! l) ->
                   snapshot depth h'' (state s) = Some t).
Proof.
  intros Hsnap. destruct (deepClone_correct depth _ _ _ Hsnap) as (v & h1 & Hc & Hext & Hv).
  destruct (deepClone_fresh depth _ _ _ _ Hc) as (ext & Hh1 & Habove & Hfresh).
  exists v, (with_heap s h1). unfold getState. rewrite Hc. simpl.
  split; [reflexivity|]. split; [exact Hv|]. split; [reflexivity|]. split.
  - intros l Hreach. apply (reach_above _ h1 v l); [|exact Habove|exact Hreach].
    intros l' o Hl' Hle. subst h1. rewrite lookup_app_r in Hl' by exact Hle.
    rewrite List.Forall_forall in Hfresh. apply Hfresh.
    apply list_elem_of_In. eapply list_elem_of_lookup_2. exact Hl'.
  - intros h'' Hsame. apply (snapshot_ext depth (heap s) h''); [|exact Hsnap].
    intros l o Hl. rewrite Hsame by (eapply lookup_lt_Some; exact Hl). now apply Hext.
Qed.

(** C8: with fewer than two entries in the history, [undo] returns [false]
    and changes nothing.  With the history ending in [previous; last],
    [undo] returns [true]; the state document then reads exactly as the
    snapshot [previous.newState] does; the last entry is gone; and for each
    key of the restored document, in order, every subscriber of that key
    was called with the restored value and [previous.oldState[key]]. *)
Theorem C8_undo (s : StateService) :
  ((List.length (history s) < 2)%nat -> undo depth s = Some (false, s)) /\
  (forall pre previous last ts oldProps,
      history s = pre ++ [previous; last] ->
      snapshot depth (heap s) (newState previous) = Some (TPlain ts) ->
      props_of (heap s) (oldState previous) = Some oldProps ->
      exists s' props,
        undo depth s = Some (true, s') /\
        snapshot depth (heap s') (state s') = Some (TPlain ts) /\
        snapshot depth (heap s') (newState previous) = Some (TPlain ts) /\
        history s' = pre ++ [previous] /\
        props_of (heap s') (state s') = Some props /\
        map fst props = map fst ts /\
        calls s' = calls s ++
                   flat_map (fun kv => notify (subscribers s) (fst kv) (snd kv)
                                         (prop oldProps (fst kv))) props).
Proof.
  split.
  - intros Hlen. unfold undo. destruct (Nat.ltb_spec (List.length (history s)) 2); [reflexivity|lia].
  - intros pre previous last ts oldProps Hhist Hsnap Hold. unfold undo.
    rewrite Hhist, length_app. simpl List.length.
    destruct (Nat.ltb_spec (List.length pre + 2) 2) as [Hlt|_]; [lia|].
    replace (List.length pre + 2 - 2)%nat with (List.length pre + 0)%nat by lia.
    rewrite nth_error_app2 by lia.
    replace (List.length pre + 0 - List.length pre)%nat with 0%nat by lia. simpl nth_error.
    destruct (deepClone_correct depth _ _ _ Hsnap) as (st & h1 & -> & Hext & Hst).
    destruct (snapshot_plain h1 st ts Hst) as (props & Hprops & Hkeys).
    rewrite Hprops, (props_of_ext _ _ _ _ Hext Hold).
    eexists _, props. split; [reflexivity|]. simpl.
    split; [exact Hst|]. split; [exact (snapshot_ext _ _ _ _ _ Hext Hsnap)|].
    split; [|repeat split; assumption].
    change [previous; last] with ([previous] ++ [last]).
    rewrite app_assoc. apply removelast_last.
Qed.

(** C9, as the code has it: when the slot [x] holds a value other than
    [NaN], [setState({ x: that value })] returns the state, leaves the
    state document as it is, calls no subscriber (the middleware is run
    with no changes), and appends one history entry whose old and new
    snapshots both read as the state document does. *)
Theorem C9_setState_same_value (s : StateService) (x source : string) (now : Z)
    (props : list (string * value)) (t : tree) :
  props_of (heap s) (state s) = Some props ->
  snapshot depth (heap s) (state s) = Some t ->
  prop props x <> VNaN ->
  exists s' e,
    setState depth [(x, prop props x)] source now s = Some (state s, s') /\
    state s' = state s /\
    props_of (heap s') (state s') = Some props /\
    snapshot depth (heap s') (state s') = Some t /\
    notified (calls s') = notified (calls s) /\
    calls s' = calls s ++ map (fun mw => Middleware mw [] source) (middleware s) /\
    history s' = (if (maxHistorySize s <? List.length (history s ++ [e]))%nat
                  then tl (history s ++ [e]) else history s ++ [e]) /\
    snapshot depth (heap s') (oldState e) = Some t /\
    snapshot depth (heap s') (newState e) = Some t.
Proof.
  intros Hprops Hsnap Hnan.
  destruct s as [h st subs mws hist maxH cs]; simpl in *.
  destruct (deepClone_correct depth _ _ _ Hsnap) as (oldS & h1 & Hc1 & Hext1 & Hold).
  pose proof (props_of_ext _ _ _ _ Hext1 Hprops) as Hprops1.
  pose proof (snapshot_ext _ _ _ _ _ Hext1 Hsnap) as Hsnap1.
  destruct (deepClone_correct depth _ _ _ Hold) as (o & h3 & Hc3 & Hext3 & Ho).
  pose proof (snapshot_ext _ _ _ _ _ Hext3 Hsnap1) as Hsnap3.
  destruct (deepClone_correct depth _ _ _ Hsnap3) as (n & h4 & Hc4 & Hext4 & Hn).
  unfold setState, saveToHistory; simpl. rewrite Hc1.
  destruct st as [| | | | | |l]; try discriminate.
  rewrite Hprops1. unfold strict_neq.
  rewrite (strict_eq_refl _ Hnan). simpl.
  assert (Hid : <[l := Plain props]> h1 = h1).
  { apply list_insert_id. simpl in Hprops1.
    destruct (h1 !! l) as [[ps| |]|]; try discriminate. now injection Hprops1 as ->. }
  rewrite Hid, Hc3, Hc4.
  eexists _, {| entry_timestamp := now; oldState := o; newState := n;
                entry_source := source |}.
  split; [reflexivity|]. simpl.
  split; [reflexivity|].
  split; [exact (props_of_ext _ _ _ _ (extends_trans _ _ _ Hext3 Hext4) Hprops1)|].
  split; [exact (snapshot_ext _ _ _ _ _ Hext4 Hsnap3)|].
  rewrite app_nil_r.
  split; [now rewrite notified_app, notified_middleware, app_nil_r|].
  split; [reflexivity|]. split; [reflexivity|].
  split; [exact (snapshot_ext _ _ _ _ _ Hext4 Ho) | exact Hn].
Qed.
End StateFacts.

(** ** The state service on concrete stores *)
Section StateExamples.
Import State.

(** On the store as constructed, [getState('filters')] returns the reference
    held in the slot; once the caller has assigned to [sort] through it, the
    state document itself reads [price] where it read [newest]. *)
Lemma C1_getState_key_aliases_witness :
  let s := create in
  let s' := with_heap s (assign 4 "sort" (VStr "price") (heap s)) in
  getState 3 (Some "filters") s = Some (VRef 4, s) /\
  option_map (fun ps => prop ps "sort") (props_of (heap s) (VRef 4)) = Some (VStr "newest") /\
  option_map (fun ps => prop ps "sort") (props_of (heap s') (VRef 4)) = Some (VStr "price") /\
  snapshot 3 (heap s') (state s') <> snapshot 3 (heap s) (state s).
Proof.
  intros s s'.
  edestruct (C1_getState_key_aliases 3 s "filters") as (Hget & Hwrite).
  - discriminate.
  - reflexivity.
  - reflexivity.
  - reflexivity.
  - split; [exact Hget|]. split; [reflexivity|].
    split; [exact (f_equal (option_map (fun ps => prop ps "sort"))
                     (Hwrite "sort" (VStr "price")))|].
    vm_compute. discriminate.
Defined.

(** C8 on a store with a subscriber of [currentUser], after no, one and two
    updates. *)
Lemma C8_undo_witness :
  let s0 := subscribe "currentUser" 7 create in
  let s1 := match setState 3 [("currentUser", VStr "ann")] "login" 1 s0 with
            | Some (_, s) => s
            | None => s0
            end in
  let s2 := match setState 3 [("currentUser", VStr "bob")] "login" 2 s1 with
            | Some (_, s) => s
            | None => s1
            end in
  undo 3 s0 = Some (false, s0) /\
  undo 3 s1 = Some (false, s1) /\
  exists s3 props,
    undo 3 s2 = Some (true, s3) /\
    props_of (heap s3) (state s3) = Some props /\
    prop props "currentUser" = VStr "ann" /\
    List.length (history s3) = 1%nat /\
    skipn (List.length (calls s2)) (calls s3) = [Notified "currentUser" 7 (VStr "ann") VNull].
Proof.
  intros s0 s1 s2.
  split; [apply (C8_undo 3 s0); simpl; lia|].
  split; [apply (C8_undo 3 s1); vm_compute; lia|].
  destruct (C8_undo 3 s2) as [_ Hundo].
  edestruct (Hundo []) as (s3 & props & Hu & _ & _ & Hhist & Hprops & _ & Hcalls).
  - vm_compute. reflexivity.
  - vm_compute. reflexivity.
  - vm_compute. reflexivity.
  - exists s3, props. split; [exact Hu|]. split; [exact Hprops|].
    assert (Hprops' : props_of (heap s3) (state s3) = Some props) by exact Hprops.
    vm_compute in Hu. injection Hu as <-.
    vm_compute in Hprops'. injection Hprops' as <-.
    split; [reflexivity|]. split; [rewrite Hhist; reflexivity|].
    rewrite Hcalls, skipn_app, Nat.sub_diag, skipn_all, skipn_O, app_nil_l.
    vm_compute. reflexivity.
Defined.

(** C9 on a store with a subscriber and a middleware: the slot [filters]
    holds a reference and is set to that reference. *)
Lemma C9_setState_same_value_witness :
  let s := subscribe "filters" 1 (addMiddleware 9 create) in
  exists s',
    setState 3 [("filters", VRef 4)] "view" 5 s = Some (state s, s') /\
    notified (calls s') = [] /\
    calls s' = [Middleware 9 [] "view"] /\
    snapshot 3 (heap s') (state s') = snapshot 3 (heap s) (state s) /\
    List.length (history s') = 1%nat.
Proof.
  intros s.
  edestruct (C9_setState_same_value 3 s "filters" "view" 5)
    as (s' & e & Hset & _ & _ & Hsnap & Hquiet & Hcalls & Hhist & _).
  - vm_compute. reflexivity.
  - vm_compute. reflexivity.
  - vm_compute. discriminate.
  - exists s'. split; [exact Hset|]. split; [exact Hquiet|]. split; [exact Hcalls|].
    split; [exact Hsnap|]. rewrite Hhist. reflexivity.
Defined.

(** C9 as stated fails when the slot holds [NaN]: [NaN !== NaN], so the
    second [setState({ x: NaN })] records a change and calls the
    subscriber of [x] again. *)
Lemma C9_counterexample :
  let s0 := subscribe "x" 1 create in
  exists s1 s2 props,
    option_map snd (setState 3 [("x", VNaN)] "first" 1 s0) = Some s1 /\
    props_of (heap s1) (state s1) = Some props /\
    prop props "x" = VNaN /\
    option_map snd (setState 3 [("x", prop props "x")] "again" 2 s1) = Some s2 /\
    calls s2 = calls s1 ++ [Notified "x" 1 VNaN VNaN].
Proof.
  eexists _, _, _. split; [vm_compute; reflexivity|]. split; [vm_compute; reflexivity|].
  split; [reflexivity|]. split; vm_compute; reflexivity.
Qed.
End StateExamples.

(** * Further properties *)

(** ** Insertion-ordered maps: keys and sizes *)
Section JsMapShape.
Context {V : Type}.
Implicit Types (m : list (string * V)) (k : string) (v : V).

Lemma jsmap_keys_set_present m k v :
  In k (JsMap.keys m) -> JsMap.keys (JsMap.set k v m) = JsMap.keys m.
Proof.
  induction m as [|[k' v'] m IH]; simpl; [tauto|].
  intros Hin. destruct (String.eqb_spec k' k) as [->|Hne]; [reflexivity|].
  simpl. f_equal. apply IH. destruct Hin; [contradiction | assumption].
Qed.

Lemma jsmap_keys_set m k v :
  JsMap.keys (JsMap.set k v m) = JsMap.keys m \/
  (~ In k (JsMap.keys m) /\ JsMap.keys (JsMap.set k v m) = JsMap.keys m ++ [k]).
Proof.
  destruct (in_dec string_dec k (JsMap.keys m)) as [Hin|Hout].
  - left. now apply jsmap_keys_set_present.
  - right. split; [exact Hout|]. rewrite (jsmap_set_absent m k v Hout).
    unfold JsMap.keys. now rewrite map_app.
Qed.

Lemma jsmap_set_NoDup m k v :
  List.NoDup (JsMap.keys m) -> List.NoDup (JsMap.keys (JsMap.set k v m)).
Proof.
  intros Hnd. destruct (jsmap_keys_set m k v) as [->|[Hout ->]]; [exact Hnd|].
  apply List.NoDup_app; [exact Hnd | repeat constructor; simpl; tauto |].
  intros x Hx [<-|[]]. contradiction.
Qed.

Lemma jsmap_set_length m k v :
  (List.length (JsMap.set k v m) <= S (List.length m))%nat /\
  (In k (JsMap.keys m) -> List.length (JsMap.set k v m) = List.length m).
Proof.
  induction m as [|[k' v'] m [IHle IHeq]]; simpl; [split; [lia | tauto]|].
  destruct (String.eqb_spec k' k) as [->|Hne]; simpl.
  - split; [lia | reflexivity].
  - split; [lia|]. intros [Heq|Hin]; [contradiction|]. now rewrite IHeq.
Qed.

Lemma jsmap_keys_delete m k :
  JsMap.keys (JsMap.delete k m)
  = List.filter (fun k' => negb (String.eqb k' k)) (JsMap.keys m).
Proof.
  induction m as [|[k' v'] m IH]; simpl; [reflexivity|].
  destruct (String.eqb k' k); simpl; [exact IH | now rewrite IH].
Qed.

Lemma jsmap_delete_NoDup m k :
  List.NoDup (JsMap.keys m) -> List.NoDup (JsMap.keys (JsMap.delete k m)).
Proof. intros Hnd. rewrite jsmap_keys_delete. now apply List.NoDup_filter. Qed.

Lemma jsmap_delete_length m k :
  (List.length (JsMap.delete k m) <= List.length m)%nat.
Proof.
  induction m as [|[k' v'] m IH]; simpl; [lia|].
  destruct (String.eqb k' k); simpl; lia.
Qed.

Lemma jsmap_filter_NoDup (P : string * V -> bool) m :
  List.NoDup (JsMap.keys m) -> List.NoDup (JsMap.keys (List.filter P m)).
Proof.
  induction m as [|[k' v'] m IH]; simpl; [trivial|].
  intros Hnd. apply List.NoDup_cons_iff in Hnd as [Hout Hnd].
  destruct (P (k', v')); simpl; [|now apply IH].
  constructor; [|now apply IH].
  intros Hin. apply Hout. unfold JsMap.keys in *.
  apply in_map_iff in Hin as (x & Hx & Hin). apply filter_In in Hin as [Hin _].
  apply in_map_iff. now exists x.
Qed.

Lemma jsmap_filter_length (P : string * V -> bool) m :
  (List.length (List.filter P m) <= List.length m)%nat.
Proof. induction m as [|x m IH]; simpl; [lia|]. destruct (P x); simpl; lia. Qed.

(** In a map that binds each key once, filtering keeps or drops the one
    binding of a key. *)
Lemma jsmap_get_filter (P : string * V -> bool) m k :
  List.NoDup (JsMap.keys m) ->
  JsMap.get k (List.filter P m)
  = match JsMap.get k m with
    | Some v => if P (k, v) then Some v else None
    | None => None
    end.
Proof.
  induction m as [|[k' v'] m IH]; simpl; [reflexivity|].
  intros Hnd. apply List.NoDup_cons_iff in Hnd as [Hout Hnd].
  destruct (String.eqb_spec k' k) as [->|Hne].
  - destruct (P (k, v')) eqn:HP; simpl.
    + now rewrite String.eqb_refl.
    + rewrite (IH Hnd). apply jsmap_get_None_keys in Hout. now rewrite Hout.
  - destruct (P (k', v')); simpl; [|now apply IH].
    destruct (String.eqb_spec k' k); [contradiction | now apply IH].
Qed.
End JsMapShape.

(** ** The cache in use *)
Section CacheInUse.
Import Cache CacheUse.

Lemma act_maxMemorySize c a : maxMemorySize (act c a) = maxMemorySize c.
Proof.
  destruct a as [now [key v useDB t|key useDB| |]]; unfold act; simpl; try reflexivity.
  - unfold Cache.set, setDB. destruct useDB; [|reflexivity].
    now destruct (db c).
  - unfold Cache.get, getDB, getMemory, deleteDB. destruct useDB.
    + destruct (db c) as [d|]; [|reflexivity].
      destruct (JsMap.get key d) as [it|]; [|reflexivity]. now destruct (expired now it).
    + destruct (JsMap.get key (memoryCache c)) as [it|]; [|reflexivity].
      now destruct (expired now it).
Qed.

Lemma setMemory_well_formed key v t now c :
  (1 <= maxMemorySize c)%nat -> well_formed c -> well_formed (setMemory key v t now c).
Proof.
  intros Hcap (Hlen & Hnd & Hdb). unfold well_formed, setMemory, with_memory; simpl.
  split; [|split; [|exact Hdb]].
  - destruct (Nat.leb_spec (maxMemorySize c) (JsMap.size (memoryCache c))) as [Hfull|Hroom].
    + unfold JsMap.size in Hfull.
      destruct (memoryCache c) as [|[k0 it0] m'] eqn:Hm; simpl in *; [lia|].
      rewrite String.eqb_refl.
      pose proof (jsmap_delete_length m' k0).
      pose proof (proj1 (jsmap_set_length (JsMap.delete k0 m') key
                           {| item_value := v; timestamp := now; ttl := default 300000 t |})).
      lia.
    + unfold JsMap.size in Hroom.
      pose proof (proj1 (jsmap_set_length (memoryCache c) key
                           {| item_value := v; timestamp := now; ttl := default 300000 t |})).
      lia.
  - apply jsmap_set_NoDup.
    destruct (maxMemorySize c <=? JsMap.size (memoryCache c))%nat; [|exact Hnd].
    destruct (JsMap.first_key (memoryCache c)); [now apply jsmap_delete_NoDup | exact Hnd].
Qed.

Lemma act_well_formed c a :
  (1 <= maxMemorySize c)%nat -> well_formed c -> well_formed (act c a).
Proof.
  intros Hcap Hwf. destruct a as [now [key v useDB t|key useDB| |]]; unfold act; simpl.
  - unfold Cache.set. destruct useDB; [|now apply setMemory_well_formed].
    destruct Hwf as (Hlen & Hnd & Hdb). unfold setDB, well_formed.
    destruct (db c) as [d|] eqn:Hd; simpl; [|now rewrite Hd].
    split; [exact Hlen|]. split; [exact Hnd | now apply jsmap_set_NoDup].
  - destruct Hwf as (Hlen & Hnd & Hdb). unfold Cache.get, getDB, getMemory, deleteDB, well_formed.
    destruct useDB.
    + destruct (db c) as [d|] eqn:Hd; simpl; [|now rewrite Hd].
      destruct (JsMap.get key d) as [it|]; simpl; [|now rewrite Hd].
      destruct (expired now it); simpl; [|now rewrite Hd].
      split; [exact Hlen|]. split; [exact Hnd | now apply jsmap_delete_NoDup].
    + destruct (JsMap.get key (memoryCache c)) as [it|]; simpl; [|tauto].
      destruct (expired now it); simpl; [|tauto].
      pose proof (jsmap_delete_length (memoryCache c) key).
      split; [lia|]. split; [now apply jsmap_delete_NoDup | exact Hdb].
  - destruct Hwf as (Hlen & Hnd & Hdb). unfold cleanup, well_formed; simpl.
    pose proof (jsmap_filter_length (fun kv => negb (expired now (snd kv))) (memoryCache c)).
    split; [lia|]. split; [now apply jsmap_filter_NoDup|].
    destruct (db c) as [d|]; [now apply jsmap_filter_NoDup | exact I].
  - unfold clear, well_formed; simpl. split; [lia|]. split; [constructor|].
    destruct (db c); [constructor | exact I].
Qed.

(** X1: whatever calls of [set], [get], [cleanup] and [clear] are made, in
    either tier and at any times, the fast tier never holds more than
    [maxMemorySize] entries and neither tier binds a key twice. *)
Theorem cache_stays_well_formed (l : list (Z * action)) (c : CacheManager) :
  (1 <= maxMemorySize c)%nat -> well_formed c ->
  well_formed (acts l c) /\ maxMemorySize (acts l c) = maxMemorySize c.
Proof.
  revert c. induction l as [|a l IH]; intros c Hcap Hwf; [split; [exact Hwf | reflexivity]|].
  unfold acts in *. simpl.
  destruct (IH (act c a)) as [Hwf' Hmax].
  - now rewrite act_maxMemorySize.
  - now apply act_well_formed.
  - split; [exact Hwf'|]. now rewrite Hmax, act_maxMemorySize.
Qed.

(** Capacity 2 and five calls, three of them writes to the fast tier. *)
Lemma cache_stays_well_formed_witness :
  let c := {| memoryCache := []; maxMemorySize := 2; db := Some [] |} in
  let l := [(0, DoSet "a" (VNum 1) false None); (1, DoSet "b" (VNum 2) false (Some 5));
            (2, DoSet "c" (VNum 3) true None); (9, DoCleanup);
            (10, DoSet "d" (VNum 4) false None); (11, DoSet "e" (VNum 5) false None)] in
  well_formed (acts l c) /\ JsMap.keys (memoryCache (acts l c)) = ["d"; "e"].
Proof.
  intros c l. split; [|reflexivity].
  apply (cache_stays_well_formed l c); [simpl; lia|].
  unfold well_formed; simpl. split; [lia|]. split; constructor.
Defined.

(** X2: writing to the fast tier while it is full evicts the oldest entry
    even when the key written is already cached and no room is needed: the
    oldest key is gone and the tier is one entry short of full. *)
Theorem setMemory_full_rewrite_evicts (c : CacheManager) (key oldest : string)
    (v : value) (t : option Z) (now : Z) (it : item) :
  List.NoDup (JsMap.keys (memoryCache c)) ->
  (maxMemorySize c <= List.length (memoryCache c))%nat ->
  JsMap.first_key (memoryCache c) = Some oldest ->
  key <> oldest ->
  JsMap.get key (memoryCache c) = Some it ->
  let c' := setMemory key v t now c in
  JsMap.get oldest (memoryCache c') = None /\
  JsMap.get key (memoryCache c')
    = Some {| item_value := v; timestamp := now; ttl := default 300000 t |} /\
  List.length (memoryCache c') = (List.length (memoryCache c) - 1)%nat.
Proof.
  intros Hnd Hfull Hfirst Hne Hget c'. subst c'. unfold setMemory, with_memory; simpl.
  unfold JsMap.size. destruct (Nat.leb_spec (maxMemorySize c) (List.length (memoryCache c)));
    [|lia].
  rewrite Hfirst.
  destruct (memoryCache c) as [|[k0 it0] m'] eqn:Hm; [discriminate|].
  simpl in Hfirst. injection Hfirst as ->.
  simpl in Hnd. apply List.NoDup_cons_iff in Hnd as [Hout Hnd].
  simpl JsMap.delete. rewrite String.eqb_refl, (jsmap_delete_absent m' oldest Hout).
  simpl in Hget. destruct (String.eqb_spec oldest key) as [Heq|_]; [congruence|].
  split; [|split].
  - rewrite jsmap_get_set_ne by exact Hne. now apply jsmap_get_None_keys.
  - apply jsmap_get_set_eq.
  - simpl. rewrite Nat.sub_0_r. apply jsmap_set_length.
    destruct (in_dec string_dec key (JsMap.keys m')) as [Hin|Hout']; [exact Hin|].
    apply jsmap_get_None_keys in Hout'. congruence.
Qed.

(** Capacity 2 holding [a] and [b]; [b] is written again. *)
Lemma setMemory_full_rewrite_evicts_witness :
  let c := setMemory "b" (VNum 2) None 1
             (setMemory "a" (VNum 1) None 0
                {| memoryCache := []; maxMemorySize := 2; db := None |}) in
  let c' := setMemory "b" (VNum 3) None 2 c in
  JsMap.get "a" (memoryCache c') = None /\
  JsMap.get "b" (memoryCache c')
    = Some {| item_value := VNum 3; timestamp := 2; ttl := 300000 |} /\
  List.length (memoryCache c') = 1%nat.
Proof.
  intros c c'.
  apply (setMemory_full_rewrite_evicts c "b" "a" (VNum 3) None 2
           {| item_value := VNum 2; timestamp := 1; ttl := 300000 |}).
  - simpl. repeat (constructor; [simpl; intuition discriminate|]). constructor.
  - simpl; lia.
  - reflexivity.
  - discriminate.
  - reflexivity.
Defined.

(** X3: [cleanup] drops from the fast tier exactly the entries that have
    expired and keeps the others as they are; a read at the same time
    afterwards deletes nothing. *)
Theorem cleanup_memory (now : Z) (c : CacheManager) :
  List.NoDup (JsMap.keys (memoryCache c)) ->
  (forall k,
      JsMap.get k (memoryCache (cleanup now c))
      = match JsMap.get k (memoryCache c) with
        | Some it => if expired now it then None else Some it
        | None => None
        end) /\
  (forall k, snd (getMemory k now (cleanup now c)) = cleanup now c).
Proof.
  intros Hnd.
  assert (Hget : forall k,
             JsMap.get k (memoryCache (cleanup now c))
             = match JsMap.get k (memoryCache c) with
               | Some it => if expired now it then None else Some it
               | None => None
               end).
  { intros k. unfold cleanup; simpl. rewrite jsmap_get_filter by exact Hnd.
    destruct (JsMap.get k (memoryCache c)) as [it|]; [|reflexivity].
    simpl. now destruct (expired now it). }
  split; [exact Hget|].
  intros k. unfold getMemory. rewrite Hget.
  destruct (JsMap.get k (memoryCache c)) as [it|]; [|reflexivity].
  destruct (expired now it) eqn:He; [reflexivity|]. now rewrite He.
Qed.

(** A tier with an expired and a valid entry, swept at time 10. *)
Lemma cleanup_memory_witness :
  let c := setMemory "fresh" (VNum 2) (Some 100) 1
             (setMemory "stale" (VNum 1) (Some 5) 0 (Cache.create false)) in
  JsMap.get "stale" (memoryCache (cleanup 10 c)) = None /\
  JsMap.get "fresh" (memoryCache (cleanup 10 c))
    = Some {| item_value := VNum 2; timestamp := 1; ttl := 100 |} /\
  snd (getMemory "fresh" 10 (cleanup 10 c)) = cleanup 10 c.
Proof.
  intros c.
  destruct (cleanup_memory 10 c) as [Hget Hread].
  - simpl. repeat (constructor; [simpl; intuition discriminate|]). constructor.
  - split; [rewrite Hget; reflexivity|]. split; [rewrite Hget; reflexivity | apply Hread].
Defined.

(** X4: in the durable tier [cleanup] goes by age alone: a record is
    deleted when its timestamp is at most [now - 86400000], whether or not
    its ttl has run out, and is kept otherwise, expired or not. *)
Theorem cleanup_durable_by_age (now : Z) (c : CacheManager) (d : list (string * item)) :
  db c = Some d -> List.NoDup (JsMap.keys d) ->
  forall k,
    held k true (cleanup now c)
    = match JsMap.get k d with
      | Some it => if timestamp it <=? now - 86400000 then None else Some it
      | None => None
      end.
Proof.
  intros Hd Hnd k. unfold held, cleanup; simpl. rewrite Hd.
  rewrite jsmap_get_filter by exact Hnd.
  destruct (JsMap.get k d) as [it|]; [|reflexivity].
  simpl. now destruct (timestamp it <=? now - 86400000).
Qed.

(** A record with a ttl of a week is deleted after a day and a second; a
    record that expired after a second is still there after an hour. *)
Lemma cleanup_durable_by_age_witness :
  let week := {| item_value := VNum 1; timestamp := 0; ttl := 604800000 |} in
  let second := {| item_value := VNum 2; timestamp := 0; ttl := 1000 |} in
  let c := {| memoryCache := []; maxMemorySize := 50;
              db := Some [("week", week); ("second", second)] |} in
  valid 86401000 week /\ held "week" true (cleanup 86401000 c) = None /\
  ~ valid 3600000 second /\ held "second" true (cleanup 3600000 c) = Some second.
Proof.
  intros week second c.
  assert (Hnd : List.NoDup (JsMap.keys [("week", week); ("second", second)])).
  { simpl. repeat (constructor; [simpl; intuition discriminate|]). constructor. }
  split; [unfold valid; simpl; lia|].
  split; [rewrite (cleanup_durable_by_age 86401000 c _ eq_refl Hnd); reflexivity|].
  split; [unfold valid; simpl; lia|].
  rewrite (cleanup_durable_by_age 3600000 c _ eq_refl Hnd). reflexivity.
Defined.


End CacheInUse.

(** ** [execute]: bounds and frames *)
Section ExecuteBounds.
Import Errors Service ServiceApi.


Lemma skipn_app_length {A} (l rest : list A) : skipn (List.length l) (l ++ rest) = rest.
Proof. now rewrite skipn_app, Nat.sub_diag, skipn_all, skipn_O. Qed.


(** X7: without a usable cache key (no key, the empty key, or
    [useCache: false]) [execute] leaves the cache as it is, however the call
    ends. *)
Theorem execute_uncached_leaves_cache svc (queryFn : query) (cacheKey : option string)
    (o : options) (w : world) :
  cache_enabled (default true (opt_useCache o)) cacheKey = None ->
  cache (fst (execute svc queryFn cacheKey o w)) = cache w.
Proof.
  intros Hkey. rewrite (execute_uncached _ _ _ _ _ Hkey).
  destruct (retry_loop svc queryFn None (default false (opt_useDB o))
              (default 300000 (opt_cacheTTL o))
              (default (retryAttempts svc) (opt_retries o))
              (default (retryAttempts svc) (opt_retries o)) 1 Nullish w) as [w1 res] eqn:Hloop.
  apply retry_loop_cache in Hloop.
  destruct res as [[r|e]|t]; simpl in *; try exact Hloop.
  destruct (handleError e "supabase"); exact Hloop.
Qed.

(** An order that takes two attempts, with entries in the cache. *)
Lemma execute_uncached_leaves_cache_witness :
  let w := {| cache := Cache.setMemory "products_all" (VStr "ps") None 0 (Cache.create true);
              clock := 1; trace := [] |} in
  let remote := fun i : nat =>
    {| took := 30;
       ends := if (i <? 2)%nat then Rejects (Err "Failed to fetch")
               else Resolves {| data := VStr "order"; error := None; rest := [] |} |} in
  cache (fst (createOrder create remote w)) = cache w /\
  attempts (trace (fst (createOrder create remote w))) = [1%nat; 2%nat].
Proof.
  intros w remote. split; [|reflexivity].
  apply (execute_uncached_leaves_cache create remote None). reflexivity.
Defined.

(** X8: with [retries: 0] the query is never called; unless a truthy value
    is found in the cache, [execute] returns [{ data: null, error: null }]
    with the error info of [null]. *)
Theorem execute_zero_retries svc (queryFn : query) (cacheKey : option string)
    (o : options) (w : world) :
  default (retryAttempts svc) (opt_retries o) = 0%nat ->
  attempts (added w (fst (execute svc queryFn cacheKey o w))) = [] /\
  ((exists v, truthy v = true /\
              snd (execute svc queryFn cacheKey o w) = Normal (FromCache v)) \/
   snd (execute svc queryFn cacheKey o w)
     = Normal (Failed Nullish {| info_message := Nullish; info_type := "supabase" |})).
Proof.
  intros Hzero. unfold execute, added. rewrite Hzero. cbn [retry_loop].
  destruct (cache_enabled (default true (opt_useCache o)) cacheKey) as [k|].
  - destruct (Cache.get k (default false (opt_useDB o)) (clock w) (cache w)) as [cached c1].
    destruct (truthy cached) eqn:Ht; simpl.
    + rewrite skipn_all. split; [reflexivity|]. left. eauto.
    + rewrite skipn_app_length. split; [reflexivity|]. now right.
  - simpl. rewrite skipn_app_length. split; [reflexivity|]. now right.
Qed.

(** A read with [retries: 0] on an empty cache. *)
Lemma execute_zero_retries_witness :
  let w := {| cache := Cache.create false; clock := 0; trace := [] |} in
  let o := {| opt_useCache := None; opt_cacheTTL := None; opt_useDB := None;
              opt_retries := Some 0%nat |} in
  let q := fun _ : nat =>
    {| took := 1; ends := Resolves {| data := VNum 1; error := None; rest := [] |} |} in
  execute create q (Some "k") o w
  = ({| cache := Cache.create false; clock := 0; trace := [Reported Nullish] |},
     Normal (Failed Nullish {| info_message := Nullish; info_type := "supabase" |})).
Proof.
  intros w o q.
  destruct (execute_zero_retries create q (Some "k") o w eq_refl) as [_ [(v & _ & H)|H]].
  - vm_compute in H. discriminate.
  - vm_compute. reflexivity.
Defined.

(** X9: when IndexedDB is not available, a read through the durable tier
    ([useDB: true]) calls the query every time, as long as one attempt is
    allowed, and leaves the cache as it is: nothing is stored, and nothing
    fails because of it. *)
Theorem execute_durable_unavailable svc (queryFn : query) (k : string)
    (o : options) (w : world) :
  Cache.db (cache w) = None ->
  opt_useDB o = Some true ->
  cache_enabled (default true (opt_useCache o)) (Some k) = Some k ->
  (1 <= default (retryAttempts svc) (opt_retries o))%nat ->
  cache (fst (execute svc queryFn (Some k) o w)) = cache w /\
  exists rest, trace (fst (execute svc queryFn (Some k) o w)) = trace w ++ Called 1 :: rest.
Proof.
  intros Hdb HuseDB Hkey Hretries.
  assert (Hget : Cache.get k (default false (opt_useDB o)) (clock w) (cache w)
                 = (VNull, cache w)).
  { rewrite HuseDB. simpl. unfold Cache.getDB. now rewrite Hdb. }
  rewrite (execute_miss svc queryFn k o w VNull (cache w) Hkey Hget eq_refl).
  rewrite with_cache_id, HuseDB. simpl default.
  set (retries := default (retryAttempts svc) (opt_retries o)) in *.
  destruct (retry_loop_trace svc queryFn (Some k) true (default 300000 (opt_cacheTTL o))
              retries retries 1 Nullish w) as (rest & Htr & Hcall).
  destruct (Hcall Hretries) as [rest' ->].
  destruct (retry_loop svc queryFn (Some k) true (default 300000 (opt_cacheTTL o))
              retries retries 1 Nullish w) as [w1 res] eqn:Hloop.
  apply retry_loop_cache in Hloop. simpl in Htr.
  assert (Hstored : forall r w', Cache.db (cache w) = None ->
             stored (Some k) true (default 300000 (opt_cacheTTL o)) r
               (with_cache w' (cache w)) = cache w).
  { intros r w' Hnone. unfold stored. destruct (truthy (data r)); [|reflexivity].
    simpl. unfold Cache.setDB. now rewrite Hnone. }
  destruct res as [[r|e]|t]; simpl.
  - rewrite Hloop, Hstored by exact Hdb. eauto.
  - destruct (handleError e "supabase"); simpl; (split; [exact Hloop|]);
      exists (rest' ++ [Reported e]); rewrite Htr, <- app_assoc; reflexivity.
  - eauto.
Qed.

(** Two reads of the store settings through the durable tier of a browser
    without IndexedDB. *)
Lemma execute_durable_unavailable_witness :
  let w := {| cache := Cache.create false; clock := 0; trace := [] |} in
  let a := {| arg_useCache := Absent; arg_cacheTTL := Absent; arg_useDB := Given true;
              arg_retries := Absent |} in
  let remote := fun _ : nat =>
    {| took := 30; ends := Resolves {| data := VStr "settings"; error := None; rest := [] |} |} in
  let w1 := fst (getStoreSettings create remote a w) in
  cache w1 = cache w /\
  attempts (trace (fst (getStoreSettings create remote a w1))) = [1%nat; 1%nat].
Proof.
  intros w a remote w1. split; [|reflexivity].
  apply (execute_durable_unavailable create remote "store_settings"
           (read_options 900000 a) w); [reflexivity | reflexivity | reflexivity | simpl; lia].
Defined.
End ExecuteBounds.

(** ** The read methods and the writes that follow them *)
Section Reads.
Import Errors Service ServiceApi.

Lemma read_options_ttl ttl a :
  default 300000 (opt_cacheTTL (read_options ttl a)) = effective_ttl ttl a.
Proof. unfold effective_ttl, read_options; simpl. now destruct (arg_cacheTTL a). Qed.

Lemma product_key_prefix id : String.prefix "product_" (String.append "product_" id) = true.
Proof. simpl. now destruct id. Qed.

Lemma product_key_not_all id : String.append "product_" id <> "products_all".
Proof. simpl. intros H. injection H as H. destruct id; discriminate. Qed.

(** A read of another key keeps a binding of the fast tier. *)
Lemma getMemory_other k k' now c :
  k <> k' ->
  JsMap.get k (Cache.memoryCache (snd (Cache.getMemory k' now c)))
  = JsMap.get k (Cache.memoryCache c).
Proof.
  intros Hne. unfold Cache.getMemory.
  destruct (JsMap.get k' (Cache.memoryCache c)) as [it|]; [|reflexivity].
  destruct (Cache.expired now it); [|reflexivity].
  simpl. now apply jsmap_get_delete_ne.
Qed.

(** X10: a read method that misses in the fast tier and gets a truthy
    [data] at the first attempt stores it with the effective ttl: its own
    unless [options] carries a [cacheTTL], and 300000 when that property is
    [undefined].  Up to that age the same read is answered from the cache
    without a call; past it the read calls Supabase again. *)
Theorem read_caches_for_ttl svc (remote remote' : query) (key : string) (ttl : Z)
    (a : arguments) (w : world) (r : response) :
  key <> EmptyString ->
  default true (overridden true (arg_useCache a)) = true ->
  default false (passed (arg_useDB a)) = false ->
  (1 <= default (retryAttempts svc) (passed (arg_retries a)))%nat ->
  truthy (fst (Cache.get key false (clock w) (cache w))) = false ->
  ends (remote 1%nat) = Resolves r -> error r = None -> truthy (data r) = true ->
  exists w1,
    read svc remote key ttl a w = (w1, Normal (Fetched r)) /\
    Cache.held key false (cache w1)
      = Some {| Cache.item_value := data r; Cache.timestamp := clock w1;
                Cache.ttl := effective_ttl ttl a |} /\
    forall d : Z,
      (d <= effective_ttl ttl a ->
       read svc remote' key ttl a (elapse d w1) = (elapse d w1, Normal (FromCache (data r)))) /\
      (effective_ttl ttl a < d ->
       exists rest,
         trace (fst (read svc remote' key ttl a (elapse d w1)))
         = trace w1 ++ Called 1 :: rest).
Proof.
  intros Hk HuseCache HuseDB Hretries Hmiss Hok Herr Htruthy. unfold read.
  set (o := read_options ttl a).
  assert (Hkey : cache_enabled (default true (opt_useCache o)) (Some key) = Some key)
    by (apply cache_enabled_Some; assumption).
  assert (Hdb : default false (opt_useDB o) = false) by exact HuseDB.
  assert (Httl : default 300000 (opt_cacheTTL o) = effective_ttl ttl a)
    by apply read_options_ttl.
  destruct (Cache.get key false (clock w) (cache w)) as [v c1] eqn:Hget. simpl in Hmiss.
  assert (Hget' : Cache.get key (default false (opt_useDB o)) (clock w) (cache w) = (v, c1))
    by now rewrite Hdb.
  rewrite (execute_miss svc remote key o w v c1 Hkey Hget' Hmiss), Hdb, Httl.
  set (retries := default (retryAttempts svc) (opt_retries o)).
  assert (Hnone : forall i : nat, (1 <= i < 1 + 0)%nat ->
            exists e, failure (ends (remote i)) = Some e /\ readable e) by (intros i Hi; lia).
  destruct (retry_loop_succeeds svc remote (Some key) false (effective_ttl ttl a) retries
              0 r 1 retries Nullish (with_cache w c1) Hnone Hok Herr Hretries)
    as (w1 & -> & _ & Hcache).
  unfold stored in Hcache. rewrite Htruthy in Hcache. simpl in Hcache.
  assert (Hheld : Cache.held key false (cache w1)
                  = Some {| Cache.item_value := data r; Cache.timestamp := clock w1;
                            Cache.ttl := effective_ttl ttl a |}).
  { rewrite Hcache. unfold Cache.held. apply setMemory_binds. }
  exists w1. split; [reflexivity|]. split; [exact Hheld|].
  intros d. split; intros Hd.
  - assert (Hvalid : Cache.valid (clock (elapse d w1))
                       {| Cache.item_value := data r; Cache.timestamp := clock w1;
                          Cache.ttl := effective_ttl ttl a |})
      by (unfold Cache.valid; simpl; lia).
    assert (Hhit : Cache.get key (default false (opt_useDB o)) (clock (elapse d w1))
                     (cache (elapse d w1)) = (data r, cache (elapse d w1)))
      by (rewrite Hdb; exact (get_valid _ _ _ _ _ Hheld Hvalid)).
    rewrite (execute_hit svc remote' key o (elapse d w1) _ _ Hkey Hhit Htruthy).
    now rewrite with_cache_id.
  - assert (Hstale : Cache.get key (default false (opt_useDB o)) (clock (elapse d w1))
                       (cache (elapse d w1))
                     = (VNull, Cache.with_memory (cache w1)
                                 (JsMap.delete key (Cache.memoryCache (cache w1))))).
    { rewrite Hdb. simpl Cache.get.
      apply (getMemory_stale key _ _ _ Hheld). simpl. lia. }
    rewrite (execute_miss svc remote' key o (elapse d w1) _ _ Hkey Hstale eq_refl).
    destruct (retry_loop_trace svc remote' (Some key) (default false (opt_useDB o))
                (default 300000 (opt_cacheTTL o)) retries retries 1 Nullish
                (with_cache (elapse d w1)
                   (Cache.with_memory (cache w1)
                      (JsMap.delete key (Cache.memoryCache (cache w1))))))
      as (rest & Htr & Hcall).
    destruct (Hcall Hretries) as [rest' ->]. fold retries.
    destruct (retry_loop svc remote' (Some key) (default false (opt_useDB o))
                (default 300000 (opt_cacheTTL o)) retries retries 1 Nullish
                (with_cache (elapse d w1)
                   (Cache.with_memory (cache w1)
                      (JsMap.delete key (Cache.memoryCache (cache w1))))))
      as [w2 [[r2|e]|t]]; simpl in Htr |- *.
    + eauto.
    + destruct (handleError e "supabase"); simpl; exists (rest' ++ [Reported e]);
        rewrite Htr, <- app_assoc; reflexivity.
    + eauto.
Qed.

(** The categories, read with [{ cacheTTL: undefined }]: kept for five
    minutes, not thirty. *)
Lemma read_caches_for_ttl_witness :
  let w := {| cache := Cache.create false; clock := 0; trace := [] |} in
  let a := {| arg_useCache := Absent; arg_cacheTTL := Undefined; arg_useDB := Absent;
              arg_retries := Absent |} in
  let remote := fun _ : nat =>
    {| took := 40; ends := Resolves {| data := VStr "cats"; error := None; rest := [] |} |} in
  let w1 := fst (getCategories create remote a w) in
  Cache.held "categories_all" false (cache w1)
    = Some {| Cache.item_value := VStr "cats"; Cache.timestamp := 40; Cache.ttl := 300000 |} /\
  snd (getCategories create remote a (elapse 300000 w1)) = Normal (FromCache (VStr "cats")) /\
  attempts (trace (fst (getCategories create remote a (elapse 300001 w1)))) = [1%nat; 1%nat].
Proof.
  intros w a remote w1.
  destruct (read_caches_for_ttl create remote remote "categories_all" 1800000 a w
              {| data := VStr "cats"; error := None; rest := [] |})
    as (w1' & Hread & Hheld & Hlater);
    [discriminate | reflexivity | reflexivity | simpl; lia | reflexivity
    | reflexivity | reflexivity | reflexivity |].
  assert (Hw1 : w1 = w1') by (unfold w1, getCategories; now rewrite Hread).
  rewrite Hw1. split; [|split].
  - rewrite Hheld. rewrite <- Hw1. reflexivity.
  - unfold getCategories. rewrite (proj1 (Hlater 300000)); [reflexivity|].
    unfold effective_ttl; simpl; lia.
  - rewrite <- Hw1. reflexivity.
Defined.

(** X11: [invalidateCache] never touches the durable tier, whatever the
    pattern; after [invalidateCache('products')] every [getProduct(id)] that
    goes through the fast tier calls Supabase, as long as one attempt is
    allowed. *)
Theorem getProduct_after_invalidate svc (remote : query) (id : string) (a : arguments)
    (w : world) :
  default true (overridden true (arg_useCache a)) = true ->
  default false (passed (arg_useDB a)) = false ->
  (1 <= default (retryAttempts svc) (passed (arg_retries a)))%nat ->
  (forall pattern now c, Cache.db (invalidateCache pattern now c) = Cache.db c) /\
  exists rest,
    trace (fst (getProduct svc remote id a
                  (with_cache w (invalidateCache "products" (clock w) (cache w)))))
    = trace w ++ Called 1 :: rest.
Proof.
  intros HuseCache HuseDB Hretries. split.
  - intros pattern now c. unfold invalidateCache.
    assert (Hread : forall k, Cache.db (snd (Cache.get k false now c)) = Cache.db c).
    { intros k. simpl. unfold Cache.getMemory.
      destruct (JsMap.get k (Cache.memoryCache c)) as [it|]; [|reflexivity].
      destruct (Cache.expired now it); reflexivity. }
    destruct (String.eqb pattern "products"); [simpl; apply (Hread "products_all")|].
    destruct (String.eqb pattern "categories"); [apply Hread|].
    destruct (String.eqb pattern "settings"); [apply Hread | reflexivity].
  - unfold getProduct, read.
    set (key := String.append "product_" id).
    set (o := read_options 300000 a).
    set (w0 := with_cache w (invalidateCache "products" (clock w) (cache w))).
    assert (Hkey : cache_enabled (default true (opt_useCache o)) (Some key) = Some key).
    { apply cache_enabled_Some; [exact HuseCache|]. unfold key. simpl. discriminate. }
    assert (Hget : Cache.get key (default false (opt_useDB o)) (clock w0) (cache w0)
                   = (VNull, cache w0)).
    { change (default false (opt_useDB o)) with (default false (passed (arg_useDB a))).
      rewrite HuseDB. simpl. unfold Cache.getMemory.
      now rewrite (invalidate_products_family (clock w) (cache w) key (product_key_prefix id)). }
    rewrite (execute_miss svc remote key o w0 _ _ Hkey Hget eq_refl), with_cache_id.
    set (retries := default (retryAttempts svc) (opt_retries o)).
    destruct (retry_loop_trace svc remote (Some key) (default false (opt_useDB o))
                (default 300000 (opt_cacheTTL o)) retries retries 1 Nullish w0)
      as (rest & Htr & Hcall).
    destruct (Hcall Hretries) as [rest' ->].
    destruct (retry_loop svc remote (Some key) (default false (opt_useDB o))
                (default 300000 (opt_cacheTTL o)) retries retries 1 Nullish w0)
      as [w2 [[r2|e]|t]]; simpl in Htr |- *.
    + eauto.
    + destruct (handleError e "supabase"); simpl; exists (rest' ++ [Reported e]);
        rewrite Htr, <- app_assoc; reflexivity.
    + eauto.
Qed.

(** A product read, invalidated, and read again a second later. *)
Lemma getProduct_after_invalidate_witness :
  let w := {| cache := Cache.create true; clock := 0; trace := [] |} in
  let remote := fun _ : nat =>
    {| took := 40; ends := Resolves {| data := VStr "shoe"; error := None; rest := [] |} |} in
  let w1 := elapse 1000 (fst (getProduct create remote "7" no_arguments w)) in
  snd (getProduct create remote "7" no_arguments w1) = Normal (FromCache (VStr "shoe")) /\
  exists rest,
    trace (fst (getProduct create remote "7" no_arguments
                  (with_cache w1 (invalidateCache "products" (clock w1) (cache w1)))))
    = trace w1 ++ Called 1 :: rest.
Proof.
  intros w remote w1. split; [reflexivity|].
  apply (getProduct_after_invalidate create remote "7" no_arguments w1);
    [reflexivity | reflexivity | simpl; lia].
Defined.

(** X12: [updateProduct] reads the two cache keys and deletes neither: the
    cached copy of the product, if it has not expired by the time the update
    returns, is still in the fast tier, and the next [getProduct(id)] returns
    that copy from the cache without calling Supabase. *)
Theorem updateProduct_keeps_cached_product svc (remote remote' : query) (id : string)
    (w : world) (it : Cache.item) :
  Cache.held (String.append "product_" id) false (cache w) = Some it ->
  Cache.valid (clock (fst (updateProduct svc remote id w))) it ->
  truthy (Cache.item_value it) = true ->
  let w' := fst (updateProduct svc remote id w) in
  Cache.held (String.append "product_" id) false (cache w') = Some it /\
  getProduct svc remote' id no_arguments w' = (w', Normal (FromCache (Cache.item_value it))).
Proof.
  intros Hheld Hvalid Htruthy w'.
  set (key := String.append "product_" id) in *.
  assert (Hkept : Cache.held key false (cache w') = Some it).
  { unfold w' in *. unfold updateProduct in *.
    set (o := {| opt_useCache := Some false; opt_cacheTTL := None; opt_useDB := None;
                 opt_retries := None |}) in *.
    assert (Hframe : cache (fst (execute svc remote None o w)) = cache w).
    { rewrite (execute_uncached svc remote None o w eq_refl).
      destruct (retry_loop svc remote None (default false (opt_useDB o))
                  (default 300000 (opt_cacheTTL o))
                  (default (retryAttempts svc) (opt_retries o))
                  (default (retryAttempts svc) (opt_retries o)) 1 Nullish w)
        as [w1 res] eqn:Hloop.
      apply retry_loop_cache in Hloop.
      destruct res as [[r|e]|t]; simpl in *; try exact Hloop.
      destruct (handleError e "supabase"); exact Hloop. }
    destruct (execute svc remote None o w) as [w1 [res|t]]; simpl in Hframe;
      [|simpl; now rewrite Hframe].
    destruct (truthy (result_data res)); [|simpl; now rewrite Hframe].
    cbn [fst cache with_cache] in Hvalid |- *. rewrite Hframe in *.
    change (Cache.valid (clock w1) it) in Hvalid.
    change (Cache.held key false
              (snd (Cache.getMemory "products_all" (clock w1)
                      (snd (Cache.getMemory key (clock w1) (cache w))))) = Some it).
    rewrite (getMemory_fresh key (clock w1) (cache w) it Hheld Hvalid). cbn [snd].
    unfold Cache.held.
    rewrite (getMemory_other key "products_all"); [exact Hheld|].
    apply product_key_not_all. }
  split; [exact Hkept|].
  unfold getProduct, read. fold key.
  rewrite (execute_hit svc remote' key (read_options 300000 no_arguments) w'
             (Cache.item_value it) (cache w')).
  - now rewrite with_cache_id.
  - apply cache_enabled_Some; [reflexivity|]. unfold key. simpl. discriminate.
  - exact (get_valid key false (clock w') (cache w') it Hkept Hvalid).
  - exact Htruthy.
Qed.

(** A product cached at 40 ms, updated at one second: the old copy is what
    [getProduct] returns next. *)
Lemma updateProduct_keeps_cached_product_witness :
  let w := {| cache := Cache.create true; clock := 0; trace := [] |} in
  let select := fun _ : nat =>
    {| took := 40; ends := Resolves {| data := VStr "old"; error := None; rest := [] |} |} in
  let update := fun _ : nat =>
    {| took := 60; ends := Resolves {| data := VStr "new"; error := None; rest := [] |} |} in
  let w1 := elapse 1000 (fst (getProduct create select "7" no_arguments w)) in
  let w2 := fst (updateProduct create update "7" w1) in
  snd (updateProduct create update "7" w1)
    = Normal (Fetched {| data := VStr "new"; error := None; rest := [] |}) /\
  getProduct create select "7" no_arguments w2 = (w2, Normal (FromCache (VStr "old"))).
Proof.
  intros w select update w1 w2. split; [reflexivity|].
  apply (updateProduct_keeps_cached_product create update select "7" w1
           {| Cache.item_value := VStr "old"; Cache.timestamp := 40; Cache.ttl := 300000 |});
    [reflexivity | vm_compute; discriminate | reflexivity].
Defined.
End Reads.

(** ** The request queue: idleness and progress *)
Section QueueProgress.
Import Queue.

(** When the drain loop is not running, nothing is left to do. *)
Lemma invariant_idle s :
  invariant s -> suspended s = NotRunning ->
  processing s = false /\ requestQueue s = [] /\ settled (log s) = submitted (log s).
Proof.
  intros (done & cur & inflight & Hdr & Hsub & Hcur & Hproc & Hidle) Hsusp.
  rewrite Hsusp in Hcur, Hproc. destruct Hcur as [-> ->].
  split; [exact Hproc|]. split; [exact (Hidle Hsusp)|].
  rewrite <- (settled_drained (log s)), Hdr, Hsub, (Hidle Hsusp), !app_nil_r.
  apply settled_cycles.
Qed.

(** X13: in every state the queue can reach, [processing] is clear exactly
    when no activation of the drain loop is suspended, and then no request
    is stranded: [requestQueue] is empty and every request ever submitted
    has been settled, in the order submitted. *)
Theorem queue_idle_means_done (s : state) :
  reachable s ->
  (processing s = false <-> suspended s = NotRunning) /\
  (processing s = false ->
   requestQueue s = [] /\ settled (log s) = submitted (log s)).
Proof.
  intros Hreach. pose proof (reachable_invariant s Hreach) as Hinv.
  assert (Hiff : processing s = false <-> suspended s = NotRunning).
  { destruct Hinv as (_ & _ & _ & _ & _ & _ & Hproc & _). rewrite Hproc.
    destruct (suspended s); split; intros H; try reflexivity; discriminate. }
  split; [exact Hiff|]. intros Hidle. apply Hiff in Hidle.
  now destruct (invariant_idle s Hinv Hidle) as (_ & Hq & Hs).
Qed.

(** Two requests, submitted together, both done. *)
Lemma queue_idle_means_done_witness :
  let s := {| requestQueue := []; processing := false; suspended := NotRunning;
              log := [Submitted 1; Started 1; Submitted 2; Settled 1 false; Waited 100;
                      Started 2; Settled 2 true; Waited 100] |} in
  reachable s /\ settled (log s) = [1%nat; 2%nat] /\ submitted (log s) = [1%nat; 2%nat].
Proof.
  intros s.
  assert (Hreach : reachable s).
  { unfold reachable.
    eapply rtc_l; [apply (step_submit 1%nat)|].
    eapply rtc_l; [apply (step_submit 2%nat)|].
    eapply rtc_l; [apply (step_settle false); reflexivity|].
    eapply rtc_l; [apply step_timer; reflexivity|].
    eapply rtc_l; [apply (step_settle true); reflexivity|].
    eapply rtc_l; [apply step_timer; reflexivity|].
    apply rtc_refl. }
  split; [exact Hreach|].
  destruct (queue_idle_means_done s Hreach) as (_ & Hdone).
  destruct (Hdone eq_refl) as (_ & Hsettled). rewrite Hsettled. split; reflexivity.
Defined.

(** X14: a request submitted while the queue is idle is called at once,
    before [queueRequest] returns; one submitted while the loop is running
    is only appended, and nothing is called. *)
Theorem queueRequest_starts_or_waits (s : state) (id : nat) :
  reachable s ->
  (processing s = false ->
   queueRequest id s
   = {| requestQueue := []; processing := true; suspended := AwaitingRequest id;
        log := log s ++ [Submitted id; Started id] |}) /\
  (processing s = true ->
   queueRequest id s
   = {| requestQueue := requestQueue s ++ [id]; processing := true;
        suspended := suspended s; log := log s ++ [Submitted id] |}).
Proof.
  intros Hreach. pose proof (reachable_invariant s Hreach) as Hinv. split; intros Hproc.
  - destruct Hinv as (_ & _ & _ & _ & _ & _ & Hp & Hidle).
    assert (Hsusp : suspended s = NotRunning).
    { rewrite Hproc in Hp. destruct (suspended s); [reflexivity | discriminate..]. }
    unfold queueRequest, processQueue. simpl. rewrite Hproc, (Hidle Hsusp). simpl.
    unfold loop_head. simpl. now rewrite <- app_assoc.
  - unfold queueRequest, processQueue. simpl. now rewrite Hproc.
Qed.

(** A second request submitted while the first is awaited. *)
Lemma queueRequest_starts_or_waits_witness :
  queueRequest 2 (queueRequest 1 init)
  = {| requestQueue := [2%nat]; processing := true; suspended := AwaitingRequest 1;
       log := [Submitted 1; Started 1; Submitted 2] |}.
Proof.
  assert (Hreach : reachable (queueRequest 1 init))
    by (apply rtc_once, (step_submit 1%nat)).
  destruct (queueRequest_starts_or_waits (queueRequest 1 init) 2 Hreach) as (_ & Hbusy).
  rewrite (Hbusy eq_refl). reflexivity.
Defined.

(** From the delay on, the loop goes through what is queued and stops. *)
Lemma drain_from_delay :
  forall (q : list nat) (proc : bool) (lg : list qevent),
  exists s',
    rtc step {| requestQueue := q; processing := proc; suspended := AwaitingDelay;
                log := lg |} s' /\
    suspended s' = NotRunning /\ submitted (log s') = submitted lg.
Proof.
  induction q as [|id q IH]; intros proc lg.
  - eexists. split; [apply rtc_once, step_timer; reflexivity|].
    split; [reflexivity|]. simpl. now rewrite submitted_snoc, app_nil_r.
  - destruct (IH proc ((lg ++ [Waited 100]) ++ [Started id] ++ [Settled id true]))
      as (s' & Hrun & Hsusp & Hsub).
    exists s'. split; [|split; [exact Hsusp|]].
    + eapply rtc_l; [apply step_timer; reflexivity|].
      eapply rtc_l; [apply (step_settle true); reflexivity|].
      simpl. rewrite <- !app_assoc in *. exact Hrun.
    + rewrite Hsub. unfold submitted. rewrite !flat_map_app. simpl.
      now rewrite !app_nil_r.
Qed.

(** X15: the queue always can finish.  From every state it can reach, if
    the awaited requests settle and the timers fire, and nothing more is
    submitted, the loop stops with [processing] clear, the queue empty and
    every submitted request settled. *)
Theorem queue_drains (s : state) :
  reachable s ->
  exists s',
    rtc step s s' /\
    processing s' = false /\ requestQueue s' = [] /\
    submitted (log s') = submitted (log s) /\
    settled (log s') = submitted (log s).
Proof.
  intros Hreach.
  assert (Hrun : exists s', rtc step s s' /\ suspended s' = NotRunning /\
                            submitted (log s') = submitted (log s)).
  { destruct s as [q proc [|id|] lg].
    - eexists. split; [apply rtc_refl|]. split; reflexivity.
    - destruct (drain_from_delay q proc (lg ++ [Settled id true]))
        as (s' & Hrun & Hsusp & Hsub).
      exists s'. split; [|split; [exact Hsusp|]].
      + eapply rtc_l; [apply (step_settle true); reflexivity | exact Hrun].
      + rewrite Hsub. simpl. now rewrite submitted_snoc, app_nil_r.
    - apply drain_from_delay. }
  destruct Hrun as (s' & Hrun & Hsusp & Hsub).
  assert (Hinv : invariant s').
  { apply reachable_invariant. unfold reachable in *. etransitivity; eassumption. }
  destruct (invariant_idle s' Hinv Hsusp) as (Hproc & Hq & Hsettled).
  exists s'. repeat split; try assumption. now rewrite Hsettled.
Qed.

(** With one request awaited and two waiting, the loop can go through all
    three. *)
Lemma queue_drains_witness :
  let s := queueRequest 3 (queueRequest 2 (queueRequest 1 init)) in
  exists s', rtc step s s' /\ processing s' = false /\
             settled (log s') = [1%nat; 2%nat; 3%nat].
Proof.
  intros s.
  assert (Hreach : reachable s).
  { unfold reachable, s.
    eapply rtc_l; [apply (step_submit 1%nat)|].
    eapply rtc_l; [apply (step_submit 2%nat)|].
    apply rtc_once, (step_submit 3%nat). }
  destruct (queue_drains s Hreach) as (s' & Hrun & Hproc & _ & _ & Hsettled).
  exists s'. split; [exact Hrun|]. split; [exact Hproc|]. rewrite Hsettled. reflexivity.
Defined.
End QueueProgress.

(** ** The state service in use *)
Section StateInUse.
Import State StateUse.
Variable depth : nat.







Lemma prop_set_eq props k v : prop (JsMap.set k v props) k = v.
Proof. unfold prop. now rewrite jsmap_get_set_eq. Qed.




End StateInUse.

(** ** Reading the heap after it has changed *)
Section Frames.
Import State.

Lemma snap_props_eq {A B} (f g : A -> option B) props :
  (forall v, In v (map snd props) -> f v = g v) ->
  snap_props f props = snap_props g props.
Proof.
  induction props as [|[k v] ps IH]; simpl; intros Hfg; [reflexivity|].
  rewrite (Hfg v) by now left. rewrite IH; [reflexivity|].
  intros v' Hin. apply Hfg. now right.
Qed.

Lemma snap_items_eq {A B} (f g : A -> option B) items :
  (forall v, In v items -> f v = g v) ->
  snap_items f items = snap_items g items.
Proof.
  induction items as [|v vs IH]; simpl; intros Hfg; [reflexivity|].
  rewrite (Hfg v) by now left. rewrite IH; [reflexivity|].
  intros v' Hin. apply Hfg. now right.
Qed.

Lemma snap_props_In {A B} (f : A -> option B) props ts v :
  snap_props f props = Some ts -> In v (map snd props) -> exists t, f v = Some t.
Proof.
  revert ts. induction props as [|[k v0] ps IH]; simpl; intros ts Hs Hin; [contradiction|].
  destruct (f v0) as [t0|] eqn:Hv0; [|discriminate].
  destruct (snap_props f ps) as [ts'|]; [|discriminate].
  destruct Hin as [<-|Hin]; [eauto | exact (IH _ eq_refl Hin)].
Qed.

Lemma snap_items_In {A B} (f : A -> option B) items ts v :
  snap_items f items = Some ts -> In v items -> exists t, f v = Some t.
Proof.
  revert ts. induction items as [|v0 vs IH]; simpl; intros ts Hs Hin; [contradiction|].
  destruct (f v0) as [t0|] eqn:Hv0; [|discriminate].
  destruct (snap_items f vs) as [ts'|]; [|discriminate].
  destruct Hin as [<-|Hin]; [eauto | exact (IH _ eq_refl Hin)].
Qed.

(** What an object holds is read one level down. *)
Lemma snapshot_child d h l o v t :
  snapshot (S d) h (VRef l) = Some t -> h !! l = Some o -> In v (refs_of o) ->
  exists t', snapshot d h v = Some t'.
Proof.
  simpl. intros Hs Hl Hin. rewrite Hl in Hs. destruct o as [props|items|time]; simpl in Hin.
  - destruct (snap_props (snapshot d h) props) as [ts|] eqn:Hps; [|discriminate].
    exact (snap_props_In _ _ _ _ Hps Hin).
  - destruct (snap_items (snapshot d h) items) as [ts|] eqn:Hps; [|discriminate].
    exact (snap_items_In _ _ _ _ Hps Hin).
  - contradiction.
Qed.

(** A deeper call stack reads the same tree. *)
Lemma snapshot_mono d h v t : snapshot d h v = Some t -> snapshot (S d) h v = Some t.
Proof.
  revert v t. induction d as [|d IH]; intros v t.
  - destruct v; simpl; try trivial. discriminate.
  - destruct v; try (simpl; trivial; fail).
    intros Hs. simpl in Hs. change (snapshot (S (S d)) h (VRef l))
      with (match h !! l with
            | Some (Plain props) => option_map TPlain (snap_props (snapshot (S d) h) props)
            | Some (Array items) => option_map TArray (snap_items (snapshot (S d) h) items)
            | Some (Date t) => Some (TDate t)
            | None => None
            end).
    destruct (h !! l) as [[props|items|time]|]; [| |exact Hs|discriminate].
    + destruct (snap_props (snapshot d h) props) as [ts|] eqn:Hps; [|discriminate].
      now rewrite (snap_props_ext _ _ _ _ IH Hps).
    + destruct (snap_items (snapshot d h) items) as [ts|] eqn:Hps; [|discriminate].
      now rewrite (snap_items_ext _ _ _ _ IH Hps).
Qed.

Lemma snapshot_mono_le d d' h v t :
  (d <= d')%nat -> snapshot d h v = Some t -> snapshot d' h v = Some t.
Proof. induction 1; [trivial|]. intros Hs. now apply snapshot_mono, IHle. Qed.

(** The least depth at which a reference reads. *)
Lemma snapshot_least d h l t :
  snapshot d h (VRef l) = Some t ->
  exists m, (S m <= d)%nat /\ snapshot (S m) h (VRef l) = Some t /\
            snapshot m h (VRef l) = None.
Proof.
  induction d as [|d IH]; [discriminate|]. intros Hs.
  destruct (snapshot d h (VRef l)) as [t'|] eqn:Hd.
  - assert (t' = t) by (apply snapshot_mono in Hd; congruence). subst t'.
    destruct (IH eq_refl) as (m & Hm & Hsm & Hnone). exists m. split; [lia|]. now split.
  - exists d. split; [lia|]. now split.
Qed.

(** A value that reads at a depth at which [l] does not read cannot lead
    to [l]: the structure under a readable reference has no cycle. *)
Lemma readable_unreached h l v l' :
  reach h v l' ->
  forall d t, snapshot d h v = Some t -> snapshot d h (VRef l) = None -> l' <> l.
Proof.
  induction 1 as [r|r o v l' Hr Hin _ IH]; intros d t Hs Hnone.
  - intros ->. congruence.
  - destruct d as [|d]; [discriminate|].
    destruct (snapshot_child d h r o v t Hs Hr Hin) as [t' Hv].
    apply (IH d t' Hv).
    destruct (snapshot d h (VRef l)) as [x|] eqn:Hd; [|reflexivity].
    apply snapshot_mono in Hd. congruence.
Qed.

(** Writing to an object that a value does not lead to leaves the value
    reading as before. *)
Lemma snapshot_unreached h l o v :
  (forall l', reach h v l' -> l' <> l) ->
  forall d, snapshot d (<[l := o]> h) v = snapshot d h v.
Proof.
  intros Hun d. revert v Hun. induction d as [|d IH]; intros v Hun.
  - now destruct v.
  - destruct v; try reflexivity.
    assert (Hne : l <> l0) by (intros ->; now apply (Hun l0 (reach_root h l0))).
    simpl. rewrite list_lookup_insert_ne by exact Hne.
    destruct (h !! l0) as [[props|items|time]|] eqn:Hl0; try reflexivity.
    + f_equal. apply snap_props_eq. intros v Hin. apply IH.
      intros l' Hreach. apply Hun. exact (reach_field h l0 _ v l' Hl0 Hin Hreach).
    + f_equal. apply snap_items_eq. intros v Hin. apply IH.
      intros l' Hreach. apply Hun. exact (reach_field h l0 _ v l' Hl0 Hin Hreach).
Qed.

(** What a readable object holds does not lead back to it, so it reads the
    same whatever is written to the object. *)
Lemma child_unreached d h l o v t :
  snapshot d h (VRef l) = Some t -> h !! l = Some o -> In v (refs_of o) ->
  (forall l', reach h v l' -> l' <> l) /\
  exists t', (1 <= d)%nat /\ snapshot (d - 1) h v = Some t' /\
             forall o', snapshot (d - 1) (<[l := o']> h) v = Some t'.
Proof.
  intros Hs Hl Hin.
  destruct (snapshot_least d h l t Hs) as (m & Hm & Hsm & Hnone).
  destruct (snapshot_child m h l o v t Hsm Hl Hin) as [t' Hv].
  assert (Hun : forall l', reach h v l' -> l' <> l)
    by (intros l' Hreach; exact (readable_unreached h l v l' Hreach m t' Hv Hnone)).
  split; [exact Hun|]. exists t'. split; [lia|].
  assert (Hd : snapshot (d - 1) h v = Some t') by (apply (snapshot_mono_le m); [lia | exact Hv]).
  split; [exact Hd|]. intros o'. now rewrite snapshot_unreached.
Qed.

(** Reading is not affected by objects appended to the heap, nor by writes
    below [n], when the value is above [n] and the heap from [n] on refers
    to nothing below [n]. *)
Lemma reach_fresh n h ext v l :
  List.length h = n ->
  Forall (fun o => Forall (above n) (refs_of o)) ext ->
  above n v -> reach (h ++ ext) v l -> (n <= l)%nat.
Proof.
  intros Hlen Hext Hv Hreach. apply (reach_above n (h ++ ext) v l); [|exact Hv|exact Hreach].
  intros l' o Hl' Hle. rewrite lookup_app_r in Hl' by lia.
  rewrite List.Forall_forall in Hext. apply Hext.
  apply list_elem_of_In. eapply list_elem_of_lookup_2. exact Hl'.
Qed.
End Frames.

(** ** [setState], [undo] and the history *)
Section StateHistory.
Import State StateUse.
Variable depth : nat.

Lemma props_of_lt h l props : props_of h (VRef l) = Some props -> (l < List.length h)%nat.
Proof.
  simpl. destruct (h !! l) as [o|] eqn:Hl; [|discriminate].
  intros _. eapply lookup_lt_Some. exact Hl.
Qed.

Lemma props_of_lookup h l props :
  props_of h (VRef l) = Some props <-> h !! l = Some (Plain props).
Proof.
  simpl. destruct (h !! l) as [[ps|items|time]|]; split; intros H; try discriminate;
    now injection H as ->.
Qed.

Lemma closed_app n m (ext1 ext2 : list object) :
  (n <= m)%nat ->
  Forall (fun o => Forall (above n) (refs_of o)) ext1 ->
  Forall (fun o => Forall (above m) (refs_of o)) ext2 ->
  Forall (fun o => Forall (above n) (refs_of o)) (ext1 ++ ext2).
Proof.
  intros Hle H1 H2. apply Forall_app. split; [exact H1|].
  eapply List.Forall_impl; [|exact H2]. intros o Ho. eapply List.Forall_impl; [|exact Ho].
  intros v. now apply above_le.
Qed.

(** What a call of [setState] does when the state document reads as [t]
    before it and as [t'] once the updates are applied. *)
Lemma setState_runs (s : StateService) (l : nat) (updates : list (string * value))
    (source : string) (now : Z) (props : list (string * value)) (t t' : tree) :
  state s = VRef l ->
  props_of (heap s) (VRef l) = Some props ->
  snapshot depth (heap s) (VRef l) = Some t ->
  snapshot depth (<[l := Plain (fst (apply_updates updates props []))]> (heap s)) (VRef l)
    = Some t' ->
  exists s' e ext,
    setState depth updates source now s = Some (VRef l, s') /\
    (state s' = VRef l /\ subscribers s' = subscribers s /\
     middleware s' = middleware s /\ maxHistorySize s' = maxHistorySize s) /\
    calls s' = calls s
               ++ map (fun mw => Middleware mw (snd (apply_updates updates props [])) source)
                      (middleware s)
               ++ flat_map (fun kc => notify (subscribers s) (fst kc)
                                        (new (snd kc)) (old (snd kc)))
                           (snd (apply_updates updates props [])) /\
    history s' = (if (maxHistorySize s <? List.length (history s ++ [e]))%nat
                  then tl (history s ++ [e]) else history s ++ [e]) /\
    (entry_timestamp e = now /\ entry_source e = source) /\
    (heap s' = <[l := Plain (fst (apply_updates updates props []))]> (heap s) ++ ext /\
     Forall (fun o => Forall (above (List.length (heap s))) (refs_of o)) ext /\
     above (List.length (heap s)) (oldState e) /\
     above (List.length (heap s)) (newState e)) /\
    snapshot depth (heap s') (oldState e) = Some t /\
    snapshot depth (heap s') (newState e) = Some t' /\
    snapshot depth (heap s') (VRef l) = Some t'.
Proof.
  intros Hst Hprops Hsnap Hnew.
  destruct s as [h st subs mws hist maxH cs];
    cbn [heap state subscribers middleware history maxHistorySize calls] in *. subst st.
  pose proof (props_of_lt _ _ _ Hprops) as Hl.
  destruct (deepClone_correct depth _ _ _ Hsnap) as (oldS & h1 & Hc1 & Hext1 & Hold).
  destruct (deepClone_fresh depth _ _ _ _ Hc1) as (ext1 & Hh1 & Hab1 & Hcl1).
  pose proof (props_of_ext _ _ _ _ Hext1 Hprops) as Hprops1.
  destruct (apply_updates updates props []) as [props' changes] eqn:Hup.
  cbn [fst snd] in *.
  set (h2 := <[l := Plain props']> h1).
  assert (Hh2 : h2 = <[l := Plain props']> h ++ ext1).
  { unfold h2. rewrite Hh1. now apply insert_app_l. }
  assert (Hold2 : snapshot depth h2 oldS = Some t).
  { unfold h2. rewrite snapshot_unreached; [exact Hold|].
    intros l' Hreach. rewrite Hh1 in Hreach.
    pose proof (reach_fresh _ h ext1 oldS l' eq_refl Hcl1 Hab1 Hreach). lia. }
  assert (Hnew2 : snapshot depth h2 (VRef l) = Some t').
  { apply (snapshot_ext depth (<[l := Plain props']> h)); [|exact Hnew].
    rewrite Hh2. intros a o. apply lookup_app_l_Some. }
  destruct (deepClone_correct depth _ _ _ Hold2) as (o & h3 & Hc3 & Hext3 & Ho).
  destruct (deepClone_fresh depth _ _ _ _ Hc3) as (ext3 & Hh3 & Hab3 & Hcl3).
  pose proof (snapshot_ext _ _ _ _ _ Hext3 Hnew2) as Hnew3.
  destruct (deepClone_correct depth _ _ _ Hnew3) as (n & h4 & Hc4 & Hext4 & Hn).
  destruct (deepClone_fresh depth _ _ _ _ Hc4) as (ext4 & Hh4 & Hab4 & Hcl4).
  assert (Hlen2 : (List.length h <= List.length h2)%nat).
  { rewrite Hh2, length_app, length_insert. lia. }
  assert (Hlen3 : (List.length h2 <= List.length h3)%nat).
  { rewrite Hh3, length_app. lia. }
  unfold setState. cbn [heap state]. rewrite Hc1, Hprops1, Hup. fold h2.
  unfold saveToHistory. cbn [heap with_heap with_calls]. rewrite Hc3, Hc4.
  eexists _, {| entry_timestamp := now; oldState := o; newState := n;
                entry_source := source |}, (ext1 ++ ext3 ++ ext4).
  split; [reflexivity|]. simpl.
  split; [repeat split|]. split; [reflexivity|]. split; [reflexivity|].
  split; [split; reflexivity|]. split; [|split; [|split]].
  - split; [|split; [|split]].
    + rewrite Hh4, Hh3, Hh2, <- !app_assoc. reflexivity.
    + exact (closed_app _ _ ext1 (ext3 ++ ext4) Hlen2 Hcl1
               (closed_app _ _ ext3 ext4 Hlen3 Hcl3 Hcl4)).
    + eapply above_le; [|exact Hab3]. exact Hlen2.
    + eapply above_le; [|exact Hab4]. lia.
  - exact (snapshot_ext _ _ _ _ _ Hext4 Ho).
  - exact Hn.
  - exact (snapshot_ext _ _ _ _ _ Hext4 Hnew3).
Qed.

Lemma getState_slot (s : StateService) l k props :
  k <> EmptyString -> state s = VRef l -> heap s !! l = Some (Plain props) ->
  getState depth (Some k) s = Some (prop props k, s).
Proof.
  intros Hk Hst Hl. unfold getState.
  destruct (String.eqb_spec k EmptyString); [contradiction|]. cbn [negb].
  now rewrite Hst, (proj2 (props_of_lookup _ _ _) Hl).
Qed.

Lemma extends_app (h ext : list object) : extends h (h ++ ext).
Proof. intros a o. apply lookup_app_l_Some. Qed.

Section ReadsStep.
Variable d : nat.
Hypothesis IHd : forall h v v' h',
  deepClone d v h = Some (v', h') ->
  forall h'' t, extends h' h'' -> snapshot d h'' v = Some t -> snapshot d h'' v' = Some t.

Lemma clone_props_reads props : forall h props' h1,
  clone_props (deepClone d) props h = Some (props', h1) ->
  forall h'' ts, extends h1 h'' ->
    snap_props (snapshot d h'') props = Some ts ->
    snap_props (snapshot d h'') props' = Some ts.
Proof.
  induction props as [|[k v] ps IH]; intros h props' h1; simpl.
  - intros [= <- <-] h'' ts _ H. exact H.
  - destruct (deepClone d v h) as [[v' ha]|] eqn:Hv; [|discriminate].
    destruct (clone_props (deepClone d) ps ha) as [[ps' hb]|] eqn:Hps; [|discriminate].
    intros [= <- <-] h'' ts Hext.
    destruct (clone_props_fresh d (deepClone_fresh d) _ _ _ _ Hps) as (e & -> & _ & _).
    simpl. destruct (snapshot d h'' v) as [t|] eqn:Hsv; [|discriminate].
    destruct (snap_props (snapshot d h'') ps) as [ts'|] eqn:Hsp; [|discriminate].
    intros [= <-].
    rewrite (IHd _ _ _ _ Hv h'' t
               (extends_trans _ _ _ (extends_app ha e) Hext) Hsv).
    now rewrite (IH _ _ _ Hps h'' ts' Hext Hsp).
Qed.

Lemma clone_items_reads items : forall h items' h1,
  clone_items (deepClone d) items h = Some (items', h1) ->
  forall h'' ts, extends h1 h'' ->
    snap_items (snapshot d h'') items = Some ts ->
    snap_items (snapshot d h'') items' = Some ts.
Proof.
  induction items as [|v vs IH]; intros h items' h1; simpl.
  - intros [= <- <-] h'' ts _ H. exact H.
  - destruct (deepClone d v h) as [[v' ha]|] eqn:Hv; [|discriminate].
    destruct (clone_items (deepClone d) vs ha) as [[vs' hb]|] eqn:Hvs; [|discriminate].
    intros [= <- <-] h'' ts Hext.
    destruct (clone_items_fresh d (deepClone_fresh d) _ _ _ _ Hvs) as (e & -> & _ & _).
    simpl. destruct (snapshot d h'' v) as [t|] eqn:Hsv; [|discriminate].
    destruct (snap_items (snapshot d h'') vs) as [ts'|] eqn:Hsp; [|discriminate].
    intros [= <-].
    rewrite (IHd _ _ _ _ Hv h'' t
               (extends_trans _ _ _ (extends_app ha e) Hext) Hsv).
    now rewrite (IH _ _ _ Hvs h'' ts' Hext Hsp).
Qed.
End ReadsStep.

(** Once [deepClone] has returned, the copy reads as the original does, in
    the heap it left and in every heap that extends it. *)
Lemma deepClone_reads d : forall h v v' h',
  deepClone d v h = Some (v', h') ->
  forall h'' t, extends h' h'' -> snapshot d h'' v = Some t -> snapshot d h'' v' = Some t.
Proof.
  induction d as [|d IH]; intros h v v' h' Hc h'' t Hext Hs.
  - destruct v; simpl in Hc; try discriminate; injection Hc as <- <-; exact Hs.
  - destruct v; simpl in Hc; try (injection Hc as <- <-; exact Hs).
    destruct (h !! l) as [[props|items|time]|] eqn:Hl; [| | |discriminate].
    + destruct (clone_props (deepClone d) props h) as [[ps' h1]|] eqn:Hps; [|discriminate].
      injection Hc as <- <-.
      destruct (clone_props_fresh d (deepClone_fresh d) _ _ _ _ Hps) as (e & -> & _ & _).
      assert (Hl'' : h'' !! l = Some (Plain props)).
      { apply Hext. apply lookup_app_l_Some. now apply lookup_app_l_Some. }
      assert (Hnew : h'' !! List.length (h ++ e) = Some (Plain ps'))
        by (apply Hext; apply list_lookup_middle; reflexivity).
      simpl in Hs |- *. rewrite Hl'' in Hs. rewrite Hnew.
      destruct (snap_props (snapshot d h'') props) as [ts|] eqn:Hsp; [|discriminate].
      rewrite (clone_props_reads d IH props h ps' (h ++ e) Hps h'' ts
                 (extends_trans _ _ _ (extends_app _ _) Hext) Hsp).
      exact Hs.
    + destruct (clone_items (deepClone d) items h) as [[is' h1]|] eqn:Hps; [|discriminate].
      injection Hc as <- <-.
      destruct (clone_items_fresh d (deepClone_fresh d) _ _ _ _ Hps) as (e & -> & _ & _).
      assert (Hl'' : h'' !! l = Some (Array items)).
      { apply Hext. apply lookup_app_l_Some. now apply lookup_app_l_Some. }
      assert (Hnew : h'' !! List.length (h ++ e) = Some (Array is'))
        by (apply Hext; apply list_lookup_middle; reflexivity).
      simpl in Hs |- *. rewrite Hl'' in Hs. rewrite Hnew.
      destruct (snap_items (snapshot d h'') items) as [ts|] eqn:Hsp; [|discriminate].
      rewrite (clone_items_reads d IH items h is' (h ++ e) Hps h'' ts
                 (extends_trans _ _ _ (extends_app _ _) Hext) Hsp).
      exact Hs.
    + injection Hc as <- <-.
      assert (Hl'' : h'' !! l = Some (Date time))
        by (apply Hext; now apply lookup_app_l_Some).
      assert (Hnew : h'' !! List.length h = Some (Date time))
        by (apply Hext; apply list_lookup_middle; reflexivity).
      simpl in Hs |- *. rewrite Hl'' in Hs. now rewrite Hnew.
Qed.

(** The copy of a plain object is a plain object. *)
Lemma deepClone_plain d h v v' h' props :
  deepClone d v h = Some (v', h') -> props_of h v = Some props ->
  exists props', props_of h' v' = Some props'.
Proof.
  destruct v; try discriminate. destruct d as [|d]; [discriminate|].
  simpl. destruct (h !! l) as [[ps|items|time]|]; try discriminate.
  destruct (clone_props (deepClone d) ps h) as [[ps' h1]|]; [|discriminate].
  intros [= <- <-] _. exists ps'. simpl. now rewrite list_lookup_middle.
Qed.

Lemma snapshot_of_plain d h v props t :
  props_of h v = Some props -> snapshot d h v = Some t -> exists ts, t = TPlain ts.
Proof.
  destruct v; try discriminate. destruct d as [|d]; [discriminate|].
  simpl. destruct (h !! l) as [[ps|items|time]|]; try discriminate.
  intros _. destruct (snap_props (snapshot d h) ps) as [ts|]; [|discriminate].
  intros [= <-]. eauto.
Qed.

Lemma props_of_insert_ne h l a o :
  l <> a -> props_of (<[l := o]> h) (VRef a) = props_of h (VRef a).
Proof. intros Hne. simpl. now rewrite list_lookup_insert_ne. Qed.

Lemma pushed_last maxH hs e :
  (1 <= maxH)%nat -> exists pre, pushed maxH hs e = pre ++ [e] /\
                               (List.length pre <= List.length hs)%nat.
Proof.
  intros Hmax. unfold pushed. rewrite length_app. simpl.
  destruct (Nat.ltb_spec maxH (List.length hs + 1)).
  - destruct hs as [|e0 hs]; [simpl in *; lia|]. exists hs. simpl. split; [reflexivity | lia].
  - exists hs. split; [reflexivity | lia].
Qed.


(** What has happened when [setState] has returned. *)
Lemma setState_inv (s s' : StateService) updates source now v :
  setState depth updates source now s = Some (v, s') ->
  exists l props oldS h1 o h3 n h4,
    state s = VRef l /\ v = VRef l /\
    deepClone depth (VRef l) (heap s) = Some (oldS, h1) /\
    props_of h1 (VRef l) = Some props /\
    deepClone depth oldS (<[l := Plain (fst (apply_updates updates props []))]> h1)
      = Some (o, h3) /\
    deepClone depth (VRef l) h3 = Some (n, h4) /\
    s' = {| heap := h4; state := VRef l; subscribers := subscribers s;
            middleware := middleware s;
            history := pushed (maxHistorySize s) (history s)
                         {| entry_timestamp := now; oldState := o; newState := n;
                            entry_source := source |};
            maxHistorySize := maxHistorySize s;
            calls := calls s
                     ++ map (fun mw => Middleware mw (snd (apply_updates updates props []))
                                         source) (middleware s)
                     ++ flat_map (fun kc => notify (subscribers s) (fst kc)
                                              (new (snd kc)) (old (snd kc)))
                                 (snd (apply_updates updates props [])) |}.
Proof.
  unfold setState. destruct s as [h st subs mws hist maxH cs].
  cbn [heap state subscribers middleware history maxHistorySize calls].
  destruct (deepClone depth st h) as [[oldS h1]|] eqn:Hc1; [|discriminate].
  destruct st as [| | | | | |l]; try discriminate.
  destruct (props_of h1 (VRef l)) as [props|] eqn:Hprops; [|discriminate].
  destruct (apply_updates updates props []) as [props' changes] eqn:Hup.
  unfold saveToHistory. cbn [heap with_heap with_calls].
  destruct (deepClone depth oldS (<[l := Plain props']> h1)) as [[o h3]|] eqn:Hc3;
    [|discriminate].
  destruct (deepClone depth (VRef l) h3) as [[n h4]|] eqn:Hc4; [|discriminate].
  intros [= <- <-]. exists l, props, oldS, h1, o, h3, n, h4.
  rewrite Hup. cbn [fst snd]. repeat split; try assumption; reflexivity.
Qed.





Lemma deepClone_ref_lookup d l h v' h' :
  deepClone d (VRef l) h = Some (v', h') -> exists o, h !! l = Some o.
Proof.
  destruct d as [|d]; [discriminate|]. simpl.
  destruct (h !! l) as [o|]; [eauto | discriminate].
Qed.

Lemma pushed_last2 maxH pre1 e1 e2 :
  (2 <= maxH)%nat -> exists pre, pushed maxH (pre1 ++ [e1]) e2 = pre ++ [e1; e2].
Proof.
  intros Hmax. unfold pushed. rewrite !length_app. simpl.
  destruct (Nat.ltb_spec maxH (List.length pre1 + 1 + 1)).
  - destruct pre1 as [|e0 pre1]; [simpl in *; lia|]. exists pre1. simpl.
    now rewrite <- app_assoc.
  - exists pre1. now rewrite <- app_assoc.
Qed.

(** What a call of [setState] that returned leaves behind: the entry it
    pushed holds two plain objects allocated by the call, and its new
    snapshot reads as the state document does. *)
Lemma setState_leaves (s s' : StateService) updates source now v :
  setState depth updates source now s = Some (v, s') ->
  exists l e base ext,
    (state s = VRef l /\ v = VRef l /\ state s' = VRef l) /\
    (history s' = pushed (maxHistorySize s) (history s) e /\
     maxHistorySize s' = maxHistorySize s) /\
    (heap s' = base ++ ext /\ (l < List.length base)%nat /\
     Forall (fun o => Forall (above (List.length base)) (refs_of o)) ext) /\
    (above (List.length base) (oldState e) /\ above (List.length base) (newState e)) /\
    (exists ps, props_of (heap s') (oldState e) = Some ps) /\
    (exists ps, props_of (heap s') (VRef l) = Some ps) /\
    (forall t, snapshot depth (heap s') (VRef l) = Some t ->
               snapshot depth (heap s') (newState e) = Some t).
Proof.
  intros Hrun.
  destruct (setState_inv _ _ _ _ _ _ Hrun)
    as (l & props & oldS & h1 & o & h3 & n & h4 &
        Hst & -> & Hc1 & Hprops1 & Hc3 & Hc4 & ->).
  set (h2 := <[l := Plain (fst (apply_updates updates props []))]> h1) in *.
  destruct (deepClone_fresh depth _ _ _ _ Hc1) as (ext1 & Hh1 & Hab1 & Hcl1).
  destruct (deepClone_fresh depth _ _ _ _ Hc3) as (ext3 & Hh3 & Hab3 & Hcl3).
  destruct (deepClone_fresh depth _ _ _ _ Hc4) as (ext4 & Hh4 & Hab4 & Hcl4).
  destruct (deepClone_ref_lookup _ _ _ _ _ Hc1) as [o0 Hl0].
  assert (Hl : (l < List.length (heap s))%nat) by (eapply lookup_lt_Some; exact Hl0).
  assert (Hlen2 : List.length h2 = List.length h1) by (unfold h2; apply length_insert).
  assert (Hlen1 : (List.length (heap s) <= List.length h1)%nat)
    by (rewrite Hh1, length_app; lia).
  assert (Hlen3 : (List.length h2 <= List.length h3)%nat)
    by (rewrite Hh3, length_app; lia).
  assert (Hprops0 : props_of (heap s) (VRef l) = Some props).
  { apply props_of_lookup. apply props_of_lookup in Hprops1.
    rewrite Hh1 in Hprops1. now rewrite lookup_app_l in Hprops1 by exact Hl. }
  assert (Hold4 : exists ps, props_of h4 o = Some ps).
  { destruct (deepClone_plain _ _ _ _ _ _ Hc1 Hprops0) as [ps1 Hps1].
    destruct oldS as [| | | | | |a]; try discriminate. simpl in Hab1.
    assert (Hps2 : props_of h2 (VRef a) = Some ps1).
    { unfold h2. rewrite props_of_insert_ne by lia. exact Hps1. }
    destruct (deepClone_plain _ _ _ _ _ _ Hc3 Hps2) as [ps3 Hps3].
    exists ps3. rewrite Hh4. exact (props_of_ext _ _ _ _ (extends_app _ _) Hps3). }
  exists l, {| entry_timestamp := now; oldState := o; newState := n;
               entry_source := source |}, h2, (ext3 ++ ext4).
  cbn [heap state history maxHistorySize oldState newState].
  split; [now repeat split|]. split; [now split|].
  refine (conj (conj _ (conj _ _)) (conj (conj _ _) (conj _ (conj _ _)))).
  - rewrite Hh4, Hh3, <- app_assoc. reflexivity.
  - lia.
  - exact (closed_app _ _ ext3 ext4 Hlen3 Hcl3 Hcl4).
  - exact Hab3.
  - eapply above_le; [|exact Hab4]. exact Hlen3.
  - exact Hold4.
  - exists (fst (apply_updates updates props [])). apply props_of_lookup.
    rewrite Hh4, Hh3. apply lookup_app_l_Some, lookup_app_l_Some.
    unfold h2. apply list_lookup_insert_eq. lia.
  - intros t Ht. exact (deepClone_reads depth _ _ _ _ Hc4 h4 t (extends_refl h4) Ht).
Qed.

(** A call of [setState] leaves alone what lies above the state object in
    a part of the heap that does not refer back below it. *)
Lemma setState_keeps (s s' : StateService) updates source now v l base ext v0 :
  setState depth updates source now s = Some (v, s') ->
  state s = VRef l ->
  heap s = base ++ ext -> (l < List.length base)%nat ->
  Forall (fun o => Forall (above (List.length base)) (refs_of o)) ext ->
  above (List.length base) v0 ->
  (forall t, snapshot depth (heap s) v0 = Some t -> snapshot depth (heap s') v0 = Some t) /\
  (forall ps, props_of (heap s) v0 = Some ps -> props_of (heap s') v0 = Some ps).
Proof.
  intros Hrun Hst Hheap Hl Hcl Hab.
  destruct (setState_inv _ _ _ _ _ _ Hrun)
    as (l' & props & oldS & h1 & o & h3 & n & h4 &
        Hst' & -> & Hc1 & Hprops1 & Hc3 & Hc4 & ->).
  assert (l' = l) by congruence. subst l'.
  set (h2 := <[l := Plain (fst (apply_updates updates props []))]> h1) in *.
  destruct (deepClone_fresh depth _ _ _ _ Hc1) as (ext1 & Hh1 & Hab1 & Hcl1).
  destruct (deepClone_fresh depth _ _ _ _ Hc3) as (ext3 & Hh3 & Hab3 & Hcl3).
  destruct (deepClone_fresh depth _ _ _ _ Hc4) as (ext4 & Hh4 & Hab4 & Hcl4).
  cbn [heap].
  assert (Hext24 : extends h2 h4).
  { rewrite Hh4, Hh3. eapply extends_trans; apply extends_app. }
  assert (Hun : forall l', reach h1 v0 l' -> l' <> l).
  { intros l' Hreach. rewrite Hh1, Hheap, <- app_assoc in Hreach.
    assert (Hcl' : Forall (fun o => Forall (above (List.length base)) (refs_of o))
                     (ext ++ ext1)).
    { apply (closed_app _ (List.length (heap s))); [|exact Hcl|exact Hcl1].
      rewrite Hheap, length_app. lia. }
    pose proof (reach_fresh _ base (ext ++ ext1) v0 l' eq_refl Hcl' Hab Hreach). lia. }
  split.
  - intros t Ht. apply (snapshot_ext depth h2 h4 _ _ Hext24).
    unfold h2. rewrite snapshot_unreached by exact Hun.
    apply (snapshot_ext depth (heap s) h1); [|exact Ht]. rewrite Hh1. apply extends_app.
  - intros ps Hps. apply (props_of_ext h2 h4 _ _ Hext24).
    destruct v0 as [| | | | | |a]; try discriminate. simpl in Hab.
    unfold h2. rewrite props_of_insert_ne by lia.
    apply (props_of_ext (heap s) h1); [|exact Hps]. rewrite Hh1. apply extends_app.
Qed.

(** [undo()] with a history that ends in [previous; last]. *)
Lemma undo_runs (s : StateService) pre previous last ts oldProps :
  history s = pre ++ [previous; last] ->
  snapshot depth (heap s) (newState previous) = Some (TPlain ts) ->
  props_of (heap s) (oldState previous) = Some oldProps ->
  exists s',
    undo depth s = Some (true, s') /\
    snapshot depth (heap s') (state s') = Some (TPlain ts) /\
    history s' = pre ++ [previous] /\
    above (List.length (heap s)) (state s') /\
    exists props, props_of (heap s') (state s') = Some props.
Proof.
  intros Hhist Hsnap Hold. unfold undo.
  rewrite Hhist, length_app. simpl List.length.
  destruct (Nat.ltb_spec (List.length pre + 2) 2) as [Hlt|_]; [lia|].
  replace (List.length pre + 2 - 2)%nat with (List.length pre + 0)%nat by lia.
  rewrite nth_error_app2 by lia.
  replace (List.length pre + 0 - List.length pre)%nat with 0%nat by lia. simpl nth_error.
  destruct (deepClone_correct depth _ _ _ Hsnap) as (st & h1 & Hc & Hext & Hst).
  destruct (deepClone_fresh depth _ _ _ _ Hc) as (ext1 & _ & Hab & _).
  rewrite Hc.
  destruct (snapshot_plain depth h1 st ts Hst) as (props & Hprops & _).
  rewrite Hprops, (props_of_ext _ _ _ _ Hext Hold).
  eexists. split; [reflexivity|]. simpl.
  split; [exact Hst|]. split; [|split; [exact Hab | eauto]].
  change [previous; last] with ([previous] ++ [last]).
  rewrite app_assoc. apply removelast_last.
Qed.

(** X20: undo goes back one change, and not past the first.  After two
    calls of [setState] that returned, [undo()] returns [true] and the
    document reads as it did after the first of them; the last history entry
    is gone; and [this.state] is a new object, so the reference the second
    call returned no longer is the state.  But with an empty history, after
    one call of [setState] [undo()] returns [false] and changes nothing. *)
Theorem undo_reverts_last_change (s s1 : StateService)
    (updates1 : list (string * value)) (source1 : string) (now1 : Z) (v1 : value) :
  setState depth updates1 source1 now1 s = Some (v1, s1) ->
  (history s = [] -> undo depth s1 = Some (false, s1)) /\
  forall (s2 : StateService) (updates2 : list (string * value)) (source2 : string)
         (now2 : Z) (v2 : value) (t1 : tree),
    setState depth updates2 source2 now2 s1 = Some (v2, s2) ->
    snapshot depth (heap s1) (state s1) = Some t1 ->
    (2 <= maxHistorySize s)%nat ->
    exists s3,
      undo depth s2 = Some (true, s3) /\
      snapshot depth (heap s3) (state s3) = Some t1 /\
      history s3 = removelast (history s2) /\
      state s3 <> v2.
Proof.
  intros Hrun1.
  destruct (setState_leaves _ _ _ _ _ _ Hrun1)
    as (l & e1 & base & ext & (Hst & -> & Hst1) & (Hhist1 & Hmax1) &
        (Hheap1 & Hl & Hcl) & (Habo & Habn) & (pso & Hpso) & (ps1 & Hps1) & Hreads).
  split.
  - intros Hempty. unfold undo. rewrite Hhist1, Hempty. unfold pushed. simpl.
    now destruct (maxHistorySize s) as [|[|m]].
  - intros s2 updates2 source2 now2 v2 t1 Hrun2 Ht1 Hmax.
    rewrite Hst1 in Ht1.
    destruct (snapshot_of_plain _ _ _ _ _ Hps1 Ht1) as [ts1 ->].
    pose proof (Hreads _ Ht1) as Hn1.
    destruct (setState_keeps _ _ _ _ _ _ l base ext (newState e1)
                Hrun2 Hst1 Hheap1 Hl Hcl Habn) as [Hkeepn _].
    destruct (setState_keeps _ _ _ _ _ _ l base ext (oldState e1)
                Hrun2 Hst1 Hheap1 Hl Hcl Habo) as [_ Hkeepo].
    destruct (setState_leaves _ _ _ _ _ _ Hrun2)
      as (l' & e2 & base2 & ext2 & (Hst1' & -> & Hst2) & (Hhist2 & _) &
          (Hheap2 & Hl2 & _) & _).
    destruct (pushed_last (maxHistorySize s) (history s) e1) as (pre1 & Hpre1 & _); [lia|].
    destruct (pushed_last2 (maxHistorySize s) pre1 e1 e2 Hmax) as (pre & Hpre).
    assert (Hhist : history s2 = pre ++ [e1; e2])
      by (rewrite Hhist2, Hmax1, Hhist1, Hpre1; exact Hpre).
    destruct (undo_runs s2 pre e1 e2 ts1 pso Hhist (Hkeepn _ Hn1) (Hkeepo _ Hpso))
      as (s3 & Hundo & Hsnap3 & Hhist3 & Hab3 & (ps3 & Hps3)).
    exists s3. split; [exact Hundo|]. split; [exact Hsnap3|]. split.
    + rewrite Hhist3, Hhist. change [e1; e2] with ([e1] ++ [e2]).
      rewrite app_assoc. symmetry. apply removelast_last.
    + intros Heq. rewrite Heq in Hab3. simpl in Hab3.
      rewrite Hheap2, length_app in Hab3. lia.
Qed.
End StateHistory.

(** ** The helpers that put a new object into a slot *)
Section StateHelpers.
Import State StateUse.
Variable depth : nat.

Lemma snap_props_set {A B} (f : A -> option B) props ts k v tv :
  snap_props f props = Some ts -> f v = Some tv ->
  snap_props f (JsMap.set k v props) = Some (JsMap.set k tv ts).
Proof.
  intros Hs Hv. revert ts Hs. induction props as [|[k' v'] ps IH]; intros ts; simpl.
  - intros [= <-]. now rewrite Hv.
  - destruct (f v') as [t'|] eqn:Hv'; [|discriminate].
    destruct (snap_props f ps) as [ts'|] eqn:Hps; [|discriminate].
    intros [= <-]. simpl. destruct (String.eqb k' k); simpl.
    + now rewrite Hv, Hps.
    + now rewrite Hv', (IH _ eq_refl).
Qed.

Lemma snap_props_all {A B} (f : A -> option B) props :
  (forall v, In v (map snd props) -> exists t, f v = Some t) ->
  exists ts, snap_props f props = Some ts.
Proof.
  induction props as [|[k v] ps IH]; intros Hin; [now exists []|].
  destruct (Hin v (or_introl eq_refl)) as [tv Htv].
  destruct (IH (fun v' Hv' => Hin v' (or_intror Hv'))) as [ts Hts].
  exists ((k, tv) :: ts). simpl. now rewrite Htv, Hts.
Qed.

Lemma snap_items_all {A B} (f : A -> option B) items :
  (forall v, In v items -> exists t, f v = Some t) ->
  exists ts, snap_items f items = Some ts.
Proof.
  induction items as [|v vs IH]; intros Hin; [now exists []|].
  destruct (Hin v (or_introl eq_refl)) as [tv Htv].
  destruct (IH (fun v' Hv' => Hin v' (or_intror Hv'))) as [ts Hts].
  exists (tv :: ts). simpl. now rewrite Htv, Hts.
Qed.

Lemma snapshot_plain_inv d h l props t :
  snapshot (S d) h (VRef l) = Some t -> h !! l = Some (Plain props) ->
  exists ts, snap_props (snapshot d h) props = Some ts /\ t = TPlain ts.
Proof.
  simpl. intros Hs Hl. rewrite Hl in Hs.
  destruct (snap_props (snapshot d h) props) as [ts|]; [|discriminate].
  injection Hs as <-. eauto.
Qed.

Lemma snapshot_plain_intro d h l props ts :
  h !! l = Some (Plain props) -> snap_props (snapshot d h) props = Some ts ->
  snapshot (S d) h (VRef l) = Some (TPlain ts).
Proof. simpl. now intros -> ->. Qed.

(** What a readable value leads to is there already: objects appended to
    the heap are not reached from it. *)
Lemma reach_ext_readable h ext v l' :
  reach (h ++ ext) v l' -> forall d t, snapshot d h v = Some t -> reach h v l'.
Proof.
  induction 1 as [r|r o v l' Hr Hin _ IH]; intros d t Hs.
  - apply reach_root.
  - destruct d as [|d]; [discriminate|].
    assert (Hr' : h !! r = Some o).
    { simpl in Hs. destruct (h !! r) as [o'|] eqn:Hl; [|discriminate].
      rewrite (lookup_app_l_Some _ _ _ _ Hl) in Hr. congruence. }
    destruct (snapshot_child d h r o v t Hs Hr' Hin) as [t' Hv].
    exact (reach_field h r o v l' Hr' Hin (IH d t' Hv)).
Qed.

(** A value held by a readable reference is a reference to an object of
    the heap, or no reference. *)
Lemma readable_ref_lt d h a t : snapshot d h (VRef a) = Some t -> (a < List.length h)%nat.
Proof.
  destruct d as [|d]; [discriminate|]. simpl.
  destruct (h !! a) as [o|] eqn:Ha; [|discriminate]. intros _.
  eapply lookup_lt_Some. exact Ha.
Qed.

(** What the objects held by a readable object hold does not lead back to
    it either, and reads two levels down. *)
Lemma grandchild_unreached d h l o1 a o2 v t :
  snapshot d h (VRef l) = Some t -> h !! l = Some o1 -> In (VRef a) (refs_of o1) ->
  h !! a = Some o2 -> In v (refs_of o2) ->
  (forall l', reach h v l' -> l' <> l) /\
  exists tv, snapshot (d - 2) h v = Some tv.
Proof.
  intros Hs Hl Hin1 Ha Hin2.
  destruct (snapshot_least d h l t Hs) as (m & Hm & Hsm & Hnone).
  destruct (snapshot_child m h l o1 _ t Hsm Hl Hin1) as [ta Hta].
  destruct m as [|m]; [discriminate|].
  destruct (snapshot_child m h a o2 v ta Hta Ha Hin2) as [tv Hv].
  assert (Hnone' : snapshot m h (VRef l) = None).
  { destruct (snapshot m h (VRef l)) as [x|] eqn:Hx; [|reflexivity].
    apply snapshot_mono in Hx. congruence. }
  split.
  - intros l' Hreach. exact (readable_unreached h l v l' Hreach m tv Hv Hnone').
  - exists tv. apply (snapshot_mono_le m); [lia | exact Hv].
Qed.

Lemma strict_neq_fresh d h v n t :
  snapshot d h v = Some t -> (List.length h <= n)%nat -> strict_neq v (VRef n) = true.
Proof.
  intros Hs Hle. destruct v; try reflexivity.
  apply readable_ref_lt in Hs. unfold strict_neq. simpl.
  destruct (Nat.eqb_spec l n); [lia | reflexivity].
Qed.

Lemma prop_readable d h l props t k :
  snapshot (S d) h (VRef l) = Some t -> h !! l = Some (Plain props) ->
  exists tk, snapshot d h (prop props k) = Some tk.
Proof.
  intros Hs Hl. unfold prop. destruct (JsMap.get k props) as [v|] eqn:Hget.
  - apply (snapshot_child d h l (Plain props) v t Hs Hl). simpl.
    apply jsmap_get_Some_In in Hget. apply in_map_iff. now exists (k, v).
  - simpl. now destruct d; eauto.
Qed.

(** [this.setState({ key: obj }, source)] with a new object [obj] whose
    contents read two levels down and do not lead to the state object. *)
Lemma set_fresh_runs (s : StateService) (l : nat) (key : string) (o : object)
    (source : string) (now : Z) (props : list (string * value)) (t : tree) :
  state s = VRef l ->
  props_of (heap s) (VRef l) = Some props ->
  snapshot depth (heap s) (VRef l) = Some t ->
  (2 <= depth)%nat ->
  (forall v, In v (refs_of o) ->
     (exists tv, snapshot (depth - 2) (heap s) v = Some tv) /\
     (forall l', reach (heap s) v l' -> l' <> l)) ->
  exists s' e,
    set_fresh depth key o source now s = Some s' /\
    state s' = VRef l /\
    props_of (heap s') (VRef l)
      = Some (JsMap.set key (VRef (List.length (heap s))) props) /\
    heap s' !! List.length (heap s) = Some o /\
    (forall a, (a < List.length (heap s))%nat -> a <> l -> heap s' !! a = heap s !! a) /\
    calls s' = calls s
               ++ map (fun mw =>
                         Middleware mw
                           [(key, {| old := prop props key;
                                     new := VRef (List.length (heap s)) |})] source)
                      (middleware s)
               ++ map (fun callback =>
                         Notified key callback (VRef (List.length (heap s)))
                           (prop props key))
                      (default [] (JsMap.get key (subscribers s))) /\
    history s' = pushed (maxHistorySize s) (history s) e /\
    entry_timestamp e = now /\ entry_source e = source.
Proof.
  intros Hst Hprops Hsnap Hdepth Hheld.
  set (n := List.length (heap s)).
  set (hA := heap s ++ [o]).
  pose proof (props_of_lt _ _ _ Hprops) as Hl.
  assert (HpropsA : props_of hA (VRef l) = Some props)
    by exact (props_of_ext _ _ _ _ (extends_app _ _) Hprops).
  assert (HsnapA : snapshot depth hA (VRef l) = Some t)
    by exact (snapshot_ext _ _ _ _ _ (extends_app _ _) Hsnap).
  assert (HlA : hA !! l = Some (Plain props)) by now apply props_of_lookup.
  destruct depth as [|[|d]] eqn:Hd; [lia | lia | clear Hdepth].
  destruct (prop_readable (S d) (heap s) l props t key Hsnap
              (proj1 (props_of_lookup _ _ _) Hprops)) as [tk Htk].
  assert (Hneq : strict_neq (prop props key) (VRef n) = true)
    by exact (strict_neq_fresh _ _ _ n _ Htk (le_n _)).
  assert (Hup : apply_updates [(key, VRef n)] props []
                = (JsMap.set key (VRef n) props,
                   [(key, {| old := prop props key; new := VRef n |})]))
    by (simpl; now rewrite Hneq).
  set (hB := <[l := Plain (JsMap.set key (VRef n) props)]> hA).
  (* what the new object holds reads the same once the state object is written *)
  assert (Hnew : exists tn, snapshot (S d) hB (VRef n) = Some tn).
  { assert (HnB : hB !! n = Some o).
    { unfold hB. rewrite list_lookup_insert_ne by (unfold n; lia).
      unfold hA, n. apply list_lookup_middle. reflexivity. }
    assert (Hin : forall v, In v (refs_of o) -> exists tv, snapshot d hB v = Some tv).
    { intros v Hv. destruct (Hheld v Hv) as [[tv Htv] Hun].
      replace (S (S d) - 2)%nat with d in Htv by lia.
      exists tv. unfold hB. rewrite snapshot_unreached.
      - exact (snapshot_ext _ _ _ _ _ (extends_app _ _) Htv).
      - intros l' Hreach. apply Hun. exact (reach_ext_readable _ _ _ _ Hreach _ _ Htv). }
    simpl. rewrite HnB. destruct o as [ps|items|time]; simpl in Hin.
    - destruct (snap_props_all (snapshot d hB) ps Hin) as [ts ->]. simpl. eauto.
    - destruct (snap_items_all (snapshot d hB) items Hin) as [ts ->]. simpl. eauto.
    - eauto. }
  destruct Hnew as [tn Htn].
  (* the other slots read as before *)
  assert (Hdoc : exists t', snapshot (S (S d)) hB (VRef l) = Some t').
  { assert (Hold : exists ts, snap_props (snapshot (S d) hA) props = Some ts).
    { destruct (snapshot_plain_inv _ _ _ _ _ HsnapA HlA) as (ts & Hts & _). eauto. }
    destruct Hold as [ts Hts].
    assert (Hsame : snap_props (snapshot (S d) hB) props = Some ts).
    { rewrite <- Hts. apply snap_props_eq. intros v Hv.
      destruct (child_unreached (S (S d)) hA l (Plain props) v t HsnapA HlA Hv)
        as (_ & t' & _ & Hv1 & Hv2).
      change (S (S d) - 1)%nat with (S d) in Hv1, Hv2. rewrite Hv1. apply Hv2. }
    eexists. apply (snapshot_plain_intro (S d) hB l (JsMap.set key (VRef n) props)).
    - unfold hB. apply list_lookup_insert_eq. unfold hA. rewrite length_app. lia.
    - exact (snap_props_set _ _ _ key _ _ Hsame Htn). }
  destruct Hdoc as [t' Ht'].
  destruct (setState_runs (S (S d)) (with_heap s hA) l [(key, VRef n)] source now props t t')
    as (s' & e & ext & Hrun & (Hst' & _) & Hcalls & Hhist & (Htime & Hsrc) &
        (Hheap & _) & _);
    [exact Hst | exact HpropsA | exact HsnapA | rewrite Hup; exact Ht' |].
  rewrite Hup in Hcalls, Hheap. cbn [fst snd heap with_heap calls middleware subscribers
                                     history maxHistorySize] in *.
  exists s', e. unfold set_fresh. cbn [alloc]. fold n hA. rewrite Hrun. cbn [option_map snd].
  split; [reflexivity|]. split; [exact Hst'|].
  split; [|split; [|split; [|split]]].
  - apply props_of_lookup. rewrite Hheap. apply lookup_app_l_Some.
    apply list_lookup_insert_eq. unfold hA. rewrite length_app. lia.
  - rewrite Hheap. apply lookup_app_l_Some.
    rewrite list_lookup_insert_ne by (unfold n; lia).
    unfold hA, n. apply list_lookup_middle. reflexivity.
  - intros a Ha Hne. rewrite Hheap.
    rewrite lookup_app_l by (rewrite length_insert; unfold hA; rewrite length_app; lia).
    rewrite list_lookup_insert_ne by congruence.
    unfold hA. now rewrite lookup_app_l by exact Ha.
  - rewrite Hcalls. unfold notify. simpl. now rewrite app_nil_r.
  - split; [exact Hhist | now split].
Qed.
Lemma reach_is_ref h v l' : reach h v l' -> exists a, v = VRef a.
Proof. destruct 1; eauto. Qed.

(** A value that is no reference reads at any depth and leads nowhere. *)
Lemma immediate_held (d : nat) h l v :
  (forall a, v <> VRef a) ->
  (exists tv, snapshot d h v = Some tv) /\ (forall l', reach h v l' -> l' <> l).
Proof.
  intros Hv. split.
  - destruct v; try (destruct d; simpl; eauto; fail). now elim (Hv l0).
  - intros l' Hreach. destruct (reach_is_ref _ _ _ Hreach) as [a ->]. now elim (Hv a).
Qed.

Lemma In_jsmap_set {V} (m : list (string * V)) k v x :
  In x (map snd (JsMap.set k v m)) -> x = v \/ In x (map snd m).
Proof.
  induction m as [|[k' v'] m IH]; simpl.
  - intros [<-|[]]. now left.
  - destruct (String.eqb k' k); simpl.
    + intros [<-|H]; [now left | right; now right].
    + intros [<-|H]; [right; now left|]. destruct (IH H); [now left | right; now right].
Qed.

Lemma In_indexed items x : In x (map snd (indexed items)) -> In x items.
Proof.
  unfold indexed. intros Hin. apply in_map_iff in Hin as [[k v] [<- Hin]].
  exact (in_combine_r _ _ _ _ Hin).
Qed.

Lemma In_characters s x : In x (characters s) -> forall a, x <> VRef a.
Proof.
  unfold characters. intros Hin. apply in_map_iff in Hin as [c [<- _]]. discriminate.
Qed.

(** What [{ ...v }] copies was held by [v], or is no reference. *)
Lemma own_enumerable_held h v x :
  In x (map snd (own_enumerable h v)) ->
  (forall a, x <> VRef a) \/
  (exists a o, v = VRef a /\ h !! a = Some o /\ In x (refs_of o)).
Proof.
  destruct v; simpl; try contradiction.
  - intros Hin. left. exact (In_characters _ _ (In_indexed _ _ Hin)).
  - destruct (h !! l) as [[props|items|time]|] eqn:Hl; try contradiction.
    + intros Hin. right. exists l, (Plain props). now repeat split.
    + intros Hin. right. exists l, (Array items).
      split; [reflexivity|]. split; [exact Hl|]. now apply In_indexed.
Qed.

(** What [[...v]] iterates over was held by [v], or is no reference. *)
Lemma iterate_held h v items x :
  iterate h v = Some items -> In x items ->
  (forall a, x <> VRef a) \/
  (exists a o, v = VRef a /\ h !! a = Some o /\ In x (refs_of o)).
Proof.
  destruct v; simpl; try discriminate.
  - intros [= <-] Hin. left. exact (In_characters _ _ Hin).
  - destruct (h !! l) as [[props|items'|time]|] eqn:Hl; try discriminate.
    intros [= <-] Hin. right. exists l, (Array items').
    split; [reflexivity|]. split; [exact Hl | exact Hin].
Qed.

Lemma without_id_In h id items kept x :
  without_id h id items = Some kept -> In x kept -> In x items.
Proof.
  revert kept. induction items as [|item rest IH]; intros kept; simpl.
  - intros [= <-] [].
  - destruct (id_of h item) as [i|]; [|discriminate].
    destruct (without_id h id rest) as [kept'|]; [|discriminate].
    intros [= <-]. destruct (strict_neq i id); simpl.
    + intros [<-|Hin]; [now left | right; now apply (IH kept')].
    + intros Hin. right. now apply (IH kept').
Qed.

Lemma filter_out_held h v id kept x :
  filter_out h v id = Some kept -> In x kept ->
  exists a o, v = VRef a /\ h !! a = Some o /\ In x (refs_of o).
Proof.
  destruct v; simpl; try discriminate.
  destruct (h !! l) as [[props|items|time]|] eqn:Hl; try discriminate.
  intros Hk Hin. exists l, (Array items).
  split; [reflexivity|]. split; [exact Hl|].
  exact (without_id_In _ _ _ _ _ Hk Hin).
Qed.

(** What the object in a slot of the state document holds reads two
    levels down and does not lead back to the document. *)
Lemma slot_contents_held (s : StateService) l props t key a o x :
  props_of (heap s) (VRef l) = Some props ->
  snapshot depth (heap s) (VRef l) = Some t ->
  prop props key = VRef a -> heap s !! a = Some o -> In x (refs_of o) ->
  (exists tv, snapshot (depth - 2) (heap s) x = Some tv) /\
  (forall l', reach (heap s) x l' -> l' <> l).
Proof.
  intros Hprops Hsnap Hslot Ha Hin.
  assert (Hheld : In (VRef a) (refs_of (Plain props))).
  { simpl. unfold prop in Hslot.
    destruct (JsMap.get key props) as [v|] eqn:Hget; [|discriminate]. simpl in Hslot.
    subst v. apply jsmap_get_Some_In in Hget. apply in_map_iff. now exists (key, VRef a). }
  destruct (grandchild_unreached depth (heap s) l (Plain props) a o x t Hsnap
              (proj1 (props_of_lookup _ _ _) Hprops) Hheld Ha Hin) as [Hun Hread].
  now split.
Qed.

(** The object in a slot of a readable document is not the document. *)
Lemma slot_object_kept (s : StateService) l props t key a :
  props_of (heap s) (VRef l) = Some props ->
  snapshot depth (heap s) (VRef l) = Some t ->
  prop props key = VRef a ->
  (a < List.length (heap s))%nat /\ a <> l.
Proof.
  intros Hprops Hsnap Hslot.
  assert (Hheld : In (VRef a) (refs_of (Plain props))).
  { simpl. unfold prop in Hslot.
    destruct (JsMap.get key props) as [v|] eqn:Hget; [|discriminate]. simpl in Hslot.
    subst v. apply jsmap_get_Some_In in Hget. apply in_map_iff. now exists (key, VRef a). }
  destruct (child_unreached depth (heap s) l (Plain props) (VRef a) t Hsnap
              (proj1 (props_of_lookup _ _ _) Hprops) Hheld)
    as (Hun & t' & _ & Ht' & _).
  split; [exact (readable_ref_lt _ _ _ _ Ht') | exact (Hun a (reach_root _ a))].
Qed.

(** X21: [clearCart()] and [clearFilters()] put a new object into their
    slot every time, so each call counts as a change even when the cart is
    empty or the filters are the defaults already: every subscriber of the
    slot is called, after each middleware, with the new object and the old
    value, and the history gets an entry. *)
Theorem clear_always_notifies (s : StateService) (l : nat) (now : Z)
    (props : list (string * value)) (t : tree) :
  state s = VRef l ->
  props_of (heap s) (VRef l) = Some props ->
  snapshot depth (heap s) (VRef l) = Some t ->
  (2 <= depth)%nat ->
  let n := List.length (heap s) in
  (exists s' e,
      clearCart depth now s = Some s' /\
      getState depth (Some "cart") s' = Some (VRef n, s') /\
      heap s' !! n = Some (Array []) /\
      calls s' = calls s
                 ++ map (fun mw =>
                           Middleware mw [("cart", {| old := prop props "cart";
                                                      new := VRef n |})] "clear-cart")
                        (middleware s)
                 ++ map (fun callback => Notified "cart" callback (VRef n)
                                           (prop props "cart"))
                        (default [] (JsMap.get "cart" (subscribers s))) /\
      history s' = pushed (maxHistorySize s) (history s) e) /\
  (exists s' e,
      clearFilters depth now s = Some s' /\
      getState depth (Some "filters") s' = Some (VRef n, s') /\
      heap s' !! n
      = Some (Plain [("category", VStr EmptyString); ("price", VStr EmptyString);
                     ("search", VStr EmptyString); ("sort", VStr "newest")]) /\
      calls s' = calls s
                 ++ map (fun mw =>
                           Middleware mw [("filters", {| old := prop props "filters";
                                                         new := VRef n |})] "clear-filters")
                        (middleware s)
                 ++ map (fun callback => Notified "filters" callback (VRef n)
                                           (prop props "filters"))
                        (default [] (JsMap.get "filters" (subscribers s))) /\
      history s' = pushed (maxHistorySize s) (history s) e).
Proof.
  intros Hst Hprops Hsnap Hdepth n. split.
  - destruct (set_fresh_runs s l "cart" (Array []) "clear-cart" now props t
                Hst Hprops Hsnap Hdepth)
      as (s' & e & Hrun & Hst' & Hprops' & Hnew & _ & Hcalls & Hhist & _);
      [intros v []|].
    exists s', e. split; [exact Hrun|]. split; [|now repeat split].
    rewrite (getState_slot depth s' l "cart" _ ltac:(discriminate) Hst'
               (proj1 (props_of_lookup _ _ _) Hprops')).
    now rewrite prop_set_eq.
  - destruct (set_fresh_runs s l "filters"
                (Plain [("category", VStr EmptyString); ("price", VStr EmptyString);
                        ("search", VStr EmptyString); ("sort", VStr "newest")])
                "clear-filters" now props t Hst Hprops Hsnap Hdepth)
      as (s' & e & Hrun & Hst' & Hprops' & Hnew & _ & Hcalls & Hhist & _).
    { intros v Hv. apply immediate_held. intros a ->.
      simpl in Hv. repeat (destruct Hv as [Hv|Hv]; [discriminate|]). exact Hv. }
    exists s', e. split; [exact Hrun|]. split; [|now repeat split].
    rewrite (getState_slot depth s' l "filters" _ ltac:(discriminate) Hst'
               (proj1 (props_of_lookup _ _ _) Hprops')).
    now rewrite prop_set_eq.
Qed.

(** X22: [setFilter(key, value)] never writes to the filters object: it
    puts a copy with the one key set into the slot and leaves the old
    object as it was.  So the subscribers of [filters] are called on every
    call, also when the filter already had that value. *)
Theorem setFilter_copies (s : StateService) (l : nat) (key : string) (v : value) (now : Z)
    (props : list (string * value)) (t : tree) :
  state s = VRef l ->
  props_of (heap s) (VRef l) = Some props ->
  snapshot depth (heap s) (VRef l) = Some t ->
  (2 <= depth)%nat ->
  (exists tv, snapshot (depth - 2) (heap s) v = Some tv) ->
  (forall l', reach (heap s) v l' -> l' <> l) ->
  let n := List.length (heap s) in
  exists s' e,
    setFilter depth key v now s = Some s' /\
    getState depth (Some "filters") s' = Some (VRef n, s') /\
    heap s' !! n
    = Some (Plain (JsMap.set key v (own_enumerable (heap s) (prop props "filters")))) /\
    (forall a, prop props "filters" = VRef a -> heap s' !! a = heap s !! a) /\
    calls s' = calls s
               ++ map (fun mw =>
                         Middleware mw [("filters", {| old := prop props "filters";
                                                       new := VRef n |})] "set-filter")
                      (middleware s)
               ++ map (fun callback => Notified "filters" callback (VRef n)
                                         (prop props "filters"))
                      (default [] (JsMap.get "filters" (subscribers s))) /\
    history s' = pushed (maxHistorySize s) (history s) e.
Proof.
  intros Hst Hprops Hsnap Hdepth Hv Hun n.
  destruct (set_fresh_runs s l "filters"
              (Plain (JsMap.set key v (own_enumerable (heap s) (prop props "filters"))))
              "set-filter" now props t Hst Hprops Hsnap Hdepth)
    as (s' & e & Hrun & Hst' & Hprops' & Hnew & Hkept & Hcalls & Hhist & _).
  { intros x Hx. simpl in Hx. apply In_jsmap_set in Hx as [->|Hx]; [now split|].
    apply own_enumerable_held in Hx as [Himm|(a & o & Hslot & Ha & Hin)].
    - now apply immediate_held.
    - exact (slot_contents_held s l props t "filters" a o x Hprops Hsnap Hslot Ha Hin). }
  exists s', e. unfold setFilter. rewrite Hst, Hprops. split; [exact Hrun|].
  split; [|split; [exact Hnew|split; [|now split]]].
  - rewrite (getState_slot depth s' l "filters" _ ltac:(discriminate) Hst'
               (proj1 (props_of_lookup _ _ _) Hprops')).
    now rewrite prop_set_eq.
  - intros a Hslot.
    destruct (slot_object_kept s l props t "filters" a Hprops Hsnap Hslot) as [Hlt Hne].
    now apply Hkept.
Qed.

(** X23: [addProduct(product)] throws when the products slot holds nothing
    iterable; otherwise it puts a new array into the slot, with the product
    after what was there, and leaves the old array as it was; the subscribers
    of [products] are called with the new array and the old value. *)
Theorem addProduct_appends (s : StateService) (l : nat) (product : value) (now : Z)
    (props : list (string * value)) (t : tree) :
  state s = VRef l ->
  props_of (heap s) (VRef l) = Some props ->
  snapshot depth (heap s) (VRef l) = Some t ->
  (2 <= depth)%nat ->
  (exists tv, snapshot (depth - 2) (heap s) product = Some tv) ->
  (forall l', reach (heap s) product l' -> l' <> l) ->
  let n := List.length (heap s) in
  (iterate (heap s) (prop props "products") = None ->
   addProduct depth product now s = None) /\
  forall items,
    iterate (heap s) (prop props "products") = Some items ->
    exists s' e,
      addProduct depth product now s = Some s' /\
      getState depth (Some "products") s' = Some (VRef n, s') /\
      heap s' !! n = Some (Array (items ++ [product])) /\
      (forall a, prop props "products" = VRef a -> heap s' !! a = heap s !! a) /\
      calls s' = calls s
                 ++ map (fun mw =>
                           Middleware mw [("products", {| old := prop props "products";
                                                          new := VRef n |})] "add-product")
                        (middleware s)
                 ++ map (fun callback => Notified "products" callback (VRef n)
                                           (prop props "products"))
                        (default [] (JsMap.get "products" (subscribers s))) /\
      history s' = pushed (maxHistorySize s) (history s) e.
Proof.
  intros Hst Hprops Hsnap Hdepth Hv Hun n. unfold addProduct. rewrite Hst, Hprops. split.
  - now intros ->.
  - intros items Hit. rewrite Hit.
    destruct (set_fresh_runs s l "products" (Array (items ++ [product]))
                "add-product" now props t Hst Hprops Hsnap Hdepth)
      as (s' & e & Hrun & Hst' & Hprops' & Hnew & Hkept & Hcalls & Hhist & _).
    { intros x Hx. simpl in Hx. apply in_app_or in Hx as [Hx|[<-|[]]]; [|now split].
      destruct (iterate_held _ _ _ _ Hit Hx) as [Himm|(a & o & Hslot & Ha & Hin)].
      - now apply immediate_held.
      - exact (slot_contents_held s l props t "products" a o x Hprops Hsnap Hslot Ha Hin). }
    exists s', e. split; [exact Hrun|].
    split; [|split; [exact Hnew|split; [|now split]]].
    + rewrite (getState_slot depth s' l "products" _ ltac:(discriminate) Hst'
                 (proj1 (props_of_lookup _ _ _) Hprops')).
      now rewrite prop_set_eq.
    + intros a Hslot.
      destruct (slot_object_kept s l props t "products" a Hprops Hsnap Hslot) as [Hlt Hne].
      now apply Hkept.
Qed.

(** What [filter(item => item.id !== id)] keeps. *)
Lemma without_id_spec h id items kept :
  without_id h id items = Some kept ->
  Forall (fun item => id_of h item <> None) items /\
  kept = List.filter (fun item => match id_of h item with
                                  | Some i => strict_neq i id
                                  | None => false
                                  end) items.
Proof.
  revert kept. induction items as [|item rest IH]; intros kept; simpl.
  - intros [= <-]. split; [constructor | reflexivity].
  - destruct (id_of h item) as [i|] eqn:Hi; [|discriminate].
    destruct (without_id h id rest) as [kept'|]; [|discriminate].
    intros [= <-]. destruct (IH kept' eq_refl) as [Hall ->]. split.
    + constructor; [congruence | exact Hall].
    + now destruct (strict_neq i id).
Qed.

(** X24: [removeFromCart(id)] throws when the cart is no array or holds
    [null] or [undefined]; otherwise it puts a new array into the slot, with
    the items whose [id] is not strictly equal to the one given, in order,
    and leaves the old array as it was.  It counts as a change, and the
    subscribers of [cart] are called, also when no item had that id. *)
Theorem removeFromCart_filters (s : StateService) (l : nat) (id : value) (now : Z)
    (props : list (string * value)) (t : tree) :
  state s = VRef l ->
  props_of (heap s) (VRef l) = Some props ->
  snapshot depth (heap s) (VRef l) = Some t ->
  (2 <= depth)%nat ->
  let n := List.length (heap s) in
  (filter_out (heap s) (prop props "cart") id = None ->
   removeFromCart depth id now s = None) /\
  forall a items,
    prop props "cart" = VRef a -> heap s !! a = Some (Array items) ->
    Forall (fun item => id_of (heap s) item <> None) items ->
    exists s' e,
      removeFromCart depth id now s = Some s' /\
      getState depth (Some "cart") s' = Some (VRef n, s') /\
      heap s' !! n
      = Some (Array (List.filter (fun item => match id_of (heap s) item with
                                              | Some i => strict_neq i id
                                              | None => false
                                              end) items)) /\
      heap s' !! a = Some (Array items) /\
      calls s' = calls s
                 ++ map (fun mw =>
                           Middleware mw [("cart", {| old := VRef a; new := VRef n |})]
                             "remove-from-cart")
                        (middleware s)
                 ++ map (fun callback => Notified "cart" callback (VRef n) (VRef a))
                        (default [] (JsMap.get "cart" (subscribers s))) /\
      history s' = pushed (maxHistorySize s) (history s) e.
Proof.
  intros Hst Hprops Hsnap Hdepth n. unfold removeFromCart. rewrite Hst, Hprops. split.
  - now intros ->.
  - intros a items Hslot Ha Hids.
    assert (Hkept : exists kept, without_id (heap s) id items = Some kept).
    { clear Ha. induction items as [|item rest IH]; [now exists []|].
      apply Forall_cons_iff in Hids as [Hitem Hrest]. destruct (IH Hrest) as [kept Hk].
      simpl. destruct (id_of (heap s) item) as [i|]; [|now elim Hitem].
      rewrite Hk. eauto. }
    destruct Hkept as [kept Hk].
    assert (Hout : filter_out (heap s) (prop props "cart") id = Some kept)
      by (rewrite Hslot; simpl; now rewrite Ha).
    rewrite Hout.
    destruct (set_fresh_runs s l "cart" (Array kept) "remove-from-cart" now props t
                Hst Hprops Hsnap Hdepth)
      as (s' & e & Hrun & Hst' & Hprops' & Hnew & Hsame & Hcalls & Hhist & _).
    { intros x Hx. simpl in Hx.
      destruct (filter_out_held _ _ _ _ _ Hout Hx) as (a' & o & Hslot' & Ha' & Hin).
      exact (slot_contents_held s l props t "cart" a' o x Hprops Hsnap Hslot' Ha' Hin). }
    exists s', e. split; [exact Hrun|].
    destruct (slot_object_kept s l props t "cart" a Hprops Hsnap Hslot) as [Hlt Hne].
    destruct (without_id_spec _ _ _ _ Hk) as [_ Hfilter].
    split; [|split; [|split; [|split; [|exact Hhist]]]].
    + rewrite (getState_slot depth s' l "cart" _ ltac:(discriminate) Hst'
                 (proj1 (props_of_lookup _ _ _) Hprops')).
      now rewrite prop_set_eq.
    + unfold n. rewrite Hnew, Hfilter. reflexivity.
    + rewrite (Hsame a Hlt Hne). exact Ha.
    + rewrite Hcalls, Hslot. reflexivity.
Qed.
End StateHelpers.

(** ** The state service in use, on concrete stores *)
Section StateUseExamples.
Import State StateUse.



(** Two logins and an undo on the store as constructed. *)
Lemma undo_reverts_last_change_witness :
  exists s1 s2 s3,
    setState 3 [("currentUser", VStr "ann")] "login" 1 create = Some (VRef 8, s1) /\
    undo 3 s1 = Some (false, s1) /\
    setState 3 [("currentUser", VStr "bob")] "login" 2 s1 = Some (VRef 8, s2) /\
    undo 3 s2 = Some (true, s3) /\
    snapshot 3 (heap s3) (state s3) = snapshot 3 (heap s1) (state s1) /\
    state s3 <> VRef 8.
Proof.
  destruct (setState 3 [("currentUser", VStr "ann")] "login" 1 create)
    as [[v1 s1]|] eqn:Hrun1; [|vm_compute in Hrun1; discriminate].
  assert (Hv1 : v1 = VRef 8) by (vm_compute in Hrun1; now injection Hrun1 as <- _).
  subst v1.
  destruct (undo_reverts_last_change 3 create s1 _ _ _ _ Hrun1) as [Hfirst Hsecond].
  destruct (setState 3 [("currentUser", VStr "bob")] "login" 2 s1)
    as [[v2 s2]|] eqn:Hrun2;
    [|vm_compute in Hrun1; injection Hrun1 as <-; vm_compute in Hrun2; discriminate].
  assert (Hv2 : v2 = VRef 8).
  { vm_compute in Hrun1. injection Hrun1 as <-. vm_compute in Hrun2.
    now injection Hrun2 as <- _. }
  subst v2.
  assert (Ht1 : exists t1, snapshot 3 (heap s1) (state s1) = Some t1).
  { vm_compute in Hrun1. injection Hrun1 as <-. vm_compute. eexists. reflexivity. }
  destruct Ht1 as [t1 Ht1].
  destruct (Hsecond s2 _ _ _ _ t1 Hrun2 Ht1 ltac:(simpl; lia))
    as (s3 & Hundo & Hsnap3 & _ & Hne).
  exists s1, s2, s3. split; [reflexivity|]. split; [now apply Hfirst|].
  split; [exact Hrun2|]. split; [exact Hundo|]. split; [congruence | exact Hne].
Defined.

(** The empty cart of the store as constructed, cleared. *)
Lemma clear_always_notifies_witness :
  let s := subscribe "cart" 1 create in
  exists s',
    clearCart 3 5 s = Some s' /\
    getState 3 (Some "cart") s' = Some (VRef 9, s') /\
    heap s' !! 3%nat = Some (Array []) /\ heap s' !! 9%nat = Some (Array []) /\
    calls s' = [Notified "cart" 1 (VRef 9) (VRef 3)].
Proof.
  intros s.
  edestruct (clear_always_notifies 3 s 8 5) as [(s' & e & Hrun & Hget & Hnew & Hcalls & _) _].
  - reflexivity.
  - vm_compute. reflexivity.
  - vm_compute. reflexivity.
  - lia.
  - exists s'. split; [exact Hrun|]. split; [exact Hget|].
    split; [|split; [exact Hnew | exact Hcalls]].
    assert (Hrun' : clearCart 3 5 s = Some s') by exact Hrun.
    vm_compute in Hrun'. injection Hrun' as <-. reflexivity.
Defined.

(** The sort order set to what it is already. *)
Lemma setFilter_copies_witness :
  let s := subscribe "filters" 1 create in
  exists s',
    setFilter 3 "sort" (VStr "newest") 5 s = Some s' /\
    heap s' !! 9%nat = heap s !! 4%nat /\
    getState 3 (Some "filters") s' = Some (VRef 9, s') /\
    calls s' = [Notified "filters" 1 (VRef 9) (VRef 4)].
Proof.
  intros s.
  edestruct (setFilter_copies 3 s 8 "sort" (VStr "newest") 5)
    as (s' & e & Hrun & Hget & Hnew & _ & Hcalls & _).
  - reflexivity.
  - vm_compute. reflexivity.
  - vm_compute. reflexivity.
  - lia.
  - eexists. reflexivity.
  - intros l' Hreach. destruct (reach_is_ref _ _ _ Hreach) as [a Ha]. discriminate.
  - exists s'. split; [exact Hrun|]. split; [etransitivity; [exact Hnew | reflexivity]|].
    split; [exact Hget | exact Hcalls].
Defined.

(** A product added to the store as constructed, and one added to a store
    whose products slot holds [null]. *)
Lemma addProduct_appends_witness :
  let s := with_heap create (heap create ++ [Plain [("id", VNum 1)]]) in
  let broken := with_heap create (<[8%nat := Plain [("products", VNull)]]> (heap create)) in
  (exists s',
      addProduct 3 (VRef 9) 5 s = Some s' /\
      heap s' !! 10%nat = Some (Array [VRef 9]) /\
      heap s' !! 0%nat = Some (Array [])) /\
  addProduct 3 (VNum 1) 5 broken = None.
Proof.
  intros s broken. split.
  - edestruct (addProduct_appends 3 s 8 (VRef 9) 5) as [_ Hadd].
    + reflexivity.
    + vm_compute. reflexivity.
    + vm_compute. reflexivity.
    + lia.
    + eexists. vm_compute. reflexivity.
    + intros l' Hreach. inversion Hreach as [|? ? ? ? Hl Hin Hrest]; subst; [discriminate|].
      vm_compute in Hl. injection Hl as <-. simpl in Hin. destruct Hin as [<-|[]].
      destruct (reach_is_ref _ _ _ Hrest) as [a Ha]. discriminate.
    + destruct (Hadd [] eq_refl) as (s' & e & Hrun & _ & Hnew & Hkept & _).
      exists s'. split; [exact Hrun|]. split; [exact Hnew|].
      rewrite (Hkept 0%nat eq_refl). reflexivity.
  - edestruct (addProduct_appends 3 broken 8 (VNum 1) 5) as [Hthrows _].
    + reflexivity.
    + vm_compute. reflexivity.
    + vm_compute. reflexivity.
    + lia.
    + eexists. reflexivity.
    + intros l' Hreach. destruct (reach_is_ref _ _ _ Hreach) as [a Ha]. discriminate.
    + apply Hthrows. reflexivity.
Defined.

(** A cart of two items, and an id that neither has. *)
Lemma removeFromCart_filters_witness :
  let h := <[3%nat := Array [VRef 9; VRef 10]]>
             (heap create ++ [Plain [("id", VNum 1)]; Plain [("id", VNum 2)]]) in
  let s := subscribe "cart" 1 (with_heap create h) in
  (exists s',
      removeFromCart 3 (VNum 1) 5 s = Some s' /\
      heap s' !! 11%nat = Some (Array [VRef 10]) /\
      heap s' !! 3%nat = Some (Array [VRef 9; VRef 10])) /\
  (exists s',
      removeFromCart 3 (VStr "1") 5 s = Some s' /\
      heap s' !! 11%nat = Some (Array [VRef 9; VRef 10]) /\
      calls s' = [Notified "cart" 1 (VRef 11) (VRef 3)]).
Proof.
  intros h s. split.
  - edestruct (removeFromCart_filters 3 s 8 (VNum 1) 5) as [_ Hremove].
    + reflexivity.
    + vm_compute. reflexivity.
    + vm_compute. reflexivity.
    + lia.
    + destruct (Hremove 3%nat [VRef 9; VRef 10] eq_refl eq_refl)
        as (s' & e & Hrun & _ & Hnew & Hold & _).
      { repeat constructor; discriminate. }
      exists s'. split; [exact Hrun|]. split; [exact Hnew | exact Hold].
  - edestruct (removeFromCart_filters 3 s 8 (VStr "1") 5) as [_ Hremove].
    + reflexivity.
    + vm_compute. reflexivity.
    + vm_compute. reflexivity.
    + lia.
    + destruct (Hremove 3%nat [VRef 9; VRef 10] eq_refl eq_refl)
        as (s' & e & Hrun & _ & Hnew & _ & Hcalls & _).
      { repeat constructor; discriminate. }
      exists s'. split; [exact Hrun|]. split; [exact Hnew | exact Hcalls].
Defined.
End StateUseExamples.

(** ** Pagination *)
Section Pagination.
Import Products.

Lemma ceil_div_bounds (a b : Z) :
  0 < b -> (ceil_div a b - 1) * b < a <= ceil_div a b * b.
Proof.
  intros Hb. unfold ceil_div.
  pose proof (Z.div_mod (- a) b ltac:(lia)) as Hdm.
  pose proof (Z.mod_pos_bound (- a) b Hb) as Hmod. nia.
Qed.

Lemma pageProducts_chunk {A} (p : pagination) (l : list A) :
  0 < itemsPerPage p -> 1 <= currentPage p ->
  pageProducts p l
  = firstn (Z.to_nat (itemsPerPage p))
      (skipn (Z.to_nat ((currentPage p - 1) * itemsPerPage p)) l).
Proof.
  intros Hb Hi. unfold pageProducts, slice.
  set (b := itemsPerPage p) in *. set (start := (currentPage p - 1) * b).
  set (n := Z.of_nat (List.length l)).
  assert (Hstart : 0 <= start) by (unfold start; nia).
  destruct (Z.ltb_spec start 0) as [|_]; [lia|].
  destruct (Z.ltb_spec (start + b) 0) as [|_]; [lia|].
  destruct (Z.le_gt_cases n start) as [Hout|Hin].
  - rewrite Z.min_r by lia.
    rewrite !skipn_all2 by (unfold n in *; lia). now rewrite !firstn_nil.
  - rewrite (Z.min_l start n) by lia.
    destruct (Z.le_gt_cases (start + b) n) as [Hfull|Hlast].
    + rewrite Z.min_l by lia. f_equal. lia.
    + rewrite Z.min_r by lia.
      rewrite !firstn_all2; [reflexivity| |]; rewrite length_skipn; unfold n in *; lia.
Qed.

Lemma chunks_concat {A} (b : nat) :
  forall (m : nat) (l : list A),
    (List.length l <= m * b)%nat ->
    concat (map (fun k => firstn b (skipn (k * b) l)) (seq 0 m)) = l.
Proof.
  induction m as [|m IH]; intros l Hlen.
  - destruct l; [reflexivity | simpl in Hlen; lia].
  - change (seq 0 (S m)) with (0%nat :: seq 1 m). cbn [map concat].
    rewrite <- seq_shift, map_map. rewrite skipn_O.
    rewrite (map_ext (fun k => firstn b (skipn (S k * b) l))
                     (fun k => firstn b (skipn (k * b) (skipn b l)))).
    + rewrite IH by (rewrite length_skipn; simpl in Hlen; lia). apply firstn_skipn.
    + intros k. rewrite skipn_skipn. f_equal. f_equal. simpl. lia.
Qed.

Lemma goToPage_in_range (i : Z) (p : pagination) :
  1 <= i <= totalPages p ->
  goToPage i p = {| currentPage := i; itemsPerPage := itemsPerPage p;
                    totalItems := totalItems p; totalPages := totalPages p |}.
Proof.
  intros Hi. unfold goToPage.
  destruct (Z.ltb_spec i 1); [lia|]. destruct (Z.ltb_spec (totalPages p) i); [lia|].
  reflexivity.
Qed.

Lemma paginate_again (n : nat) (i : Z) (p : pagination) :
  1 <= i <= totalPages (paginate n p) ->
  paginate n (goToPage i (paginate n p))
  = {| currentPage := i; itemsPerPage := itemsPerPage p;
       totalItems := Z.of_nat n; totalPages := totalPages (paginate n p) |}.
Proof.
  intros Hi. rewrite (goToPage_in_range i _ Hi). unfold paginate at 1.
  cbn [currentPage itemsPerPage totalItems totalPages paginate] in *.
  destruct (Z.ltb_spec (ceil_div (Z.of_nat n) (itemsPerPage p)) i); [lia | reflexivity].
Qed.

(** X25: once [applyFilters] has set the pagination for a list, the pages
    1 to [totalPages] show every product of the list exactly once, in order:
    [goToPage(i)], which ends by applying the filters again, shows at least
    one product and at most [itemsPerPage], and put one after the other the
    pages are the list. *)
Theorem pages_partition {A : Type} (l : list A) (p : pagination) :
  0 < itemsPerPage p ->
  let p' := paginate (List.length l) p in
  let shown := fun i => pageProducts (paginate (List.length l) (goToPage i p')) l in
  concat (map shown (range 1 (totalPages p'))) = l /\
  forall i, 1 <= i <= totalPages p' ->
    (1 <= List.length (shown i))%nat /\ Z.of_nat (List.length (shown i)) <= itemsPerPage p.
Proof.
  intros Hb p' shown.
  set (b := itemsPerPage p) in *. set (n := Z.of_nat (List.length l)).
  assert (Htotal : totalPages p' = ceil_div n b) by reflexivity.
  pose proof (ceil_div_bounds n b Hb) as Hbounds. rewrite <- Htotal in Hbounds.
  assert (Hpage : forall i, 1 <= i <= totalPages p' ->
            shown i = firstn (Z.to_nat b) (skipn (Z.to_nat (i - 1) * Z.to_nat b) l)).
  { intros i Hi. unfold shown, p'. rewrite (paginate_again _ i p Hi).
    rewrite pageProducts_chunk by (simpl; lia). cbn [currentPage itemsPerPage].
    fold b. f_equal. f_equal. apply Z2Nat.inj_mul; lia. }
  split.
  - unfold range. rewrite map_map.
    rewrite (map_ext_in _ (fun k => firstn (Z.to_nat b) (skipn (k * Z.to_nat b) l))).
    + apply chunks_concat. unfold n in *. nia.
    + intros k Hk. apply in_seq in Hk. rewrite Hpage by lia.
      f_equal. f_equal. lia.
  - intros i Hi. rewrite (Hpage i Hi). rewrite length_firstn, length_skipn.
    unfold n in *. split; nia.
Qed.

(** Twenty-five products, twelve to a page. *)
Lemma pages_partition_witness :
  let l := seq 1 25 in
  let p := paginate 25 initial in
  let shown := fun i => pageProducts (paginate 25 (goToPage i p)) l in
  totalPages p = 3 /\
  map shown [1; 2; 3] = [seq 1 12; seq 13 12; [25%nat]] /\
  concat (map shown (range 1 (totalPages p))) = l.
Proof.
  intros l p shown. split; [reflexivity|]. split; [reflexivity|].
  exact (proj1 (pages_partition l initial ltac:(simpl; lia))).
Defined.

Lemma after_snoc l e : after (l ++ [e]) = on (after l) e.
Proof. unfold after. now rewrite fold_left_app. Qed.

(** Wherever the constructor, the subscriber of [products], [applyFilters]
    and [goToPage] leave the pagination, there are twelve products to a page
    and the current page is at least 1 and at most [totalPages] (or 1 when
    there is no page). *)
Lemma after_in_range (l : list event) :
  itemsPerPage (after l) = 12 /\
  1 <= currentPage (after l) <= Z.max 1 (totalPages (after l)).
Proof.
  induction l as [|e l IH] using rev_ind; [simpl; lia|].
  rewrite after_snoc. destruct IH as [Hipp Hcur]. destruct e as [n|n|i]; simpl.
  - split; [exact Hipp | lia].
  - split; [exact Hipp|].
    destruct (Z.ltb_spec (ceil_div (Z.of_nat n) (itemsPerPage (after l)))
                (currentPage (after l))); lia.
  - unfold goToPage.
    destruct (Z.ltb_spec i 1); [now split|].
    destruct (Z.ltb_spec (totalPages (after l)) i); [now split|].
    simpl. split; [exact Hipp | lia].
Qed.

(** X26: the page [renderProducts] shows is never empty when there is a
    product to show.  Whatever happened to the pagination before, once
    [applyFilters] has set it for a list that is not empty, the current page
    lies between 1 and [totalPages] and holds between one and twelve
    products of the list. *)
Theorem page_never_empty {A : Type} (before : list event) (l : list A) :
  l <> [] ->
  let p := after (before ++ [FiltersApplied (List.length l)]) in
  1 <= currentPage p <= totalPages p /\
  pageProducts p l <> [] /\
  (List.length (pageProducts p l) <= 12)%nat.
Proof.
  intros Hl p.
  destruct (after_in_range (before ++ [FiltersApplied (List.length l)])) as [Hipp Hcur].
  fold p in Hipp, Hcur.
  assert (Hn : (1 <= List.length l)%nat) by (destruct l; [congruence | simpl; lia]).
  assert (Htotal : totalPages p = ceil_div (Z.of_nat (List.length l)) 12).
  { unfold p. rewrite after_snoc. simpl.
    now rewrite (proj1 (after_in_range before)). }
  pose proof (ceil_div_bounds (Z.of_nat (List.length l)) 12 ltac:(lia)) as Hbounds.
  rewrite <- Htotal in Hbounds.
  assert (Hrange : 1 <= currentPage p <= totalPages p) by lia.
  split; [exact Hrange|].
  rewrite pageProducts_chunk by lia. rewrite Hipp.
  assert (Hlen : (1 <= List.length (firstn (Z.to_nat 12)
                   (skipn (Z.to_nat ((currentPage p - 1) * 12)) l)) <= 12)%nat).
  { rewrite length_firstn, length_skipn. lia. }
  split; [|lia]. intros Hnil. rewrite Hnil in Hlen. simpl in Hlen. lia.
Qed.

(** The user is on page 3 of 3 when the filters leave 13 products. *)
Lemma page_never_empty_witness :
  let l := seq 1 13 in
  let before := [ProductsChanged 30; FiltersApplied 30; WentTo 3] in
  currentPage (after before) = 3 /\
  currentPage (after (before ++ [FiltersApplied 13])) = 2 /\
  pageProducts (after (before ++ [FiltersApplied 13])) l = [13%nat].
Proof.
  intros l before. split; [reflexivity|]. split; [reflexivity|].
  pose proof (page_never_empty before l ltac:(discriminate)) as [_ [Hshown _]].
  reflexivity.
Defined.

Lemma In_range a b i : In i (range a b) <-> a <= i <= b.
Proof.
  unfold range. rewrite in_map_iff. split.
  - intros (k & <- & Hk). apply in_seq in Hk. lia.
  - intros Hi. exists (Z.to_nat (i - a)). split; [lia|]. apply in_seq. lia.
Qed.

(** X27: every link [renderPagination] writes leads to a page [goToPage]
    accepts, when the current page is in range: the link's target becomes
    the current page.  There are at most five numbered links, and with more
    than one page the current one is among them, marked active. *)
Theorem renderPagination_links (p : pagination) :
  1 <= currentPage p <= totalPages p ->
  (forall k, In k (renderPagination p) ->
     currentPage (goToPage (target_of k) p) = target_of k) /\
  (List.length (List.filter (fun k => match k with Page _ _ => true | _ => false end)
                  (renderPagination p)) <= 5)%nat /\
  (1 < totalPages p -> In (Page (currentPage p) true) (renderPagination p)) /\
  (forall i, In (Page i true) (renderPagination p) -> i = currentPage p).
Proof.
  intros Hcur. unfold renderPagination.
  destruct (Z.leb_spec (totalPages p) 1) as [Hone|Hmany].
  - split; [intros k []|]. split; [simpl; lia|]. split; [lia | intros i []].
  - set (startPage := Z.max 1 (currentPage p - 2)).
    set (endPage := Z.min (totalPages p) (currentPage p + 2)).
    split; [|split; [|split]].
    + intros k Hk.
      assert (Hok : 1 <= target_of k <= totalPages p).
      { apply in_app_or in Hk as [Hk|Hk]; [|apply in_app_or in Hk as [Hk|Hk]].
        - destruct (Z.ltb_spec 1 (currentPage p)); [|contradiction].
          destruct Hk as [<-|[]]. simpl. lia.
        - apply in_map_iff in Hk as (i & <- & Hi). apply In_range in Hi.
          simpl. unfold startPage, endPage in Hi. lia.
        - destruct (Z.ltb_spec (currentPage p) (totalPages p)); [|contradiction].
          destruct Hk as [<-|[]]. simpl. lia. }
      now rewrite (goToPage_in_range _ p Hok).
    + rewrite !List.filter_app, !length_app.
      assert (Hprev : List.length (List.filter
                        (fun k => match k with Page _ _ => true | _ => false end)
                        (if 1 <? currentPage p then [Previous (currentPage p - 1)] else []))
                      = 0%nat) by (destruct (1 <? currentPage p); reflexivity).
      assert (Hnext : List.length (List.filter
                        (fun k => match k with Page _ _ => true | _ => false end)
                        (if currentPage p <? totalPages p
                         then [Next (currentPage p + 1)] else []))
                      = 0%nat) by (destruct (currentPage p <? totalPages p); reflexivity).
      rewrite Hprev, Hnext.
      pose proof (List.filter_length_le
                    (fun k => match k with Page _ _ => true | _ => false end)
                    (map (fun i => Page i (i =? currentPage p)) (range startPage endPage)))
        as Hle.
      assert (Hr : List.length (range startPage endPage)
                   = Z.to_nat (endPage - startPage + 1))
        by (unfold range; now rewrite length_map, length_seq).
      rewrite length_map, Hr in Hle. unfold startPage, endPage in *. lia.
    + intros _. apply in_or_app. right. apply in_or_app. left.
      apply in_map_iff. exists (currentPage p). split; [now rewrite Z.eqb_refl|].
      apply In_range. unfold startPage, endPage. lia.
    + intros i Hi.
      apply in_app_or in Hi as [Hi|Hi]; [|apply in_app_or in Hi as [Hi|Hi]].
      * destruct (1 <? currentPage p); [destruct Hi as [Hi|[]]; discriminate | contradiction].
      * apply in_map_iff in Hi as (j & Hj & _). injection Hj as -> Hact.
        now apply Z.eqb_eq.
      * destruct (currentPage p <? totalPages p);
          [destruct Hi as [Hi|[]]; discriminate | contradiction].
Qed.

(** Page 2 of 9. *)
Lemma renderPagination_links_witness :
  let p := goToPage 2 (paginate 100 initial) in
  renderPagination p
  = [Previous 1; Page 1 false; Page 2 true; Page 3 false; Page 4 false; Next 3] /\
  forall k, In k (renderPagination p) -> currentPage (goToPage (target_of k) p) = target_of k.
Proof.
  intros p. split; [reflexivity|].
  exact (proj1 (renderPagination_links p ltac:(vm_compute; split; discriminate))).
Defined.
End Pagination.

(** ** The stack of modals *)
Section Modals.
Import UI.

Lemma mem_In id l : mem id l = true <-> In id l.
Proof.
  unfold mem. rewrite existsb_exists. split.
  - intros (x & Hx & Heq). apply String.eqb_eq in Heq. now subst.
  - intros Hin. exists id. split; [exact Hin | apply String.eqb_refl].
Qed.

Lemma remove_first_middle pre x r :
  ~ In x pre -> remove_first x (pre ++ x :: r) = pre ++ r.
Proof.
  induction pre as [|y pre IH]; simpl; intros Hn.
  - now rewrite String.eqb_refl.
  - destruct (String.eqb_spec y x) as [->|Hne]; [tauto|]. f_equal. apply IH. tauto.
Qed.

(** [hideModal] of the entry at index [length pre], whose id is nowhere
    else in the stack. *)
Lemma hideModal_at s pre x r :
  modalStack s = pre ++ x :: r -> ~ In x pre ->
  modalStack (hideModal x s) = pre ++ r /\
  listeners (hideModal x s) = listeners s /\
  (pre ++ r <> [] -> modal_open (hideModal x s) = modal_open s).
Proof.
  intros Hstack Hn. unfold hideModal.
  assert (Hmem : mem x (modalStack s) = true).
  { apply mem_In. rewrite Hstack. apply in_or_app. right. now left. }
  rewrite Hmem. simpl. rewrite Hstack, (remove_first_middle _ _ _ Hn).
  split; [reflexivity|]. split; [reflexivity|].
  intros Hne. destruct (pre ++ r); [congruence | reflexivity].
Qed.

Lemma hide_each_past count : forall k s,
  (List.length (modalStack s) <= k)%nat -> hide_each count k s = s.
Proof.
  induction count as [|count IH]; intros k s Hk; [reflexivity|].
  simpl. rewrite (proj2 (nth_error_None _ _) Hk). apply IH. lia.
Qed.

Lemma hide_each_stack : forall count r pre s,
  modalStack s = pre ++ r -> List.NoDup (pre ++ r) -> (List.length r <= count)%nat ->
  modalStack (hide_each count (List.length pre) s) = pre ++ every_other r /\
  listeners (hide_each count (List.length pre) s) = listeners s /\
  (pre ++ every_other r <> [] ->
   modal_open (hide_each count (List.length pre) s) = modal_open s).
Proof.
  induction count as [|count IH]; intros r pre s Hstack Hnd Hlen.
  - destruct r; [|simpl in Hlen; lia]. simpl. now rewrite Hstack.
  - destruct r as [|x r].
    + rewrite hide_each_past by (rewrite Hstack, app_nil_r; lia).
      simpl. now rewrite Hstack.
    + cbn [hide_each]. rewrite Hstack, nth_error_app2, Nat.sub_diag by lia. simpl nth_error.
      assert (Hx : ~ In x pre).
      { intros Hin. apply List.NoDup_remove_2 in Hnd. apply Hnd.
        apply in_or_app. now left. }
      destruct (hideModal_at s pre x r Hstack Hx) as (Hst1 & Hls1 & Hopen1).
      apply List.NoDup_remove_1 in Hnd.
      destruct r as [|y r].
      * rewrite hide_each_past by (rewrite Hst1, app_nil_r; lia).
        simpl. rewrite app_nil_r in *. split; [exact Hst1|]. split; [exact Hls1|exact Hopen1].
      * assert (Hst1' : modalStack (hideModal x s) = (pre ++ [y]) ++ r)
          by (rewrite Hst1, <- app_assoc; reflexivity).
        destruct (IH r (pre ++ [y]) (hideModal x s) Hst1')
          as (Hst2 & Hls2 & Hopen2).
        { rewrite <- app_assoc. exact Hnd. }
        { simpl in Hlen. lia. }
        rewrite length_app, Nat.add_1_r in Hst2, Hls2, Hopen2.
        cbn [every_other]. split; [|split].
        -- rewrite Hst2, <- app_assoc. reflexivity.
        -- now rewrite Hls2.
        -- intros _. rewrite Hopen2, Hopen1; [reflexivity| |].
           ++ destruct pre; discriminate.
           ++ rewrite <- app_assoc. destruct pre; discriminate.
Qed.

(** X28: [cleanup()] does not close all the modals.  Its [forEach] goes on
    by index while [hideModal] takes entries out of the array, so with
    modals of different ids open it closes the first, third, fifth, ... and
    leaves every second one on the stack; with two or more open, the body
    keeps the state [modal-open] it had.  No Escape listener is removed. *)
Theorem cleanup_leaves_every_other (s : UIService) :
  List.NoDup (modalStack s) ->
  modalStack (cleanup s) = every_other (modalStack s) /\
  listeners (cleanup s) = listeners s /\
  ((2 <= List.length (modalStack s))%nat ->
   modalStack (cleanup s) <> [] /\ modal_open (cleanup s) = modal_open s).
Proof.
  intros Hnd. unfold cleanup.
  destruct (hide_each_stack (List.length (modalStack s)) (modalStack s) [] s
              eq_refl Hnd (Nat.le_refl _)) as (Hstack & Hls & Hopen).
  simpl in Hstack, Hls, Hopen. split; [exact Hstack|]. split; [exact Hls|].
  intros Hlen.
  assert (Hne : every_other (modalStack s) <> []).
  { destruct (modalStack s) as [|x [|y r]]; simpl in *; try lia. discriminate. }
  split; [now rewrite Hstack | now apply Hopen].
Qed.

(** Four modals open. *)
Lemma cleanup_leaves_every_other_witness :
  let s0 := {| elements := ["a"; "b"; "c"; "d"]; modalStack := []; displayed := [];
               modal_open := false; listeners := []; flagged := [] |} in
  let s := fold_left perform [Show "a" true; Show "b" true; Show "c" true; Show "d" true] s0 in
  modalStack (cleanup s) = ["b"; "d"] /\ modal_open (cleanup s) = true /\
  displayed (cleanup s) = ["b"; "d"].
Proof.
  intros s0 s.
  assert (Hnd : List.NoDup (modalStack s)).
  { repeat constructor; simpl; intros H;
      repeat (destruct H as [H|H]; [discriminate|]); exact H. }
  destruct (cleanup_leaves_every_other s Hnd) as (Hstack & _ & Hopen).
  split; [rewrite Hstack; reflexivity|]. split; [|reflexivity].
  rewrite (proj2 (Hopen ltac:(simpl; lia))). reflexivity.
Defined.

Lemma hideModal_listeners id s : listeners (hideModal id s) = listeners s.
Proof. unfold hideModal. now destruct (negb (mem id (modalStack s))). Qed.

Lemma hideModal_elements id s : elements (hideModal id s) = elements s.
Proof. unfold hideModal. now destruct (negb (mem id (modalStack s))). Qed.

Lemma hide_each_fixed count : forall k s,
  listeners (hide_each count k s) = listeners s /\
  elements (hide_each count k s) = elements s.
Proof.
  induction count as [|count IH]; intros k s; [now split|].
  simpl. destruct (IH (S k) match nth_error (modalStack s) k with
                            | Some id => hideModal id s
                            | None => s
                            end) as [-> ->].
  destruct (nth_error (modalStack s) k);
    [now rewrite hideModal_listeners, hideModal_elements | now split].
Qed.

(** X29: the Escape handlers that [showModal] registers on the document
    are never removed: after any calls of [showModal], [hideModal] and
    [cleanup], the listeners are the ones there were, followed by one for
    each [showModal] that found its element and had the keyboard option on,
    closed or not. *)
Theorem listeners_only_grow (l : list call) (s : UIService) :
  listeners (fold_left perform l s) = listeners s ++ registered (elements s) l /\
  elements (fold_left perform l s) = elements s.
Proof.
  revert s. induction l as [|c l IH]; intros s; simpl.
  - now rewrite app_nil_r.
  - destruct (IH (perform s c)) as [-> ->].
    assert (Hstep : listeners (perform s c)
                    = listeners s ++ match c with
                                     | Show modalId true =>
                                         if mem modalId (elements s) then [modalId] else []
                                     | _ => []
                                     end /\
                    elements (perform s c) = elements s).
    { destruct c as [modalId keyboard|modalId|]; simpl.
      - unfold showModal. destruct (mem modalId (elements s)); simpl.
        + destruct keyboard; [now split | now rewrite app_nil_r].
        + destruct keyboard; now rewrite app_nil_r.
      - now rewrite hideModal_listeners, hideModal_elements, app_nil_r.
      - unfold cleanup.
        destruct (hide_each_fixed (List.length (modalStack s)) 0 s) as [-> ->].
        now rewrite app_nil_r. }
    destruct Hstep as [-> ->]. now rewrite <- app_assoc.
Qed.
End Modals.

(** ** Critical errors *)
Section CriticalErrors.
Import Errors.

Lemma toLowerCase_app (a b : string) :
  toLowerCase (a ++ b)%string = (toLowerCase a ++ toLowerCase b)%string.
Proof. induction a as [|c a IH]; simpl; [reflexivity | now rewrite IH]. Qed.

Lemma prefix_app (k post : string) : String.prefix k (k ++ post)%string = true.
Proof.
  induction k as [|c k IH]; simpl; [now destruct post|].
  destruct (ascii_dec c c); [exact IH | congruence].
Qed.

Lemma includes_prefix (k s : string) : String.prefix k s = true -> includes k s = true.
Proof. intros H. destruct s; cbn [includes]; now rewrite H. Qed.

Lemma includes_app (k pre post : string) : includes k (pre ++ k ++ post)%string = true.
Proof.
  induction pre as [|c pre IH].
  - change (includes k (k ++ post)%string = true). apply includes_prefix, prefix_app.
  - change ((String c pre ++ k ++ post)%string) with (String c (pre ++ k ++ post)%string).
    cbn [includes]. rewrite IH. apply orb_true_r.
Qed.

(** X30: an error is critical as soon as its text has one of the four
    keywords somewhere in it, in any mix of upper and lower case: for a
    string that is thrown, and for an error with such a message,
    [isCriticalError] returns [true], and [handleError] returns the error
    info with that message and the type it was given. *)
Theorem isCriticalError_keyword (pre w post k type : string) :
  In k criticalKeywords ->
  toLowerCase w = k ->
  let text := (pre ++ w ++ post)%string in
  isCriticalError (ThrownStr text) = Normal true /\
  isCriticalError (Err text) = Normal true /\
  handleError (Err text) type
  = Normal {| info_message := ThrownStr text; info_type := type |}.
Proof.
  intros Hk Hw text.
  assert (Hsome : existsb (fun keyword => includes keyword (toLowerCase text))
                    criticalKeywords = true).
  { apply existsb_exists. exists k. split; [exact Hk|].
    unfold text. rewrite !toLowerCase_app, Hw. apply includes_app. }
  assert (Hne : String.eqb text EmptyString = false).
  { apply String.eqb_neq. intros Hempty.
    assert (Hlow : toLowerCase text = EmptyString) by now rewrite Hempty.
    rewrite Hlow in Hsome. simpl in Hsome. discriminate. }
  unfold handleError, message_or_self, isCriticalError. rewrite Hne, Hsome.
  repeat split.
Qed.

(** A failed fetch as browsers report it. *)
Lemma isCriticalError_keyword_witness :
  isCriticalError (Err "TypeError: NetworkError when attempting to fetch resource.")
  = Normal true /\
  isCriticalError (ThrownStr "Unauthorized") = Normal true /\
  isCriticalError (ThrownStr "Not found") = Normal false.
Proof.
  split; [|split; reflexivity].
  exact (proj1 (proj2 (isCriticalError_keyword "TypeError: " "Network"
                         "Error when attempting to fetch resource." "network" "supabase"
                         ltac:(simpl; tauto) eq_refl))).
Defined.
End CriticalErrors.
